(** * OpenModes: singular-term store, singular-quadrature cache and mode bookkeeping

    A shallow embedding of [openmodes/operator/singularities.py]
    (class [MultiSparse], the module-level dictionary
    [cached_singular_terms] and the function [singular_impedance_rwg]),
    followed by the mode-set operations that the examples call
    ([refine_poles], [add_conjugates]).

    Conventions of the embedding:
    - a Python [dict] is an insertion-ordered association list with unique
      keys ([PyDict.set] replaces in place or appends, as CPython does);
    - a Python [set] is a [gset]; the order in which a [for] loop visits it
      is left open (any duplicate-free enumeration);
    - triangle and node indices, counts and array dimensions are [nat];
    - a numpy array is described by its dtype, shape, memory order and the
      cells along its first axis, a cell being [None] until it is written
      ([np.empty] does not initialise);
    - an assignment [a[i] = x] converts [x] to the dtype and element shape
      of [a]; for the data arrays that conversion is a parameter
      ([np_cast], which returns numpy's message when it refuses a value),
      for the [int32] arrays it is [int32_cast];
    - exceptions are values of [exn]; fallible code returns [exn + _];
    - the process-wide state (object heap, cache, number of kernel
      evaluations) is passed explicitly. *)

From stdpp Require Import base option list gmap strings pretty sorting.
From Stdlib Require Import ZArith Lia.

Set Default Proof Using "Type".

(** ** Exceptions *)

(** [ConversionError] stands for the exception numpy raises when a value
    cannot be converted to the dtype and element shape of an array (in
    CPython a [ValueError] or a [TypeError], carrying numpy's message). *)
Inductive exn :=
| ValueError (msg : string)
| IndexError (msg : string)
| KeyError
| OverflowError (msg : string)
| ConversionError (msg : string).

#[global] Instance exn_eq_dec : EqDecision exn.
Proof. solve_decision. Defined.

Definition res (T : Type) : Type := exn + T.

Definition raise {T} (e : exn) : res T := inl e.
Definition ret {T} (x : T) : res T := inr x.

Definition bind {T U} (m : res T) (k : T → res U) : res U :=
  match m with
  | inl e => inl e
  | inr x => k x
  end.

Notation "x ←! m ; k" := (bind m (λ x, k))
  (at level 20, m at level 100, k at level 200, right associativity,
   format "'[' x  ←!  m ;  '/' k ']'").

(** A [for] loop whose body may raise. *)
Fixpoint for_each {S X} (body : S → X → res S) (s : S) (xs : list X) : res S :=
  match xs with
  | [] => ret s
  | x :: xs' => s' ←! body s x; for_each body s' xs'
  end.

(** A list converted element by element, by a function that may raise. *)
Fixpoint map_res {X Y} (f : X → res Y) (xs : list X) : res (list Y) :=
  match xs with
  | [] => ret []
  | x :: xs' => y ←! f x; ys ←! map_res f xs'; ret (y :: ys)
  end.

(** A [for] loop whose body may raise and reports how many kernel
    evaluations it made; the loop returns their total, also when it is
    left by an exception. *)
Fixpoint for_each_counting {S X} (body : S → X → res S * nat) (s : S) (xs : list X)
  : res S * nat :=
  match xs with
  | [] => (ret s, 0)
  | x :: xs' =>
      match body s x with
      | (inl e, c) => (inl e, c)
      | (inr s', c) =>
          let '(r, c') := for_each_counting body s' xs' in (r, c + c')
      end
  end.

(** ** Python dictionaries *)

Module PyDict.
Section pydict.
Context {K V : Type} `{EqDecision K}.

  (** [k in d] and [d[k]] *)
Fixpoint get (d : list (K * V)) (k : K) : option V :=
    match d with
    | [] => None
    | (k', v) :: d' => if decide (k = k') then Some v else get d' k
    end.

  (** [d[k] = v] *)
Fixpoint set (d : list (K * V)) (k : K) (v : V) : list (K * V) :=
    match d with
    | [] => [(k, v)]
    | (k', v') :: d' =>
        if decide (k = k') then (k, v) :: d' else (k', v') :: set d' k v
    end.

(** [d.keys()] *)
Definition keys (d : list (K * V)) : list K := d.*1.
End pydict.
End PyDict.

(** ** numpy arrays *)

Inductive np_dtype := float64 | int32.
Inductive mem_order := C_order | F_order.

#[global] Instance np_dtype_eq_dec : EqDecision np_dtype.
Proof. solve_decision. Defined.
#[global] Instance mem_order_eq_dec : EqDecision mem_order.
Proof. solve_decision. Defined.

Record ndarray (T : Type) := NdArray {
  dtype : np_dtype;
  shape : list nat;
  order : mem_order;
  cells : list (option T)
}.
Arguments NdArray {T}.
Arguments dtype {T}.
Arguments shape {T}.
Arguments order {T}.
Arguments cells {T}.

(** [np.empty(shape, dtype, order)]: the cells run along the first axis. *)
Definition np_empty {T} (sh : list nat) (dt : np_dtype) (ord : mem_order)
  : ndarray T :=
  NdArray dt sh ord (replicate (hd 0 sh) None).

(** [a[i] = x] for [0 <= i]: the value is converted to the dtype of [a]
    and to the shape of one of its elements, and the converted value is
    what the cell holds afterwards; [cast] is that conversion. *)
Definition np_setitem {X T} (cast : np_dtype → list nat → X → res T)
    (a : ndarray T) (i : nat) (x : X) : res (ndarray T) :=
  if decide (i < length (cells a))
  then v ←! cast (dtype a) (tail (shape a)) x;
       ret (NdArray (dtype a) (shape a) (order a) (<[i := Some v]> (cells a)))
  else raise (IndexError ("index " +:+ pretty i
                            +:+ " is out of bounds for axis 0 with size "
                            +:+ pretty (length (cells a)))).

(** The conversion of an element stored into a data array: [np_cast]
    returns the converted value, or numpy's message when it refuses. *)
Definition np_convert {A} (np_cast : np_dtype → list nat → A → string + A)
    (dt : np_dtype) (sh : list nat) (x : A) : res A :=
  match np_cast dt sh x with
  | inl msg => raise (ConversionError msg)
  | inr v => ret v
  end.

(** The low 32 bits of an integer, read as a signed number. *)
Definition int32_of_int (z : Z) : Z :=
  ((z + 2 ^ 31) mod 2 ^ 32 - 2 ^ 31)%Z.

(** The conversion of a Python integer stored into an [int32] array
    depends on the version of numpy when the integer is out of range:
    numpy 2 raises, numpy 1 converts through a C long and keeps the low
    32 bits. *)
Inductive numpy_version := Numpy1 | Numpy2.

Definition int32_cast (numpy : numpy_version) (z : Z) : res Z :=
  if decide (- 2 ^ 31 ≤ z < 2 ^ 31)%Z then ret z
  else match numpy with
       | Numpy2 =>
           raise (OverflowError ("Python integer " +:+ pretty z
                                   +:+ " out of bounds for int32"))
       | Numpy1 =>
           if decide (- 2 ^ 63 ≤ z < 2 ^ 63)%Z then ret (int32_of_int z)
           else raise (OverflowError "Python int too large to convert to C long")
       end.

(** [np.array(l, dtype=np.int32, order)] on a list of integers *)
Definition np_array_int32 (numpy : numpy_version) (l : list nat) (ord : mem_order)
  : res (ndarray Z) :=
  cs ←! map_res (λ n, int32_cast numpy (Z.of_nat n)) l;
  ret (NdArray int32 [length l] ord (Some <$> cs)).

(** ** class MultiSparse *)

Module MultiSparse.
Section multisparse.
  (** [A] is the type of one stored sub-result (a numeric block). *)
Context {A : Type}.
Context (np_cast : np_dtype → list nat → A → string + A).
Context (numpy : numpy_version).

(** An item is the tuple of sub-results of one (row, col) pair; a row is a
    dictionary from column to item. *)
Local Abbreviation item := (list A).
Local Abbreviation row_dict := (list (nat * list A)).

Record t := Make {
    rows : list (nat * row_dict);
    subarrays : list (np_dtype * option (list nat))
  }.

  (** [__init__] *)
Definition init (subs : list (np_dtype * option (list nat))) : t :=
    Make [] subs.

  (** [__setitem__] *)
Definition setitem (m : t) (index : nat * nat) (it : item) : t :=
    let '(row, col) := index in
    match PyDict.get (rows m) row with
    | Some d => Make (PyDict.set (rows m) row (PyDict.set d col it)) (subarrays m)
    | None => Make (PyDict.set (rows m) row [(col, it)]) (subarrays m)
    end.

  (** [__getitem__] *)
Definition getitem (m : t) (index : nat * nat) : res item :=
    match PyDict.get (rows m) index.1 with
    | Some d =>
        match PyDict.get d index.2 with
        | Some it => ret it
        | None => raise KeyError
        end
    | None => raise KeyError
    end.

  (** [__len__] *)
Definition len (m : t) : nat :=
    sum_list ((λ rd : nat * row_dict, length rd.2) <$> rows m).

  (** [items] *)
Definition items (m : t) : list ((nat * nat) * item) :=
    rd ← rows m; (λ ci : nat * item, ((rd.1, ci.1), ci.2)) <$> rd.2.

  (** The arrays returned by [to_csr], in the order of the returned list. *)
Inductive csr_array :=
  | DataArray (a : ndarray A)
  | IndexArray (a : ndarray Z).

Record csr_state := CsrState {
    data_arrays : list (ndarray A);
    indices : ndarray Z;
    indptr : list nat;
    data_index : nat
  }.

  (** [for sub_count, sub_item in enumerate(item):
         data_arrays[sub_count][data_index] = sub_item] *)
Fixpoint store_item (das : list (ndarray A)) (di sub_count : nat) (it : item)
    : res (list (ndarray A)) :=
    match it with
    | [] => ret das
    | sub_item :: it' =>
        match das !! sub_count with
        | None => raise (IndexError "list index out of range")
        | Some a =>
            a' ←! np_setitem (np_convert np_cast) a di sub_item;
            store_item (<[sub_count := a']> das) di (S sub_count) it'
        end
    end.

  (** Body of [for col, item in self.rows[row].items()] *)
Definition emit_entry (s : csr_state) (ci : nat * item) : res csr_state :=
    das ←! store_item (data_arrays s) (data_index s) 0 ci.2;
    idx ←! np_setitem (λ _ _, int32_cast numpy) (indices s) (data_index s)
             (Z.of_nat ci.1);
    ret (CsrState das idx (indptr s) (S (data_index s))).

  (** Body of [for row in range(num_rows)] *)
Definition emit_row (rws : list (nat * row_dict)) (s : csr_state) (row : nat)
    : res csr_state :=
    s' ←! match PyDict.get rws row with
          | Some d => for_each emit_entry s d
          | None => ret s
          end;
    ret (CsrState (data_arrays s') (indices s')
                  (indptr s' ++ [data_index s']) (data_index s')).

  (** [max(self.rows.keys())] *)
Definition max_key (rws : list (nat * row_dict)) : res nat :=
    match PyDict.keys rws with
    | [] => raise (ValueError "max() arg is an empty sequence")
    | k :: ks => ret (max_list (k :: ks))
    end.

Definition alloc_data (num_objs : nat) (ord : mem_order)
      (sub : np_dtype * option (list nat)) : ndarray A :=
    match sub.2 with
    | None => np_empty [num_objs] sub.1 ord
    | Some sh => np_empty (num_objs :: sh) sub.1 ord
    end.

  (** [to_csr] *)
Definition to_csr (m : t) (ord : mem_order) : res (list csr_array) :=
    let num_objs := len m in
    let indices0 := np_empty [num_objs] int32 ord in
    let indptr0 := [0] in
    let das0 := alloc_data num_objs ord <$> subarrays m in
    let data_index0 := 0 in
    mk ←! max_key (rows m);
    let num_rows := mk + 1 in
    s ←! for_each (emit_row (rows m))
                  (CsrState das0 indices0 indptr0 data_index0)
                  (seq 0 num_rows);
    ptr ←! np_array_int32 numpy (indptr s) ord;
    ret ((DataArray <$> data_arrays s)
           ++ [IndexArray (indices s); IndexArray ptr]).
End multisparse.
Arguments t : clear implicits.
Arguments csr_array : clear implicits.
Arguments csr_state : clear implicits.
End MultiSparse.

(** ** Reading a compressed-row bundle back

    The consumer's view of the list returned by [to_csr]: the last two
    arrays are the shared column indices and row pointers, the others
    the data arrays.  Row [r] owns the positions
    [indptr[r] .. indptr[r+1]-1]. *)

Module Csr.
Section csr.
Context {A : Type}.

Definition data_of (out : list (MultiSparse.csr_array A)) : list (ndarray A) :=
  omap (λ x, match x with MultiSparse.DataArray a => Some a | _ => None end) out.

Definition index_of (out : list (MultiSparse.csr_array A)) : list (ndarray Z) :=
  omap (λ x, match x with MultiSparse.IndexArray a => Some a | _ => None end) out.

(** [a[k]], [None] when out of range or never written *)
Definition cell {T} (a : ndarray T) (k : nat) : option T := mjoin (cells a !! k).

Definition int_cell (a : ndarray Z) (k : nat) : Z := default 0%Z (cell a k).

(** All [((row, col), values)] triples held by the arrays, row by row. *)
Definition read_arrays (das : list (ndarray A)) (idx ptr : ndarray Z)
  : list ((nat * Z) * list (option A)) :=
  r ← seq 0 (length (cells ptr) - 1);
  let lo := Z.to_nat (int_cell ptr r) in
  let hi := Z.to_nat (int_cell ptr (S r)) in
  k ← seq lo (hi - lo);
  [((r, int_cell idx k), (λ d, cell d k) <$> das)].

Definition from_csr (out : list (MultiSparse.csr_array A))
  : list ((nat * Z) * list (option A)) :=
  match index_of out with
  | [idx; ptr] => read_arrays (data_of out) idx ptr
  | _ => []
  end.
End csr.
End Csr.

(** What a store entry looks like once read back from the arrays. *)
Definition as_read {A} (e : (nat * nat) * list A) : (nat * Z) * list (option A) :=
  ((e.1.1, Z.of_nat e.1.2), Some <$> e.2).

(** A store obtained from [MultiSparse(subarrays)] by a sequence of
    [store[row, col] = item] statements. *)
Definition of_ops {A} (subs : list (np_dtype * option (list nat)))
    (ops : list ((nat * nat) * list A)) : MultiSparse.t A :=
  foldl (λ m op, MultiSparse.setitem m op.1 op.2) (MultiSparse.init subs) ops.

(** The item is a tuple with one element per declared sub-array, and its
    column index fits the [int32] index array. *)
Definition fits {A} (subs : list (np_dtype * option (list nat)))
    (op : (nat * nat) * list A) : Prop :=
  length op.2 = length subs ∧ (Z.of_nat op.1.2 < 2 ^ 31)%Z.

(** ** The singular-quadrature cache: [singular_impedance_rwg] *)

Module Singular.
Section singular.
(** Collaborators that live outside this module: the basis and mesh
    objects, the arrays they hold, the Dunavant rule, the face-integral
    kernel of the core and SHA-1.  They are taken to return. *)
Context {BasisId Tol NodeArray NormalArray Tri Normal RulePoints RuleWeights Terms : Type}.
Context `{EqDecision BasisId, EqDecision Tol}.

(** [basis.mesh]: [polygons] lists the node indices of each triangle,
    [nodes] is the coordinate array and [triangles_sharing_nodes] the
    adjacency returned by the method of that name, read at a node. *)
Record Mesh := {
  polygons : list (list nat);
  nodes : NodeArray;
  triangles_sharing_nodes : nat → gset nat
}.

(** [polygons[q]] *)
Definition polygon (msh : Mesh) (q : nat) : res (list nat) :=
  match polygons msh !! q with
  | Some tri => ret tri
  | None =>
      raise (IndexError ("index " +:+ pretty q
                           +:+ " is out of bounds for axis 0 with size "
                           +:+ pretty (length (polygons msh))))
  end.

Record LinearTriangleBasis := {
  id : BasisId;
  mesh : Mesh
}.

(** The [basis] argument: an instance of [LinearTriangleBasis] or some
    other object. *)
Inductive basis_obj :=
| IsLinearTriangleBasis (b : LinearTriangleBasis)
| OtherObject (descr : string).

Definition isinstance_LinearTriangleBasis (basis : basis_obj) : bool :=
  match basis with
  | IsLinearTriangleBasis _ => true
  | OtherObject _ => false
  end.

(** The four arrays returned by [face_integrals_yla_oijala]. *)
Record face_integrals := {
  res0 : Terms;
  res1 : Terms;
  res2 : Terms;
  res3 : Terms
}.

Context (rule_points : RulePoints) (rule_weights : RuleWeights).
Context (face_integrals_yla_oijala :
           Tri → RulePoints → RuleWeights → Tri → Normal → face_integrals).
(** [nodes[polygons[q]]] and [normals[p]] *)
Context (take_nodes : NodeArray → list nat → Tri).
Context (normal_at : NormalArray → nat → Normal).
Context (sha1_hexdigest : NormalArray → string).
(** The order in which a [for] loop visits a set. *)
Context (set_iter : gset nat → list nat).
(** numpy's conversion of a kernel output stored into a data array, and
    the version of numpy. *)
Context (np_cast : np_dtype → list nat → Terms → string + Terms).
Context (numpy : numpy_version).

(** The dictionary [singular_terms], with its three fixed keys. *)
Record stores := Stores {
  T_EFIE : MultiSparse.t Terms;
  T_MFIE : MultiSparse.t Terms;
  N_MFIE : MultiSparse.t Terms
}.

Definition stores_items (s : stores) : list (string * MultiSparse.t Terms) :=
  [("T_EFIE", T_EFIE s); ("T_MFIE", T_MFIE s); ("N_MFIE", N_MFIE s)].

Definition new_stores (num_terms : nat) : stores :=
  Stores
    (MultiSparse.init [(float64, Some [num_terms]); (float64, Some [num_terms; 3; 3])])
    (MultiSparse.init [(float64, Some [num_terms; 3; 3])])
    (MultiSparse.init [(float64, Some [num_terms; 3; 3])]).

(** The union of [sharing_nodes[node]] over the nodes [tri] of a
    triangle. *)
Definition neighbours (msh : Mesh) (tri : list nat) : gset nat :=
  foldl (λ acc node, acc ∪ triangles_sharing_nodes msh node) ∅ tri.

(** The set [sharing_triangles] built for observer [p]. *)
Definition sharing_triangles (msh : Mesh) (p : nat) : res (gset nat) :=
  tri ←! polygon msh p;
  ret (neighbours msh tri).

(** The call of [face_integrals_yla_oijala] for observer [p] and source
    [q], with its arguments [normals[p]], [nodes[polygons[q]]] and
    [nodes[polygons[p]]]. *)
Definition kernel_at (msh : Mesh) (normals : NormalArray) (p q : nat)
  : res face_integrals :=
  let normal := normal_at normals p in
  tq ←! polygon msh q;
  tp ←! polygon msh p;
  ret (face_integrals_yla_oijala (take_nodes (nodes msh) tq) rule_points rule_weights
         (take_nodes (nodes msh) tp) normal).

(** Body of [for q in sharing_triangles]; the second component is the
    number of kernel evaluations made. *)
Definition visit_source (msh : Mesh) (normals : NormalArray) (p : nat)
    (s : stores) (q : nat) : res stores * nat :=
  match kernel_at msh normals p q with
  | inl e => (inl e, 0)
  | inr res =>
      let s1 :=
        if decide (q ≠ p)
        then Stores (T_EFIE s)
                    (MultiSparse.setitem (T_MFIE s) (p, q) [res3 res])
                    (MultiSparse.setitem (N_MFIE s) (p, q) [res2 res])
        else s in
      (ret (Stores (MultiSparse.setitem (T_EFIE s1) (p, q) [res1 res; res0 res])
                   (T_MFIE s1) (N_MFIE s1)),
       1)
  end.

(** Body of [for p in range(0, num_faces)] *)
Definition visit_observer (msh : Mesh) (normals : NormalArray)
    (s : stores) (p : nat) : res stores * nat :=
  match sharing_triangles msh p with
  | inl e => (inl e, 0)
  | inr sharing => for_each_counting (visit_source msh normals p) s (set_iter sharing)
  end.

Definition integrate (msh : Mesh) (normals : NormalArray) (num_terms : nat)
  : res stores * nat :=
  let num_faces := length (polygons msh) in
  for_each_counting (visit_observer msh normals) (new_stores num_terms)
    (seq 0 num_faces).

(** A finalized result: operator label to compressed-row bundle. *)
Definition result_obj : Type := list (string * list (MultiSparse.csr_array Terms)).

(** [{k: v.to_csr(order="F") for k, v in singular_terms.items()}] *)
Definition finalize (s : stores) : res result_obj :=
  for_each (λ acc kv, csr ←! MultiSparse.to_csr np_cast numpy kv.2 F_order;
                      ret (PyDict.set acc kv.1 csr))
           [] (stores_items s).

Definition unique_id_t : Type := string * BasisId * Tol * string * nat.

(** Process state: the objects allocated so far (a result is referred to
    by its address), the module-level dictionary and the number of
    kernel evaluations performed. *)
Record state := State {
  heap : list result_obj;
  cached_singular_terms : list (unique_id_t * nat);
  kernel_calls : nat
}.

(** State at import time: [cached_singular_terms = {}]. *)
Definition initial_state : state := State [] [] 0.

Definition singular_impedance_rwg (basis : basis_obj) (num_terms : nat)
    (rel_tol : Tol) (normals : NormalArray) (st : state) : res nat * state :=
  match basis with
  | OtherObject _ => (raise (ValueError "Basis functions are not RWG based"), st)
  | IsLinearTriangleBasis b =>
      let normals_hash := sha1_hexdigest normals in
      let unique_id := ("RWG", id b, rel_tol, normals_hash, num_terms) in
      match PyDict.get (cached_singular_terms st) unique_id with
      | Some obj => (ret obj, st)
      | None =>
          let '(looped, calls) := integrate (mesh b) normals num_terms in
          let st1 := State (heap st) (cached_singular_terms st)
                           (kernel_calls st + calls) in
          match looped with
          | inl e => (inl e, st1)
          | inr singular_terms =>
              match finalize singular_terms with
              | inl e => (inl e, st1)
              | inr obj =>
                  let addr := length (heap st1) in
                  let st2 := State (heap st1 ++ [obj])
                                   (PyDict.set (cached_singular_terms st1) unique_id addr)
                                   (kernel_calls st1) in
                  (ret addr, st2)
              end
          end
      end
  end.

(** States a process can be in: any sequence of calls after import. *)
Inductive reachable : state → Prop :=
| reachable_initial : reachable initial_state
| reachable_call basis num_terms rel_tol normals st :
    reachable st →
    reachable (singular_impedance_rwg basis num_terms rel_tol normals st).2.

(** *** Shape of a finalized result *)

(** A bundle returned by [to_csr(order="F")] for float sub-arrays whose
    elements have the given shapes: data arrays of shape [(N,) + shape],
    then one index array and one row-pointer array, all in Fortran order. *)
Definition bundle_shaped (shapes : list (list nat))
    (bndl : list (MultiSparse.csr_array Terms)) : Prop :=
  ∃ (N : nat) das idx ptr,
    bndl = (MultiSparse.DataArray <$> das)
             ++ [MultiSparse.IndexArray idx; MultiSparse.IndexArray ptr]
    ∧ Forall2 (λ (a : ndarray Terms) sh,
                 dtype a = float64 ∧ shape a = N :: sh ∧ order a = F_order)
              das shapes
    ∧ (dtype idx = int32 ∧ shape idx = [N] ∧ order idx = F_order)
    ∧ (dtype ptr = int32 ∧ order ptr = F_order).

(** A result for [num_terms] terms: the three labels in the order of
    [singular_terms], the electric bundle with its scalar and 3x3 data
    arrays, each magnetic bundle with its 3x3 data array. *)
Definition result_shaped (num_terms : nat) (obj : result_obj) : Prop :=
  ∃ e t m,
    obj = [("T_EFIE", e); ("T_MFIE", t); ("N_MFIE", m)]
    ∧ bundle_shaped [[num_terms]; [num_terms; 3; 3]] e
    ∧ bundle_shaped [[num_terms; 3; 3]] t
    ∧ bundle_shaped [[num_terms; 3; 3]] m.

(** The (observer, source) pairs in the order the double loop visits
    them: the observers [p] in ascending order, the sources of [p] in the
    order in which the set built from [polygons[p]] is iterated. *)
Definition visits (msh : Mesh) : list (nat * nat) :=
  p ← seq 0 (length (polygons msh));
  match polygons msh !! p with
  | Some tri => (λ q, (p, q)) <$> set_iter (neighbours msh tri)
  | None => []
  end.

(** The loop body at one pair. *)
Definition visit (msh : Mesh) (normals : NormalArray)
    (s : stores) (pq : nat * nat) : res stores * nat :=
  visit_source msh normals pq.1 s pq.2.
End singular.
End Singular.
(** ** Mode sets and pole refinement

    The examples call [sim.refine_poles(estimates, rel_tol, max_iter)] and
    [refined.add_conjugates()]; the code of both lives outside the files
    at hand, so they are modelled from their description. *)

Module Modes.
Section modes.
(** [C] is the type of complex frequencies, [Vec] of eigenvectors. *)
Context {C Vec : Type}.
(** Complex conjugation of a frequency and of a vector, and the
    comparison of two frequencies up to the numerical tolerance. *)
Context (conj : C → C) (conj_vec : Vec → Vec) (close : C → C → bool).

(** A refined mode [(s, v_r, v_l)]. *)
Record mode := Mode {
  s : C;
  vr : Vec;
  vl : Vec
}.

Definition conj_mode (m : mode) : mode :=
  Mode (conj (s m)) (conj_vec (vr m)) (conj_vec (vl m)).

(** Modelled from the spec: the test of [add_conjugates], whose code is
    missing, that a mode is already paired with its conjugate within the
    set, compared by a numerical tolerance on [s]. *)
Definition paired (M : list mode) (m : mode) : bool :=
  existsb (λ m', close (s m') (conj (s m))) M.

(** Modelled from the spec: [add_conjugates], whose code is missing: for
    every mode [(s, v_r, v_l)] not already paired with its conjugate within
    the set, append a new mode made of the conjugates of [s], [v_r] and
    [v_l]. *)
Definition add_conjugates (M : list mode) : list mode :=
  M ++ (conj_mode <$> filter (λ m, paired M m = false) M).

(** One update of the local root-finding iteration, the stopping test on
    the relative change of [s], and the construction of the normalised
    mode at the converged frequency. *)
Context {Tol : Type}.
Context (update : C → C) (small_change : Tol → C → C → bool) (finish : C → mode).

(** Modelled from the spec: the iteration of the Pole Refiner, whose code
    is missing: stop when the relative change in [s] is below the requested
    tolerance or [max_iter] iterations are exhausted. *)
Fixpoint iterate (rel_tol : Tol) (max_iter : nat) (s0 : C) : option C :=
  match max_iter with
  | 0 => None
  | S k =>
      let s1 := update s0 in
      if small_change rel_tol s0 s1 then Some s1 else iterate rel_tol k s1
  end.

(** Modelled from the spec: [refine_poles], whose code is missing: it
    accepts an ordered sequence of estimates, a relative tolerance and a
    maximum iteration count, and returns a possibly shorter sequence of
    refined modes; a mode whose iteration fails to converge within the
    budget is dropped, not reported as an error. *)
Definition refine_poles (estimates : list C) (rel_tol : Tol) (max_iter : nat)
  : list mode :=
  omap (λ e, finish <$> iterate rel_tol max_iter e) estimates.

(** The estimates whose iteration converges within the budget. *)
Definition converges (rel_tol : Tol) (max_iter : nat) (e : C) : bool :=
  bool_decide (is_Some (iterate rel_tol max_iter e)).
End modes.
Arguments mode : clear implicits.
End Modes.

(** * Auxiliary definitions

    Closed forms of what the loops compute, used to state and prove the
    properties below, and a few concrete inputs. *)

(** ** Conversions that succeed *)

(** An integer that an [int32] array accepts. *)
Definition int32_storable (numpy : numpy_version) (z : Z) : Prop :=
  (- 2 ^ 31 ≤ z < 2 ^ 31)%Z ∨ (numpy = Numpy1 ∧ (- 2 ^ 63 ≤ z < 2 ^ 63)%Z).

(** [np.array(l, dtype=np.int32, order)] when every integer is accepted. *)
Definition int32_array (l : list nat) (ord : mem_order) : ndarray Z :=
  NdArray int32 [length l] ord ((λ n, Some (int32_of_int (Z.of_nat n))) <$> l).

(** What a cell of the data array declared as [sub] holds once [x] has
    been assigned to it, if numpy accepts [x]. *)
Definition np_stored {A} (np_cast : np_dtype → list nat → A → string + A)
    (sub : np_dtype * option (list nat)) (x : A) : option A :=
  match np_cast sub.1 (default [] sub.2) x with
  | inr v => Some v
  | inl _ => None
  end.

(** numpy stores every element of the item as it is: the element already
    has the dtype and the shape declared for its sub-array. *)
Definition stored_unchanged {A} (np_cast : np_dtype → list nat → A → string + A)
    (subs : list (np_dtype * option (list nat))) (op : (nat * nat) * list A) : Prop :=
  ∀ j x sub, op.2 !! j = Some x → subs !! j = Some sub →
             np_cast sub.1 (default [] sub.2) x = inr x.

(** The store can be converted: no item has more elements than there are
    declared sub-arrays, numpy accepts every element for its sub-array,
    and the column indices and the number of items are accepted by the
    [int32] arrays. *)
Definition convertible {A} (np_cast : np_dtype → list nat → A → string + A)
    (numpy : numpy_version) (m : MultiSparse.t A) : Prop :=
  Forall (λ e : (nat * nat) * list A,
            length e.2 ≤ length (MultiSparse.subarrays m)
            ∧ (∀ j x sub, e.2 !! j = Some x → MultiSparse.subarrays m !! j = Some sub →
                          ∃ v, np_cast sub.1 (default [] sub.2) x = inr v)
            ∧ int32_storable numpy (Z.of_nat e.1.2))
         (MultiSparse.items m)
  ∧ int32_storable numpy (Z.of_nat (MultiSparse.len m)).

(** ** What the conversion loop of [to_csr] computes *)

Module Conv.
Section conversion.
Context {A : Type}.
Context (np_cast : np_dtype → list nat → A → string + A).
Context (numpy : numpy_version).
Implicit Types (rws : list (nat * list (nat * list A))).
Implicit Types (w d : list (nat * list A)).
Implicit Types (subs : list (np_dtype * option (list nat))).

(** Entries of row [r], in the row dictionary's order. *)
Definition row_entries rws (r : nat) : list (nat * list A) :=
  default [] (PyDict.get rws r).

(** Entries of rows [0 .. n-1], by ascending row. *)
Definition entries_upto rws (n : nat) : list (nat * list A) :=
  r ← seq 0 n; row_entries rws r.

(** The conversions [to_csr] performs for the elements of an item, from
    sub-array [sc] on, and for a whole entry, in the order in which it
    performs them. *)
Fixpoint cast_elems subs (sc : nat) (it : list A) : res (list A) :=
  match it with
  | [] => ret []
  | x :: it' =>
      match subs !! sc with
      | None => raise (IndexError "list index out of range")
      | Some sub =>
          v ←! np_convert np_cast sub.1 (default [] sub.2) x;
          vs ←! cast_elems subs (S sc) it';
          ret (v :: vs)
      end
  end.

Definition cast_entry subs (ci : nat * list A) : res (nat * list A) :=
  vs ←! cast_elems subs 0 ci.2;
  _ ←! int32_cast numpy (Z.of_nat ci.1);
  ret (ci.1, vs).

(** Cells of the index array and of data array [j] (capacity [N]) once
    the converted entries [w] have been written. *)
Definition idx_cells (N : nat) w : list (option Z) :=
  ((λ ci : nat * list A, Some (int32_of_int (Z.of_nat ci.1))) <$> w)
    ++ replicate (N - length w) None.

Definition dat_cells (N j : nat) w : list (option A) :=
  ((λ ci : nat * list A, ci.2 !! j) <$> w) ++ replicate (N - length w) None.

Definition with_cells {T} (a : ndarray T) (cs : list (option T)) : ndarray T :=
  NdArray (dtype a) (shape a) (order a) cs.

Definition das_of subs (ord : mem_order) (N : nat) w : list (ndarray A) :=
  imap (λ j sub, with_cells (MultiSparse.alloc_data N ord sub) (dat_cells N j w))
       subs.

Definition state_of subs ord N w (ptr : list nat) : MultiSparse.csr_state A :=
  MultiSparse.CsrState (das_of subs ord N w)
    (NdArray int32 [N] ord (idx_cells N w)) ptr (length w).

(** Data arrays part-way through [store_item]: the first [sc] arrays have
    received their element of [ci]. *)
Definition das_mix subs ord N w (ci : nat * list A) (sc : nat) : list (ndarray A) :=
  imap (λ j sub, with_cells (MultiSparse.alloc_data N ord sub)
                   (if decide (j < sc) then dat_cells N j (w ++ [ci])
                    else dat_cells N j w)) subs.

(** Row pointers after the rows [0 .. n-1]. *)
Definition ptr_upto rws (n : nat) : list nat :=
  (λ k, length (entries_upto rws k)) <$> seq 0 (S n).

(** Entries of rows [0 .. n-1] with their (row, col) key, by ascending row. *)
Definition keyed_upto rws (n : nat) : list ((nat * nat) * list A) :=
  r ← seq 0 n; (λ ci : nat * list A, ((r, ci.1), ci.2)) <$> row_entries rws r.

(** Number of rows swept by [to_csr]. *)
Definition num_rows_of rws : nat := S (max_list (PyDict.keys rws)).

(** The dictionaries of a store have unique keys. *)
Definition store_ok (m : MultiSparse.t A) : Prop :=
  NoDup (PyDict.keys (MultiSparse.rows m))
  ∧ Forall (λ rd : nat * list (nat * list A), NoDup (PyDict.keys rd.2))
           (MultiSparse.rows m).

(** The arrays holding the converted entries [es] of a store. *)
Definition arrays_of (m : MultiSparse.t A) (ord : mem_order) (es : list (nat * list A))
  : list (MultiSparse.csr_array A) :=
  let rws := MultiSparse.rows m in
  let N := MultiSparse.len m in
  (MultiSparse.DataArray <$> das_of (MultiSparse.subarrays m) ord N es)
    ++ [MultiSparse.IndexArray (NdArray int32 [N] ord (idx_cells N es));
        MultiSparse.IndexArray (int32_array (ptr_upto rws (num_rows_of rws)) ord)].

(** What [to_csr] returns or raises for a store with at least one row. *)
Definition csr_of (m : MultiSparse.t A) (ord : mem_order)
  : res (list (MultiSparse.csr_array A)) :=
  let rws := MultiSparse.rows m in
  es ←! map_res (cast_entry (MultiSparse.subarrays m)) (entries_upto rws (num_rows_of rws));
  _ ←! np_array_int32 numpy (ptr_upto rws (num_rows_of rws)) ord;
  ret (arrays_of m ord es).
End conversion.
End Conv.
Export Conv.

(** Errors raised by an access out of range or by a conversion that
    numpy refuses. *)
Definition element_error (e : exn) : Prop :=
  match e with
  | IndexError _ | OverflowError _ | ConversionError _ => True
  | ValueError _ | KeyError => False
  end.

(** Errors that [to_csr] and the integration loop can raise. *)
Definition loop_error (e : exn) : Prop :=
  match e with
  | ValueError msg => msg = "max() arg is an empty sequence"
  | IndexError _ | OverflowError _ | ConversionError _ => True
  | KeyError => False
  end.

(** ** What the integration loop of [singular_impedance_rwg] computes *)

Module Loop.
Section loop.
Context {BasisId Tol NodeArray NormalArray Tri Normal RulePoints RuleWeights Terms : Type}.
Context `{EqDecision BasisId, EqDecision Tol}.
Context (rule_points : RulePoints) (rule_weights : RuleWeights).
Context (face_integrals_yla_oijala :
           Tri → RulePoints → RuleWeights → Tri → Normal
           → Singular.face_integrals (Terms := Terms)).
Context (take_nodes : NodeArray → list nat → Tri).
Context (normal_at : NormalArray → nat → Normal).

Local Abbreviation Mesh := (Singular.Mesh (NodeArray := NodeArray)).

(** The node list of face [q] of the mesh (used at faces only). *)
Definition face (msh : Mesh) (q : nat) : list nat :=
  default [] (Singular.polygons msh !! q).

(** The kernel output for observer face [p] and source face [q]. *)
Definition kernel (msh : Mesh) (normals : NormalArray) (p q : nat)
  : Singular.face_integrals (Terms := Terms) :=
  face_integrals_yla_oijala
    (take_nodes (Singular.nodes msh) (face msh q)) rule_points rule_weights
    (take_nodes (Singular.nodes msh) (face msh p)) (normal_at normals p).

(** Declared sub-arrays of the electric and of the magnetic stores. *)
Definition efie_subs (num_terms : nat) : list (np_dtype * option (list nat)) :=
  [(float64, Some [num_terms]); (float64, Some [num_terms; 3; 3])].
Definition mfie_subs (num_terms : nat) : list (np_dtype * option (list nat)) :=
  [(float64, Some [num_terms; 3; 3])].

(** The assignments each store receives while the loop runs over the
    pairs [l] of faces. *)
Definition efie_ops (msh : Mesh) (normals : NormalArray) (l : list (nat * nat))
  : list ((nat * nat) * list Terms) :=
  (λ pq, (pq, [Singular.res1 (kernel msh normals pq.1 pq.2);
               Singular.res0 (kernel msh normals pq.1 pq.2)])) <$> l.

Definition off_diagonal (l : list (nat * nat)) : list (nat * nat) :=
  filter (λ pq, pq.2 ≠ pq.1) l.

Definition t_mfie_ops (msh : Mesh) (normals : NormalArray) (l : list (nat * nat))
  : list ((nat * nat) * list Terms) :=
  (λ pq, (pq, [Singular.res3 (kernel msh normals pq.1 pq.2)])) <$> off_diagonal l.

Definition n_mfie_ops (msh : Mesh) (normals : NormalArray) (l : list (nat * nat))
  : list ((nat * nat) * list Terms) :=
  (λ pq, (pq, [Singular.res2 (kernel msh normals pq.1 pq.2)])) <$> off_diagonal l.

Definition stores_after (msh : Mesh) (normals : NormalArray) (num_terms : nat)
    (l : list (nat * nat)) : Singular.stores :=
  Singular.Stores
    (of_ops (efie_subs num_terms) (efie_ops msh normals l))
    (of_ops (mfie_subs num_terms) (t_mfie_ops msh normals l))
    (of_ops (mfie_subs num_terms) (n_mfie_ops msh normals l)).

(** Both members of the pair are faces of the mesh. *)
Definition faces (msh : Mesh) (pq : nat * nat) : Prop :=
  pq.1 < length (Singular.polygons msh) ∧ pq.2 < length (Singular.polygons msh).

(** The sources listed for observer face [p], in the order of the loop. *)
Definition sources (set_iter : gset nat → list nat) (msh : Mesh) (p : nat) : list nat :=
  match Singular.polygons msh !! p with
  | Some tri => set_iter (Singular.neighbours msh tri)
  | None => []
  end.

(** Face [q] touches face [p]: the adjacency lists [q] at a node of [p]. *)
Definition touches (msh : Mesh) (p q : nat) : Prop :=
  ∃ tri node, Singular.polygons msh !! p = Some tri
              ∧ node ∈ tri
              ∧ q ∈ Singular.triangles_sharing_nodes msh node.

(** Invariant of the process state: every cached address holds a result
    shaped for the term count of its key, and no two keys share an
    address. *)
Definition cache_inv (st : Singular.state (BasisId := BasisId) (Tol := Tol) (Terms := Terms))
  : Prop :=
  (∀ k a, PyDict.get (Singular.cached_singular_terms st) k = Some a →
          ∃ obj, Singular.heap st !! a = Some obj ∧ Singular.result_shaped k.2 obj)
  ∧ (∀ k k' a, PyDict.get (Singular.cached_singular_terms st) k = Some a →
               PyDict.get (Singular.cached_singular_terms st) k' = Some a →
               k = k').
End loop.
End Loop.

(** ** Notions used to describe a sequence of assignments *)

(** The item most recently assigned to [idx], if any. *)
Definition last_assigned {A} (ops : list ((nat * nat) * list A)) (idx : nat * nat)
  : option (list A) :=
  snd <$> last (filter (λ op, op.1 = idx) ops).

(** ** Sequences of calls *)

Module Session.
Section session.
Context {BasisId Tol NodeArray NormalArray Tri Normal RulePoints RuleWeights Terms : Type}.
Context `{EqDecision BasisId, EqDecision Tol}.
Context (rule_points : RulePoints) (rule_weights : RuleWeights).
Context (face_integrals_yla_oijala :
           Tri → RulePoints → RuleWeights → Tri → Normal
           → Singular.face_integrals (Terms := Terms)).
Context (take_nodes : NodeArray → list nat → Tri).
Context (normal_at : NormalArray → nat → Normal).
Context (sha1_hexdigest : NormalArray → string).
Context (set_iter : gset nat → list nat).
Context (np_cast : np_dtype → list nat → Terms → string + Terms).
Context (numpy : numpy_version).

(** The arguments of one call of [singular_impedance_rwg]. *)
Record request := Request {
  basis : Singular.basis_obj (BasisId := BasisId) (NodeArray := NodeArray);
  num_terms : nat;
  rel_tol : Tol;
  normals : NormalArray
}.

(** The state after the calls [reqs], made one after the other whatever
    each of them returns or raises. *)
Definition run (reqs : list request)
    (st : Singular.state (BasisId := BasisId) (Tol := Tol) (Terms := Terms))
  : Singular.state :=
  foldl (λ st r,
           (Singular.singular_impedance_rwg rule_points rule_weights
              face_integrals_yla_oijala take_nodes normal_at sha1_hexdigest
              set_iter np_cast numpy
              (basis r) (num_terms r) (rel_tol r) (normals r) st).2)
        st reqs.
End session.
End Session.

(** The elements of [l] in the order of their first occurrence. *)
Definition first_seen {X} `{EqDecision X} (l : list X) : list X :=
  foldl (λ acc x, if decide (x ∈ acc) then acc else acc ++ [x]) [] l.

(** The columns assigned in row [r], in the order of their first
    assignment. *)
Definition cols_of_row {A} (ops : list ((nat * nat) * list A)) (r : nat) : list nat :=
  first_seen (filter (λ op, op.1.1 = r) ops).*1.*2.

(** The columns of rows [0 .. k-1], by ascending row and, within a row, in
    the order of their first assignment. *)
Definition cols_upto {A} (ops : list ((nat * nat) * list A)) (k : nat) : list nat :=
  r ← seq 0 k; cols_of_row ops r.

(** The keys held by rows [0 .. k-1], by ascending row and, within a row,
    in the order of their first assignment. *)
Definition keys_upto {A} (ops : list ((nat * nat) * list A)) (k : nat)
  : list (nat * nat) :=
  r ← seq 0 k; (λ c, (r, c)) <$> cols_of_row ops r.

(** Keys listed row by row: for [p] in [0 .. n-1], the columns [f p] of
    row [p]. *)
Definition by_rows (n : nat) (f : nat → list nat) : list (nat * nat) :=
  p ← seq 0 n; (λ q, (p, q)) <$> f p.

(** ** Concrete inputs *)

(** Values that numpy stores as they are. *)
Definition demo_cast {A} (_ : np_dtype) (_ : list nat) (x : A) : string + A := inr x.

(** A small store used to exercise the statements below: three
    assignments into two rows, the row with the larger index first. *)
Definition demo_subs : list (np_dtype * option (list nat)) :=
  [(float64, Some [2]); (float64, None)].

Definition demo_ops : list ((nat * nat) * list nat) :=
  [((2, 1), [10; 11]); ((0, 3), [20; 21]); ((2, 0), [30; 31])].

(** The arrays [to_csr] returns for it. *)
Definition demo_out (ord : mem_order) : list (MultiSparse.csr_array nat) :=
  [MultiSparse.DataArray (NdArray float64 [3; 2] ord [Some 20; Some 10; Some 30]);
   MultiSparse.DataArray (NdArray float64 [3] ord [Some 21; Some 11; Some 31]);
   MultiSparse.IndexArray (NdArray int32 [3] ord [Some 3%Z; Some 1%Z; Some 0%Z]);
   MultiSparse.IndexArray
     (NdArray int32 [4] ord [Some 0%Z; Some 1%Z; Some 1%Z; Some 3%Z])].

(** A store with an item of one element for two declared sub-arrays, an
    assignment to a key already held, and the arrays [to_csr] returns. *)
Definition demo_short_subs : list (np_dtype * option (list nat)) :=
  [(float64, None); (float64, None)].

Definition demo_short_ops : list ((nat * nat) * list nat) :=
  [((1, 2), [5; 6]); ((0, 1), [7]); ((1, 2), [8; 9])].

Definition demo_short_out : list (MultiSparse.csr_array nat) :=
  [MultiSparse.DataArray (NdArray float64 [2] F_order [Some 7; Some 8]);
   MultiSparse.DataArray (NdArray float64 [2] F_order [None; Some 9]);
   MultiSparse.IndexArray (NdArray int32 [2] F_order [Some 1%Z; Some 2%Z]);
   MultiSparse.IndexArray (NdArray int32 [3] F_order [Some 0%Z; Some 1%Z; Some 2%Z])].

(** A mesh of two triangles sharing an edge and a third one apart.  The
    coordinates of a triangle are represented by its list of node indices,
    a kernel result by the number of the output and the two triangles it
    was computed for. *)
Definition demo_mesh : Singular.Mesh (NodeArray := unit) :=
  {| Singular.polygons := [[0; 1; 2]; [1; 2; 3]; [4; 5; 6]];
     Singular.nodes := tt;
     Singular.triangles_sharing_nodes := λ node,
       match node with
       | 0 => {[0]}
       | 1 | 2 => {[0; 1]}
       | 3 => {[1]}
       | _ => {[2]}
       end |}.

Definition demo_basis : Singular.LinearTriangleBasis (BasisId := nat) (NodeArray := unit) :=
  {| Singular.id := 7; Singular.mesh := demo_mesh |}.

Definition demo_kernel (src : list nat) (_ _ : unit) (obs : list nat) (_ : unit)
  : Singular.face_integrals (Terms := nat * list nat * list nat) :=
  {| Singular.res0 := (0, obs, src);
     Singular.res1 := (1, obs, src);
     Singular.res2 := (2, obs, src);
     Singular.res3 := (3, obs, src) |}.

Definition demo_take_nodes (_ : unit) (ns : list nat) : list nat := ns.

Definition demo_normal_at (_ : unit) (_ : nat) : unit := tt.

Definition demo_sha1 (_ : unit) : string := "da39a3ee".

(** A set of small integers is visited in ascending order. *)
Definition demo_set_iter (X : gset nat) : list nat := merge_sort le (elements X).

(** The function and its state on this mesh. *)
Definition demo_call :=
  Singular.singular_impedance_rwg (BasisId := nat) (Tol := Z)
    tt tt demo_kernel demo_take_nodes demo_normal_at demo_sha1 demo_set_iter
    demo_cast Numpy2.

Definition demo_state : Singular.state :=
  (demo_call (Singular.IsLinearTriangleBasis demo_basis) 2 1%Z tt
     Singular.initial_state).2.

(** The stores the loop builds on this mesh. *)
Definition demo_stores : Singular.stores :=
  Loop.stores_after tt tt demo_kernel demo_take_nodes demo_normal_at demo_mesh tt 2
    (Singular.visits demo_set_iter demo_mesh).

(** A mode set over Gaussian integers: eigenvectors are lists of them,
    and two frequencies are close when both coordinates differ by at most
    one. *)
Definition zconj (c : Z * Z) : Z * Z := (c.1, (- c.2)%Z).

Definition zconj_vec (v : list (Z * Z)) : list (Z * Z) := zconj <$> v.

Definition zclose (a b : Z * Z) : bool :=
  bool_decide ((Z.abs (a.1 - b.1) ≤ 1)%Z ∧ (Z.abs (a.2 - b.2) ≤ 1)%Z).

Definition demo_modes : list (Modes.mode (Z * Z) (list (Z * Z))) :=
  [Modes.Mode (-1, 5)%Z [(1, 0)%Z] [(1, 0)%Z];
   Modes.Mode (-2, 0)%Z [(0, 1)%Z] [(0, 1)%Z];
   Modes.Mode (-1, -5)%Z [(1, 0)%Z] [(1, 0)%Z];
   Modes.Mode (-3, 9)%Z [(2, 2)%Z] [(2, -2)%Z]].

(** ** Further concrete inputs *)

(** A basis on a mesh made of a single triangle. *)
Definition demo_single_basis
  : Singular.LinearTriangleBasis (BasisId := nat) (NodeArray := unit) :=
  {| Singular.id := 8;
     Singular.mesh := {| Singular.polygons := [[0; 1; 2]];
                         Singular.nodes := tt;
                         Singular.triangles_sharing_nodes := λ _, {[0]} |} |}.

(** The state after the failed call on that basis. *)
Definition demo_failed_state : Singular.state :=
  (demo_call (Singular.IsLinearTriangleBasis demo_single_basis) 2 1%Z tt
     Singular.initial_state).2.

(** The state after a first call with another tolerance. *)
Definition demo_state_other_tol : Singular.state :=
  (demo_call (Singular.IsLinearTriangleBasis demo_basis) 2 5%Z tt
     Singular.initial_state).2.

(** * Facts *)

(** ** Facts about dictionaries *)

Section pydict_facts.
Context {K V : Type} `{EqDecision K}.
Implicit Types (d : list (K * V)) (k : K) (v : V).

Lemma get_set_eq d k v : PyDict.get (PyDict.set d k v) k = Some v.
Proof.
    induction d as [|[k' v'] d IH]; simpl.
    - by rewrite decide_True.
    - destruct (decide (k = k')) as [->|Hne]; simpl.
      + by rewrite decide_True.
      + by rewrite decide_False.
Qed.

Lemma get_set_ne d k k' v :
    k ≠ k' → PyDict.get (PyDict.set d k v) k' = PyDict.get d k'.
Proof.
    intros Hne. induction d as [|[k0 v0] d IH]; simpl.
    - by rewrite decide_False.
    - destruct (decide (k = k0)) as [->|Hne0]; simpl.
      + by rewrite !(decide_False (P := k' = k0)).
      + by rewrite IH.
Qed.

Lemma get_None d k : PyDict.get d k = None ↔ k ∉ PyDict.keys d.
Proof.
    unfold PyDict.keys. induction d as [|[k' v'] d IH]; csimpl.
    - split; [intros _; apply not_elem_of_nil | done].
    - rewrite not_elem_of_cons. destruct (decide (k = k')) as [->|Hne].
      + split; [done|]. by intros [? _].
      + rewrite IH. split; [done|]. by intros [_ ?].
Qed.

Lemma get_Some_elem_of d k v : PyDict.get d k = Some v → (k, v) ∈ d.
Proof.
    induction d as [|[k' v'] d IH]; simpl; [done|].
    destruct (decide (k = k')) as [->|]; intros Hg.
    - injection Hg as ->. apply elem_of_cons; by left.
    - apply elem_of_cons; right. by apply IH.
Qed.

Lemma elem_of_get d k v :
    NoDup (PyDict.keys d) → (k, v) ∈ d → PyDict.get d k = Some v.
Proof.
    unfold PyDict.keys. induction d as [|[k' v'] d IH]; csimpl.
    - intros _ Hin. by apply elem_of_nil in Hin.
    - intros [Hnin Hnd]%NoDup_cons [Heq|Hin]%elem_of_cons.
      + injection Heq as -> ->. by rewrite decide_True.
      + rewrite decide_False; [by apply IH|].
        intros ->. apply Hnin. apply list_elem_of_fmap. by exists (k', v).
Qed.

Lemma keys_set d k v :
    PyDict.keys (PyDict.set d k v) =
      match PyDict.get d k with
      | Some _ => PyDict.keys d
      | None => PyDict.keys d ++ [k]
      end.
Proof.
    unfold PyDict.keys. induction d as [|[k' v'] d IH]; csimpl; [done|].
    destruct (decide (k = k')) as [->|]; csimpl; [done|].
    rewrite IH. by destruct (PyDict.get d k).
Qed.

Lemma NoDup_keys_set d k v :
    NoDup (PyDict.keys d) → NoDup (PyDict.keys (PyDict.set d k v)).
Proof.
    intros Hnd. rewrite keys_set.
    destruct (PyDict.get d k) eqn:Hg; [done|].
    apply NoDup_app. split_and!; [done| |apply NoDup_singleton].
    intros x Hx ->%list_elem_of_singleton. by apply get_None in Hg.
Qed.

Lemma set_nonempty d k v : PyDict.set d k v ≠ [].
Proof. destruct d as [|[k' v'] d]; simpl; [done|]. by case_decide. Qed.

Lemma elem_of_set d k v k' v' :
    (k', v') ∈ PyDict.set d k v → (k' = k ∧ v' = v) ∨ (k', v') ∈ d.
Proof.
    induction d as [|[k0 v0] d IH]; simpl.
    - intros Heq%list_elem_of_singleton. injection Heq as -> ->. by left.
    - destruct (decide (k = k0)) as [->|].
      + intros [Heq|?]%elem_of_cons.
        * injection Heq as -> ->. by left.
        * right. apply elem_of_cons. by right.
      + intros [Heq|?]%elem_of_cons.
        * right. apply elem_of_cons. by left.
        * destruct IH as [?|?]; [done|by left|].
          right. apply elem_of_cons. by right.
Qed.
End pydict_facts.

(** ** Facts about loops that may raise *)

Section res_facts.
Context {X Y : Type}.
Implicit Types (f : X → res Y) (l : list X).

Lemma map_res_app f l1 l2 :
  map_res f (l1 ++ l2)
  = ys1 ←! map_res f l1; ys2 ←! map_res f l2; ret (ys1 ++ ys2).
Proof.
  induction l1 as [|x l1 IH]; simpl.
  - by destruct (map_res f l2).
  - destruct (f x); simpl; [done|]. rewrite IH.
    destruct (map_res f l1); simpl; [done|]. by destruct (map_res f l2).
Qed.

Lemma map_res_inr f l ys :
  map_res f l = inr ys ↔ Forall2 (λ x y, f x = inr y) l ys.
Proof.
  revert ys. induction l as [|x l IH]; intros ys; simpl.
  - split; [intros [= <-]; constructor|by intros ->%Forall2_nil_inv_l].
  - split.
    + destruct (f x) as [e|y] eqn:Hx; simpl; [done|].
      destruct (map_res f l) as [e|ys'] eqn:Hl; simpl; [done|].
      intros [= <-]. constructor; [done|]. by apply IH.
    + intros (y & ys' & Hy & Hys & ->)%Forall2_cons_inv_l.
      rewrite Hy. simpl. apply IH in Hys. by rewrite Hys.
Qed.

Lemma map_res_length f l ys : map_res f l = inr ys → length ys = length l.
Proof. intros Hl%map_res_inr. symmetry. by eapply Forall2_length. Qed.

Lemma map_res_error (P : exn → Prop) f l e :
  (∀ x e, x ∈ l → f x = inl e → P e) → map_res f l = inl e → P e.
Proof.
  induction l as [|x l IH]; simpl; [done|]. intros HP.
  destruct (f x) as [e'|y] eqn:Hx; simpl.
  - intros [= <-]. eapply HP; [|done]. by left.
  - destruct (map_res f l) as [e'|ys] eqn:Hl; simpl; [|done].
    intros [= <-]. apply IH; [|done]. intros x' e0 Hin. apply HP. by right.
Qed.

Lemma map_res_is_inr f l :
  (∃ ys, map_res f l = inr ys) ↔ Forall (λ x, ∃ y, f x = inr y) l.
Proof.
  induction l as [|x l IH]; simpl.
  - split; [constructor|by eexists].
  - rewrite Forall_cons, <- IH. split.
    + intros [ys Hys]. destruct (f x) as [e|y]; simpl in *; [done|].
      destruct (map_res f l) as [e|ys']; simpl in *; [done|].
      split; by eexists.
    + intros [[y ->] [ys ->]]. by eexists.
Qed.

Lemma map_res_first (e0 : exn) f l :
  Forall (λ x, (∃ y, f x = inr y) ∨ f x = inl e0) l →
  Exists (λ x, f x = inl e0) l →
  map_res f l = inl e0.
Proof.
  induction l as [|x l IH]; intros Hall Hex; [by apply Exists_nil in Hex|].
  apply Forall_cons in Hall as [Hx Hall]. simpl.
  destruct Hx as [[y Hy]|Hx]; [|by rewrite Hx].
  apply Exists_cons in Hex as [Hex|Hex]; [congruence|].
  rewrite Hy. simpl. by rewrite IH.
Qed.

Lemma for_each_error {S} (P : exn → Prop) (body : S → X → res S) s l e :
  (∀ s x e, body s x = inl e → P e) → for_each body s l = inl e → P e.
Proof.
  intros HP. revert s. induction l as [|x l IH]; intros s; simpl; [done|].
  destruct (body s x) as [e'|s'] eqn:Hx; simpl.
  - intros [= <-]. by eapply HP.
  - apply IH.
Qed.
End res_facts.

Section counting_facts.
Context {S X : Type}.
Implicit Types (body : S → X → res S * nat) (l : list X).

Lemma for_each_counting_app body s l1 l2 :
  for_each_counting body s (l1 ++ l2)
  = match for_each_counting body s l1 with
    | (inl e, c) => (inl e, c)
    | (inr s', c) => let '(r, c') := for_each_counting body s' l2 in (r, c + c')
    end.
Proof.
  revert s. induction l1 as [|x l1 IH]; intros s; simpl.
  - by destruct (for_each_counting body s l2).
  - destruct (body s x) as [[e|s1] c]; [done|]. rewrite IH.
    destruct (for_each_counting body s1 l1) as [[e|s2] c1]; [done|].
    destruct (for_each_counting body s2 l2) as [r c2]. by rewrite Nat.add_assoc.
Qed.

Lemma for_each_counting_snoc body s l x :
  for_each_counting body s (l ++ [x])
  = match for_each_counting body s l with
    | (inl e, c) => (inl e, c)
    | (inr s', c) => let '(r, c') := body s' x in (r, c + c')
    end.
Proof.
  rewrite for_each_counting_app.
  destruct (for_each_counting body s l) as [[e|s'] c]; [done|]. simpl.
  destruct (body s' x) as [[e|s''] c']; [done|]. by rewrite Nat.add_0_r.
Qed.

Lemma for_each_counting_ext body body' s l :
  (∀ s x, x ∈ l → body s x = body' s x) →
  for_each_counting body s l = for_each_counting body' s l.
Proof.
  revert s. induction l as [|x l IH]; intros s Hext; simpl; [done|].
  rewrite <- Hext by by left.
  destruct (body s x) as [[e|s'] c]; [done|].
  rewrite IH; [done|]. intros s'' x' Hin. apply Hext. by right.
Qed.

Lemma for_each_counting_bind {X'} body (g : X' → list X) s (l : list X') :
  for_each_counting body s (l ≫= g)
  = for_each_counting (λ s x, for_each_counting body s (g x)) s l.
Proof.
  revert s. induction l as [|x l IH]; intros s; csimpl; [done|].
  rewrite for_each_counting_app.
  destruct (for_each_counting body s (g x)) as [[e|s'] c]; [done|].
  by rewrite IH.
Qed.

Lemma for_each_counting_fmap {X'} body (h : X' → X) s (l : list X') :
  for_each_counting body s (h <$> l)
  = for_each_counting (λ s x, body s (h x)) s l.
Proof.
  revert s. induction l as [|x l IH]; intros s; csimpl; [done|].
  destruct (body s (h x)) as [[e|s'] c]; [done|]. by rewrite IH.
Qed.

Lemma for_each_counting_error (P : exn → Prop) body s l e c :
  (∀ s x e c, body s x = (inl e, c) → P e) →
  for_each_counting body s l = (inl e, c) → P e.
Proof.
  intros HP. revert s c. induction l as [|x l IH]; intros s c; simpl; [done|].
  destruct (body s x) as [[e'|s'] c'] eqn:Hx.
  - intros [= <- <-]. by eapply HP.
  - destruct (for_each_counting body s' l) as [r c''] eqn:Hl.
    intros [= -> <-]. by eapply IH.
Qed.
End counting_facts.

(** ** Facts about the [int32] arrays *)

Lemma int32_of_int_small z : (- 2 ^ 31 ≤ z < 2 ^ 31)%Z → int32_of_int z = z.
Proof. intros. unfold int32_of_int. rewrite Z.mod_small; lia. Qed.

Lemma int32_cast_inr numpy z v : int32_cast numpy z = inr v → v = int32_of_int z.
Proof.
  unfold int32_cast. case_decide.
  - intros [= <-]. by rewrite int32_of_int_small.
  - destruct numpy; [|done]. case_decide; [|done]. by intros [= <-].
Qed.

Lemma int32_cast_small numpy z : (0 ≤ z < 2 ^ 31)%Z → int32_cast numpy z = inr z.
Proof. intros. unfold int32_cast. rewrite decide_True; [done|lia]. Qed.

Lemma int32_cast_storable numpy z :
  (∃ v, int32_cast numpy z = inr v) ↔ int32_storable numpy z.
Proof.
  unfold int32_cast, int32_storable. case_decide.
  - split; [by left|by eexists].
  - destruct numpy.
    + case_decide.
      * split; [by right|by eexists].
      * split; [by intros [? [=]]|]. intros [?|[_ ?]]; done.
    + split; [by intros [? [=]]|]. intros [?|[? _]]; done.
Qed.

Lemma int32_storable_le numpy a b :
  (0 ≤ a ≤ b)%Z → int32_storable numpy b → int32_storable numpy a.
Proof.
  unfold int32_storable. intros Hab [Hb|[-> Hb]].
  - left. lia.
  - right. split; [done|lia].
Qed.

Lemma element_error_loop e : element_error e → loop_error e.
Proof. by destruct e. Qed.

Lemma int32_cast_error numpy z e : int32_cast numpy z = inl e → element_error e.
Proof.
  unfold int32_cast. case_decide; [done|].
  destruct numpy; [case_decide; [done|]|]; by intros [= <-].
Qed.

Lemma np_array_int32_inr numpy l ord a :
  np_array_int32 numpy l ord = inr a → a = int32_array l ord.
Proof.
  unfold np_array_int32, int32_array.
  destruct (map_res (λ n, int32_cast numpy (Z.of_nat n)) l) as [e|cs] eqn:Hcs; [done|].
  simpl. intros [= <-]. f_equal. apply map_res_inr in Hcs.
  induction Hcs as [|n c l cs Hc _ IH]; [done|]. csimpl.
  apply int32_cast_inr in Hc as ->. by rewrite IH.
Qed.

Lemma np_array_int32_storable numpy l ord :
  (∃ a, np_array_int32 numpy l ord = inr a)
  ↔ Forall (λ n, int32_storable numpy (Z.of_nat n)) l.
Proof.
  unfold np_array_int32.
  rewrite <- (Forall_iff (λ n, ∃ v, int32_cast numpy (Z.of_nat n) = inr v))
    by (intros n; apply int32_cast_storable).
  rewrite <- map_res_is_inr. split.
  - intros [a Ha].
    destruct (map_res (λ n, int32_cast numpy (Z.of_nat n)) l); [done|by eexists].
  - intros [cs ->]. by eexists.
Qed.

Lemma np_array_int32_error numpy l ord e :
  np_array_int32 numpy l ord = inl e → element_error e.
Proof.
  unfold np_array_int32.
  destruct (map_res (λ n, int32_cast numpy (Z.of_nat n)) l) as [e'|cs] eqn:Hcs; [|done].
  simpl. intros [= <-]. eapply (map_res_error element_error); [|exact Hcs].
  intros n e0 _. apply int32_cast_error.
Qed.

(** ** The conversion loop, entry by entry *)

Section csr_facts.
Context {A : Type}.
Context (np_cast : np_dtype → list nat → A → string + A).
Context (numpy : numpy_version).
Implicit Types (rws : list (nat * list (nat * list A))).
Implicit Types (w d : list (nat * list A)).
Implicit Types (subs : list (np_dtype * option (list nat))).

Local Abbreviation cast_elems := (Conv.cast_elems np_cast).
Local Abbreviation cast_entry := (Conv.cast_entry np_cast numpy).
Local Abbreviation store_item := (MultiSparse.store_item np_cast).
Local Abbreviation emit_entry := (MultiSparse.emit_entry np_cast numpy).
Local Abbreviation emit_row := (MultiSparse.emit_row np_cast numpy).
Local Abbreviation to_csr := (MultiSparse.to_csr np_cast numpy).
Local Abbreviation csr_of := (Conv.csr_of np_cast numpy).

Lemma length_idx_cells N w : length w ≤ N → length (idx_cells N w) = N.
Proof.
  intros. unfold idx_cells.
  rewrite length_app, length_fmap, length_replicate. lia.
Qed.

Lemma length_dat_cells N j w : length w ≤ N → length (dat_cells N j w) = N.
Proof.
  intros. unfold dat_cells.
  rewrite length_app, length_fmap, length_replicate. lia.
Qed.

Lemma insert_written {T X} (f : X → option T) (N : nat) (l : list X) (x : X) (v : T) :
  length l < N → f x = Some v →
  <[length l := Some v]> ((f <$> l) ++ replicate (N - length l) None)
  = (f <$> (l ++ [x])) ++ replicate (N - length (l ++ [x])) None.
Proof.
  intros Hlt Hf.
  rewrite length_app. simpl.
  replace (N - length l) with (S (N - (length l + 1))) by lia.
  rewrite insert_app_r_alt by (rewrite length_fmap; lia).
  rewrite length_fmap, Nat.sub_diag. simpl.
  rewrite fmap_app. simpl. rewrite Hf. by rewrite <- app_assoc.
Qed.

Lemma dat_cells_snoc_None N j w ci :
  length w < N → ci.2 !! j = None →
  dat_cells N j (w ++ [ci]) = dat_cells N j w.
Proof.
  intros Hlt Hn. unfold dat_cells.
  rewrite length_app. simpl.
  replace (N - length w) with (S (N - (length w + 1))) by lia.
  rewrite fmap_app. simpl. rewrite Hn. by rewrite <- app_assoc.
Qed.

Lemma dat_cells_snoc_ext N j w ci ci' :
  ci.2 !! j = ci'.2 !! j → dat_cells N j (w ++ [ci]) = dat_cells N j (w ++ [ci']).
Proof.
  intros Heq. unfold dat_cells. rewrite !fmap_app, !length_app. simpl.
  by rewrite Heq.
Qed.

Lemma das_mix_0 subs ord N w ci : das_mix subs ord N w ci 0 = das_of subs ord N w.
Proof. unfold das_mix, das_of. apply imap_ext. intros j sub _. simpl. done. Qed.

Lemma das_mix_full subs ord N w ci sc :
  length w < N → length ci.2 ≤ sc →
  das_mix subs ord N w ci sc = das_of subs ord N (w ++ [ci]).
Proof.
  intros Hlt Hsc. unfold das_mix, das_of. apply imap_ext. intros j sub _. simpl.
  case_decide; [done|].
  rewrite dat_cells_snoc_None; [done|done|].
  apply lookup_ge_None. lia.
Qed.

(** One assignment of [store_item]: array [sc] receives the converted
    element [v]. *)
Lemma das_mix_step subs ord N w c (vs : list A) v sub :
  length w < N → subs !! length vs = Some sub →
  <[length vs := NdArray (dtype (MultiSparse.alloc_data (A := A) N ord sub))
                   (shape (MultiSparse.alloc_data (A := A) N ord sub))
                   (order (MultiSparse.alloc_data (A := A) N ord sub))
                   (<[length w := Some v]> (dat_cells N (length vs) w))]>
    (das_mix subs ord N w (c, vs) (length vs))
  = das_mix subs ord N w (c, vs ++ [v]) (S (length vs)).
Proof.
  intros Hlt Hsub. unfold das_mix. apply list_eq. intros j.
  destruct (decide (j = length vs)) as [->|Hne].
  - rewrite list_lookup_insert_eq
      by (rewrite length_imap; by eapply lookup_lt_Some).
    rewrite list_lookup_imap, Hsub. simpl. rewrite decide_True by lia.
    unfold with_cells. simpl. do 2 f_equal. unfold dat_cells.
    apply (insert_written (λ ci : nat * list A, ci.2 !! length vs)); [done|].
    simpl. by rewrite lookup_app_r, Nat.sub_diag by lia.
  - rewrite list_lookup_insert_ne by done.
    rewrite !list_lookup_imap. destruct (subs !! j); [|done]. simpl.
    do 3 f_equal. repeat case_decide; try done; try lia.
    apply dat_cells_snoc_ext. simpl. by rewrite lookup_app_l by lia.
Qed.

Lemma store_item_spec subs ord N w c (it vs0 : list A) :
  length w < N →
  store_item (das_mix subs ord N w (c, vs0) (length vs0)) (length w) (length vs0) it
  = vs ←! cast_elems subs (length vs0) it;
    ret (das_mix subs ord N w (c, vs0 ++ vs) (length (vs0 ++ vs))).
Proof.
  intros Hlt. revert vs0. induction it as [|x it IH]; intros vs0; simpl.
  - by rewrite app_nil_r.
  - unfold das_mix at 1. rewrite list_lookup_imap.
    destruct (subs !! length vs0) as [sub|] eqn:Hsub; simpl; [|done].
    rewrite decide_False by lia.
    unfold np_setitem, with_cells. cbn [cells dtype shape order].
    rewrite length_dat_cells by lia. rewrite decide_True by done.
    assert (Hdt : dtype (MultiSparse.alloc_data (A := A) N ord sub) = sub.1
                  ∧ tail (shape (MultiSparse.alloc_data (A := A) N ord sub))
                    = default [] sub.2).
    { unfold MultiSparse.alloc_data. by destruct sub as [dt [sh|]]. }
    destruct Hdt as [Hdt Hsh].
    replace (np_convert np_cast (dtype (MultiSparse.alloc_data (A := A) N ord sub))
               (tail (shape (MultiSparse.alloc_data (A := A) N ord sub))) x)
      with (np_convert np_cast sub.1 (default [] sub.2) x) by (by rewrite Hdt, Hsh).
    destruct (np_convert np_cast sub.1 (default [] sub.2) x) as [e|v]; [done|].
    cbn [bind ret].
    rewrite das_mix_step by done.
    replace (S (length vs0)) with (length (vs0 ++ [v]))
      by (rewrite length_app; simpl; lia).
    rewrite IH.
    destruct (cast_elems subs (length (vs0 ++ [v])) it) as [e|vs]; [done|].
    cbn [bind ret]. by rewrite <- app_assoc.
Qed.

Lemma emit_entry_spec subs ord N w ptr ci :
  length w < N →
  emit_entry (state_of subs ord N w ptr) ci
  = ci' ←! cast_entry subs ci; ret (state_of subs ord N (w ++ [ci']) ptr).
Proof.
  intros Hlt. unfold MultiSparse.emit_entry, Conv.cast_entry, state_of.
  cbn [MultiSparse.data_arrays MultiSparse.data_index MultiSparse.indices
       MultiSparse.indptr].
  rewrite <- (das_mix_0 _ _ _ _ (ci.1, [])).
  pose proof (store_item_spec subs ord N w ci.1 ci.2 [] Hlt) as Hs.
  cbn [length app] in Hs. rewrite Hs.
  destruct (cast_elems subs 0 ci.2) as [e|vs]; [done|]. cbn [bind ret].
  rewrite das_mix_full by (done || (simpl; lia)).
  unfold np_setitem. cbn [cells dtype shape order].
  rewrite length_idx_cells by lia. rewrite decide_True by done.
  destruct (int32_cast numpy (Z.of_nat ci.1)) as [e|v] eqn:Hc; [done|].
  cbn [bind ret]. apply int32_cast_inr in Hc as ->.
  unfold ret. do 2 f_equal.
  - f_equal. unfold idx_cells.
    by apply (insert_written (λ ci : nat * list A, Some (int32_of_int (Z.of_nat ci.1)))).
  - rewrite length_app. simpl. lia.
Qed.

Lemma for_each_emit_entry subs ord N ptr d w :
  length w + length d ≤ N →
  for_each emit_entry (state_of subs ord N w ptr) d
  = d' ←! map_res (cast_entry subs) d; ret (state_of subs ord N (w ++ d') ptr).
Proof.
  revert w. induction d as [|ci d IH]; intros w Hlen; simpl.
  - by rewrite app_nil_r.
  - simpl in Hlen. rewrite emit_entry_spec by lia.
    destruct (cast_entry subs ci) as [e|ci']; [done|]. cbn [bind ret].
    rewrite IH by (rewrite length_app; simpl; lia).
    destruct (map_res (cast_entry subs) d) as [e|d']; [done|]. cbn [bind ret].
    by rewrite <- app_assoc.
Qed.

Lemma emit_row_spec subs ord N rws ptr w r :
  length w + length (row_entries rws r) ≤ N →
  emit_row rws (state_of subs ord N w ptr) r
  = d' ←! map_res (cast_entry subs) (row_entries rws r);
    ret (state_of subs ord N (w ++ d') (ptr ++ [length (w ++ d')])).
Proof.
  unfold MultiSparse.emit_row, row_entries.
  destruct (PyDict.get rws r) as [d|]; intros Hlen.
  - simpl in Hlen. rewrite for_each_emit_entry by done. cbn [default from_option id].
    by destruct (map_res (cast_entry subs) d).
  - simpl. by rewrite app_nil_r.
Qed.

Lemma entries_upto_S rws n :
  entries_upto rws (S n) = entries_upto rws n ++ row_entries rws n.
Proof.
  unfold entries_upto. rewrite seq_S, bind_app. simpl. by rewrite app_nil_r.
Qed.

Lemma ptr_upto_S rws n :
  ptr_upto rws (S n) = ptr_upto rws n ++ [length (entries_upto rws (S n))].
Proof. unfold ptr_upto. by rewrite (seq_S (S n)), fmap_app. Qed.

Lemma length_entries_upto_mono rws n k :
  n ≤ k → length (entries_upto rws n) ≤ length (entries_upto rws k).
Proof.
  induction 1 as [|k _ IH]; [done|].
  rewrite entries_upto_S, length_app. lia.
Qed.

Lemma elem_of_entries_upto rws n ci :
  ci ∈ entries_upto rws n ↔ ∃ r, r < n ∧ ci ∈ row_entries rws r.
Proof.
  unfold entries_upto. rewrite list_elem_of_bind. split.
  - intros (r & Hci & Hr%elem_of_seq). exists r. split; [lia|done].
  - intros (r & Hr & Hci). exists r. split; [done|]. apply elem_of_seq. lia.
Qed.

Lemma for_each_emit_row subs ord N rws n a es :
  length es = length (entries_upto rws a) →
  length (entries_upto rws (a + n)) ≤ N →
  for_each (emit_row rws) (state_of subs ord N es (ptr_upto rws a)) (seq a n)
  = es' ←! map_res (cast_entry subs) (r ← seq a n; row_entries rws r);
    ret (state_of subs ord N (es ++ es') (ptr_upto rws (a + n))).
Proof.
  revert a es. induction n as [|n IH]; intros a es Hes Hlen; cbn [seq for_each].
  - simpl. by rewrite Nat.add_0_r, app_nil_r.
  - assert (Hle : length (entries_upto rws (S a)) ≤ N).
    { etrans; [|exact Hlen]. apply length_entries_upto_mono. lia. }
    rewrite entries_upto_S, length_app in Hle.
    rewrite emit_row_spec by lia. rewrite bind_cons, map_res_app.
    destruct (map_res (cast_entry subs) (row_entries rws a)) as [e|d'] eqn:Hd;
      [done|]. cbn [bind ret].
    assert (Hlen' : length (es ++ d') = length (entries_upto rws (S a))).
    { rewrite entries_upto_S, !length_app, Hes. f_equal. by eapply map_res_length. }
    rewrite Hlen', <- ptr_upto_S.
    replace (a + S n) with (S a + n) in * by lia.
    rewrite IH by done.
    destruct (map_res (cast_entry subs) (r ← seq (S a) n; row_entries rws r))
      as [e|es']; [done|]. cbn [bind ret]. by rewrite <- app_assoc.
Qed.

Lemma state_of_0 subs ord N rws :
  MultiSparse.CsrState (MultiSparse.alloc_data (A := A) N ord <$> subs)
    (np_empty [N] int32 ord) [0] 0
  = state_of subs ord N [] (ptr_upto rws 0).
Proof.
  unfold state_of, ptr_upto, entries_upto. simpl.
  f_equal.
  - unfold das_of. rewrite <- imap_const. apply imap_ext.
    intros j [dt [sh|]] _; simpl.
    all: unfold MultiSparse.alloc_data, np_empty, with_cells, dat_cells; simpl.
    all: by rewrite Nat.sub_0_r.
  - unfold np_empty, idx_cells. simpl. by rewrite Nat.sub_0_r.
Qed.

Lemma keyed_upto_S rws n :
  keyed_upto rws (S n)
  = keyed_upto rws n ++ ((λ ci : nat * list A, ((n, ci.1), ci.2)) <$> row_entries rws n).
Proof.
  unfold keyed_upto. rewrite seq_S, bind_app. simpl. by rewrite app_nil_r.
Qed.

Lemma keyed_upto_entries rws n :
  (λ e : (nat * nat) * list A, (e.1.2, e.2)) <$> keyed_upto rws n = entries_upto rws n.
Proof.
  induction n as [|n IH]; [done|].
  rewrite keyed_upto_S, entries_upto_S, fmap_app, IH. f_equal.
  rewrite <- list_fmap_compose. rewrite <- (list_fmap_id (row_entries rws n)) at 2.
  apply list_fmap_ext. by intros _ [c it] _.
Qed.

Lemma keyed_upto_cons rws k d n :
  PyDict.get rws k = None →
  keyed_upto ((k, d) :: rws) n
  ≡ₚ (if decide (k < n) then (λ ci : nat * list A, ((k, ci.1), ci.2)) <$> d else [])
      ++ keyed_upto rws n.
Proof.
  intros Hk. induction n as [|n IH].
  - by rewrite decide_False by lia.
  - rewrite !keyed_upto_S, IH. unfold row_entries at 1. simpl.
    destruct (decide (n = k)) as [->|Hne]; simpl.
    + rewrite decide_False, decide_True by lia. simpl.
      unfold row_entries. rewrite Hk. simpl. rewrite app_nil_r.
      apply Permutation_app_comm.
    + fold (row_entries rws n).
      destruct (decide (k < n)); [rewrite decide_True by lia|rewrite decide_False by lia].
      * by rewrite app_assoc.
      * done.
Qed.

Lemma keyed_upto_items (m : MultiSparse.t A) n :
  NoDup (PyDict.keys (MultiSparse.rows m)) →
  (∀ k, k ∈ PyDict.keys (MultiSparse.rows m) → k < n) →
  keyed_upto (MultiSparse.rows m) n ≡ₚ MultiSparse.items m.
Proof.
  unfold MultiSparse.items. generalize (MultiSparse.rows m). clear m.
  unfold PyDict.keys. intros rws. induction rws as [|[k d] rws IH]; csimpl.
  - intros _ _. induction n as [|n IHn]; [done|].
    rewrite keyed_upto_S, IHn. done.
  - intros [Hnin Hnd]%NoDup_cons Hlt.
    rewrite keyed_upto_cons by by apply get_None.
    rewrite decide_True by (apply Hlt, elem_of_cons; by left).
    f_equiv. apply IH; [done|]. intros k' Hk'. apply Hlt, elem_of_cons. by right.
Qed.

Lemma len_items (m : MultiSparse.t A) : MultiSparse.len m = length (MultiSparse.items m).
Proof.
  unfold MultiSparse.len, MultiSparse.items.
  induction (MultiSparse.rows m) as [|rd rws IH]; csimpl; [done|].
  by rewrite length_app, length_fmap, IH.
Qed.

Lemma max_key_spec rws :
  rws ≠ [] →
  MultiSparse.max_key rws = inr (max_list (PyDict.keys rws)).
Proof. by destruct rws. Qed.

Lemma keys_lt_num_rows rws k : k ∈ PyDict.keys rws → k < num_rows_of rws.
Proof. intros Hk%max_list_elem_of_le. unfold num_rows_of. lia. Qed.

Lemma length_entries_upto (m : MultiSparse.t A) :
  store_ok m →
  length (entries_upto (MultiSparse.rows m) (num_rows_of (MultiSparse.rows m)))
  = MultiSparse.len m.
Proof.
  intros [Hnd _]. rewrite len_items, <- keyed_upto_entries, length_fmap.
  apply Permutation_length, keyed_upto_items; [done|].
  apply keys_lt_num_rows.
Qed.


Lemma to_csr_spec (m : MultiSparse.t A) ord :
  store_ok m →
  MultiSparse.rows m ≠ [] →
  to_csr m ord = csr_of m ord.
Proof.
  intros Hok Hne. unfold MultiSparse.to_csr, Conv.csr_of.
  rewrite max_key_spec by done. cbn [bind].
  rewrite Nat.add_1_r. rewrite (state_of_0 _ _ _ (MultiSparse.rows m)).
  fold (num_rows_of (MultiSparse.rows m)).
  rewrite (for_each_emit_row _ _ _ _ _ 0)
    by (done || (cbn [Nat.add]; by rewrite length_entries_upto)).
  fold (entries_upto (MultiSparse.rows m) (num_rows_of (MultiSparse.rows m))).
  destruct (map_res (cast_entry (MultiSparse.subarrays m))
              (entries_upto (MultiSparse.rows m) (num_rows_of (MultiSparse.rows m))))
    as [e|es]; [done|].
  cbn [bind ret app Nat.add]. unfold state_of.
  cbn [MultiSparse.indptr MultiSparse.data_arrays MultiSparse.indices].
  destruct (np_array_int32 numpy
              (ptr_upto (MultiSparse.rows m) (num_rows_of (MultiSparse.rows m))) ord)
    as [e|ptr] eqn:Hp; [done|].
  apply np_array_int32_inr in Hp as ->. done.
Qed.

(** *** The conversions of one entry *)

Lemma cast_elems_length subs sc it vs :
  cast_elems subs sc it = inr vs → length vs = length it.
Proof.
  revert sc vs. induction it as [|x it IH]; intros sc vs; simpl.
  - by intros [= <-].
  - destruct (subs !! sc) as [sub|]; [|done].
    destruct (np_convert np_cast sub.1 (default [] sub.2) x) as [e|v]; [done|].
    cbn [bind]. destruct (cast_elems subs (S sc) it) as [e|vs'] eqn:Hit; [done|].
    intros [= <-]. simpl. f_equal. by eapply IH.
Qed.

Lemma np_convert_inr dt sh (x v : A) :
  np_convert np_cast dt sh x = inr v ↔ np_cast dt sh x = inr v.
Proof.
  unfold np_convert. destruct (np_cast dt sh x); [done|].
  split; by intros [= ->].
Qed.

Lemma cast_elems_inr subs sc it vs :
  cast_elems subs sc it = inr vs ↔
  Forall2 (λ x v, True) it vs
  ∧ ∀ j x, it !! j = Some x →
           ∃ sub v, subs !! (sc + j) = Some sub
                    ∧ np_cast sub.1 (default [] sub.2) x = inr v
                    ∧ vs !! j = Some v.
Proof.
  revert sc vs. induction it as [|x it IH]; intros sc vs; simpl.
  - split.
    + intros [= <-]. split; [constructor|]. by intros j x [=].
    + intros [->%Forall2_nil_inv_l _]. done.
  - split.
    + destruct (subs !! sc) as [sub|] eqn:Hsub; [|done].
      destruct (np_convert np_cast sub.1 (default [] sub.2) x) as [e|v] eqn:Hv; [done|].
      cbn [bind]. destruct (cast_elems subs (S sc) it) as [e|vs'] eqn:Hit; [done|].
      intros [= <-]. apply IH in Hit as [Hlen Hit]. split; [by constructor|].
      intros [|j] y; simpl.
      * intros [= <-]. exists sub, v. rewrite Nat.add_0_r.
        split_and!; [done| |done]. by apply np_convert_inr.
      * intros Hy. destruct (Hit j y Hy) as (sub' & v' & Hs & Hc & Hj).
        exists sub', v'. split_and!; [|done|done].
        by replace (sc + S j) with (S sc + j) by lia.
    + intros [(v & vs' & _ & Hlen & ->)%Forall2_cons_inv_l Hall].
      destruct (Hall 0 x eq_refl) as (sub & v' & Hsub & Hc & Hv).
      rewrite Nat.add_0_r in Hsub. simpl in Hv. injection Hv as ->.
      rewrite Hsub. apply np_convert_inr in Hc. rewrite Hc. cbn [bind].
      assert (Hit : cast_elems subs (S sc) it = inr vs').
      { apply IH. split; [done|]. intros j y Hy.
        destruct (Hall (S j) y Hy) as (sub' & v'' & Hs & Hc' & Hj).
        exists sub', v''. split_and!; [|done|done].
        by replace (S sc + j) with (sc + S j) by lia. }
      by rewrite Hit.
Qed.

Lemma cast_elems_stored subs it vs j sub :
  cast_elems subs 0 it = inr vs →
  subs !! j = Some sub →
  vs !! j = it !! j ≫= np_stored np_cast sub.
Proof.
  intros [Hlen Hall]%cast_elems_inr Hsub.
  destruct (it !! j) as [x|] eqn:Hx; simpl.
  - destruct (Hall j x Hx) as (sub' & v & Hs & Hc & Hv). simpl in Hs.
    rewrite Hsub in Hs. injection Hs as <-.
    unfold np_stored. by rewrite Hc.
  - apply lookup_ge_None. apply lookup_ge_None in Hx.
    apply Forall2_length in Hlen. lia.
Qed.

Lemma cast_elems_arity subs it vs :
  cast_elems subs 0 it = inr vs → length it ≤ length subs.
Proof.
  intros [_ Hall]%cast_elems_inr.
  destruct it as [|x it _] using rev_ind; [simpl; lia|].
  destruct (Hall (length it) x) as (sub & v & Hs & _).
  { by rewrite lookup_app_r, Nat.sub_diag by lia. }
  simpl in Hs. apply lookup_lt_Some in Hs. rewrite length_app. simpl. lia.
Qed.

Lemma cast_elems_is_inr subs it :
  (∃ vs, cast_elems subs 0 it = inr vs) ↔
  length it ≤ length subs
  ∧ ∀ j x sub, it !! j = Some x → subs !! j = Some sub →
               ∃ v, np_cast sub.1 (default [] sub.2) x = inr v.
Proof.
  split.
  - intros [vs Hvs]. split; [by eapply cast_elems_arity|].
    apply cast_elems_inr in Hvs as [_ Hall]. intros j x sub Hx Hsub.
    destruct (Hall j x Hx) as (sub' & v & Hs & Hc & _). simpl in Hs.
    rewrite Hsub in Hs. injection Hs as <-. by exists v.
  - intros [Har Hall].
    assert (Hgen : ∀ sc, sc + length it ≤ length subs →
              (∀ j x sub, it !! j = Some x → subs !! (sc + j) = Some sub →
                          ∃ v, np_cast sub.1 (default [] sub.2) x = inr v) →
              ∃ vs, cast_elems subs sc it = inr vs).
    { clear Har Hall. induction it as [|x it IH]; intros sc Hsc Hall; simpl.
      - by eexists.
      - simpl in Hsc. destruct (lookup_lt_is_Some_2 subs sc) as [sub Hsub]; [lia|].
        rewrite Hsub. destruct (Hall 0 x sub eq_refl) as [v Hv].
        { by rewrite Nat.add_0_r. }
        apply np_convert_inr in Hv. rewrite Hv. cbn [bind].
        destruct (IH (S sc)) as [vs Hvs]; [lia| |].
        + intros j y sub' Hy Hs. apply (Hall (S j) y sub' Hy).
          by replace (sc + S j) with (S sc + j) by lia.
        + rewrite Hvs. by eexists. }
    apply Hgen; [simpl; lia|]. intros j x sub. simpl. apply Hall.
Qed.

Lemma np_convert_error dt sh (x : A) e :
  np_convert np_cast dt sh x = inl e → element_error e.
Proof. unfold np_convert. destruct (np_cast dt sh x); [|done]. by intros [= <-]. Qed.

Lemma cast_elems_error subs sc it e :
  cast_elems subs sc it = inl e → element_error e.
Proof.
  revert sc. induction it as [|x it IH]; intros sc; simpl; [done|].
  destruct (subs !! sc) as [sub|]; [|by intros [= <-]].
  destruct (np_convert np_cast sub.1 (default [] sub.2) x) as [e'|v] eqn:Hv.
  - intros [= <-]. by eapply np_convert_error.
  - cbn [bind]. destruct (cast_elems subs (S sc) it) as [e'|vs] eqn:Hit; [|done].
    intros [= <-]. by eapply IH.
Qed.

Lemma cast_elems_too_long subs sc it :
  sc ≤ length subs → length subs < sc + length it →
  (∃ e, cast_elems subs sc it = inl e)
  ∧ ((∀ j x sub, it !! j = Some x → subs !! (sc + j) = Some sub →
                 ∃ v, np_cast sub.1 (default [] sub.2) x = inr v) →
     cast_elems subs sc it = inl (IndexError "list index out of range")).
Proof.
  revert sc. induction it as [|x it IH]; intros sc Hsc Hlen; simpl in *; [lia|].
  destruct (subs !! sc) as [sub|] eqn:Hsub.
  - apply lookup_lt_Some in Hsub as Hlt.
    destruct (IH (S sc)) as [[e He] Hidx]; [lia|lia|].
    destruct (np_convert np_cast sub.1 (default [] sub.2) x) as [e'|v] eqn:Hv.
    + split; [by eexists|]. intros Hall.
      destruct (Hall 0 x sub eq_refl) as [v Hv']; [by rewrite Nat.add_0_r|].
      apply np_convert_inr in Hv'. congruence.
    + cbn [bind]. rewrite He. split; [by eexists|]. intros Hall.
      rewrite Hidx in He; [by injection He as <-|].
      intros j y sub' Hy Hs. apply (Hall (S j) y sub' Hy).
      by replace (sc + S j) with (S sc + j) by lia.
  - split; [by eexists|done].
Qed.

Lemma cast_entry_inr subs ci ci' :
  cast_entry subs ci = inr ci' →
  ci'.1 = ci.1
  ∧ cast_elems subs 0 ci.2 = inr ci'.2
  ∧ int32_storable numpy (Z.of_nat ci.1).
Proof.
  unfold Conv.cast_entry.
  destruct (cast_elems subs 0 ci.2) as [e|vs]; [done|]. cbn [bind].
  destruct (int32_cast numpy (Z.of_nat ci.1)) as [e|v] eqn:Hc; [done|].
  intros [= <-]. split_and!; [done|done|]. apply int32_cast_storable. by eexists.
Qed.

Lemma cast_entry_is_inr subs ci :
  (∃ ci', cast_entry subs ci = inr ci') ↔
  length ci.2 ≤ length subs
  ∧ (∀ j x sub, ci.2 !! j = Some x → subs !! j = Some sub →
                ∃ v, np_cast sub.1 (default [] sub.2) x = inr v)
  ∧ int32_storable numpy (Z.of_nat ci.1).
Proof.
  split.
  - intros [ci' (_ & Hvs & Hc)%cast_entry_inr].
    destruct (proj1 (cast_elems_is_inr subs ci.2)) as [Har Hall]; [by eexists|].
    done.
  - intros (Har & Hall & Hc).
    destruct (proj2 (cast_elems_is_inr subs ci.2)) as [vs Hvs]; [done|].
    apply int32_cast_storable in Hc as [v Hv].
    unfold Conv.cast_entry. rewrite Hvs. cbn [bind]. rewrite Hv. by eexists.
Qed.

Lemma cast_entry_error subs ci e : cast_entry subs ci = inl e → element_error e.
Proof.
  unfold Conv.cast_entry.
  destruct (cast_elems subs 0 ci.2) as [e'|vs] eqn:Hvs.
  - intros [= <-]. by eapply cast_elems_error.
  - cbn [bind]. destruct (int32_cast numpy (Z.of_nat ci.1)) as [e'|v] eqn:Hc; [|done].
    intros [= <-]. by eapply int32_cast_error.
Qed.

Lemma cast_entry_unchanged subs (ci : nat * list A) :
  length ci.2 ≤ length subs →
  (∀ j x sub, ci.2 !! j = Some x → subs !! j = Some sub →
              np_cast sub.1 (default [] sub.2) x = inr x) →
  (Z.of_nat ci.1 < 2 ^ 31)%Z →
  cast_entry subs ci = inr ci.
Proof.
  intros Har Hall Hc. unfold Conv.cast_entry.
  assert (Hvs : cast_elems subs 0 ci.2 = inr ci.2).
  { apply cast_elems_inr. split; [by apply Forall2_true|].
    intros j x Hx. destruct (lookup_lt_is_Some_2 subs j) as [sub Hsub].
    { apply lookup_lt_Some in Hx. lia. }
    exists sub, x. split_and!; [done|by eapply Hall|done]. }
  rewrite Hvs. cbn [bind]. rewrite int32_cast_small by lia. by destruct ci.
Qed.

(** Entries converted one by one. *)
Lemma converted_cols subs w es :
  map_res (cast_entry subs) w = inr es → es.*1 = w.*1.
Proof.
  intros Hes%map_res_inr. induction Hes as [|ci ci' w es Hci _ IH]; [done|].
  csimpl. apply cast_entry_inr in Hci as [-> _]. by rewrite IH.
Qed.

Lemma converted_cells subs w es j sub :
  map_res (cast_entry subs) w = inr es →
  subs !! j = Some sub →
  (λ ci : nat * list A, ci.2 !! j) <$> es
  = (λ ci : nat * list A, ci.2 !! j ≫= np_stored np_cast sub) <$> w.
Proof.
  intros Hes%map_res_inr Hsub.
  induction Hes as [|ci ci' w es Hci _ IH]; [done|]. csimpl. rewrite IH. f_equal.
  apply cast_entry_inr in Hci as (_ & Hvs & _). by eapply cast_elems_stored.
Qed.

(** *** Reading the arrays back *)

Lemma entries_upto_split rws r n :
  r < n → ∃ post, entries_upto rws n = entries_upto rws r ++ row_entries rws r ++ post.
Proof.
  unfold lt. induction 1 as [|k _ [post IH]].
  - exists []. by rewrite entries_upto_S, app_nil_r.
  - exists (post ++ row_entries rws k).
    by rewrite entries_upto_S, IH, <- !app_assoc.
Qed.

Lemma entries_upto_lookup rws r n i ci :
  r < n → row_entries rws r !! i = Some ci →
  entries_upto rws n !! (length (entries_upto rws r) + i) = Some ci.
Proof.
  intros [post ->]%(entries_upto_split rws) Hi.
  rewrite lookup_app_r by lia.
  replace (length (entries_upto rws r) + i - length (entries_upto rws r)) with i by lia.
  by apply lookup_app_l_Some.
Qed.

Lemma idx_cell_read (E : list (nat * list A)) ord k ci :
  E !! k = Some ci → (Z.of_nat ci.1 < 2 ^ 31)%Z →
  Csr.int_cell (NdArray int32 [length E] ord (idx_cells (length E) E)) k = Z.of_nat ci.1.
Proof.
  intros Hk Hc. unfold Csr.int_cell, Csr.cell, idx_cells. simpl.
  rewrite lookup_app_l by (rewrite length_fmap; by eapply lookup_lt_Some).
  rewrite list_lookup_fmap, Hk. simpl.
  apply int32_of_int_small. lia.
Qed.

Lemma dat_cell_read subs (E : list (nat * list A)) ord k ci :
  E !! k = Some ci → length ci.2 = length subs →
  (λ a, Csr.cell a k) <$> das_of subs ord (length E) E = Some <$> ci.2.
Proof.
  intros Hk Hc. unfold das_of. rewrite fmap_imap.
  apply list_eq. intros j. rewrite list_lookup_imap, list_lookup_fmap.
  destruct (subs !! j) as [sub|] eqn:Hj; simpl.
  - unfold Csr.cell, with_cells, dat_cells. simpl.
    rewrite lookup_app_l by (rewrite length_fmap; by eapply lookup_lt_Some).
    rewrite list_lookup_fmap, Hk. simpl.
    apply lookup_lt_Some in Hj.
    destruct (ci.2 !! j) eqn:Hcj; [done|].
    apply lookup_ge_None in Hcj. lia.
  - apply lookup_ge_None in Hj.
    by rewrite lookup_ge_None_2 by lia.
Qed.

Lemma ptr_cell_read rws ord n r :
  r ≤ n → (Z.of_nat (length (entries_upto rws n)) < 2 ^ 31)%Z →
  Z.to_nat (Csr.int_cell (int32_array (ptr_upto rws n) ord) r)
  = length (entries_upto rws r).
Proof.
  intros Hr Hb. unfold Csr.int_cell, Csr.cell, int32_array, ptr_upto.
  cbn [cells].
  rewrite !list_lookup_fmap, lookup_seq_lt by lia. simpl.
  pose proof (length_entries_upto_mono rws r n Hr).
  rewrite int32_of_int_small by lia. lia.
Qed.

Lemma bind_singleton_fmap {X Y} (g : X → Y) (l : list X) :
  (x ← l; [g x]) = g <$> l.
Proof. induction l as [|x l IH]; csimpl; [done|]. by rewrite IH. Qed.

Lemma read_row subs ord rws n r :
  let E := entries_upto rws n in
  r < n →
  (Z.of_nat (length E) < 2 ^ 31)%Z →
  Forall (λ ci : nat * list A,
            length ci.2 = length subs ∧ (Z.of_nat ci.1 < 2 ^ 31)%Z) E →
  (let lo := Z.to_nat (Csr.int_cell (int32_array (ptr_upto rws n) ord) r) in
   let hi := Z.to_nat (Csr.int_cell (int32_array (ptr_upto rws n) ord) (S r)) in
   k ← seq lo (hi - lo);
   [((r, Csr.int_cell (NdArray int32 [length E] ord (idx_cells (length E) E)) k),
     (λ a, Csr.cell a k) <$> das_of subs ord (length E) E)])
  = as_read <$> ((λ ci : nat * list A, ((r, ci.1), ci.2)) <$> row_entries rws r).
Proof.
  intros E Hr Hb Hfit. cbv zeta.
  rewrite !ptr_cell_read by (done || lia).
  rewrite entries_upto_S, length_app.
  replace (length (entries_upto rws r) + length (row_entries rws r)
             - length (entries_upto rws r)) with (length (row_entries rws r)) by lia.
  rewrite bind_singleton_fmap. apply list_eq. intros i.
  rewrite !list_lookup_fmap.
  destruct (row_entries rws r !! i) as [ci|] eqn:Hi; simpl.
  - rewrite lookup_seq_lt by by eapply lookup_lt_Some. simpl.
    pose proof (entries_upto_lookup rws r n i ci Hr Hi) as HE. fold E in HE.
    destruct (proj1 (Forall_lookup _ _) Hfit _ _ HE) as [Har Hc].
    rewrite (idx_cell_read E ord _ ci), (dat_cell_read subs E ord _ ci) by done.
    done.
  - apply lookup_ge_None in Hi.
    by rewrite lookup_ge_None_2 by (rewrite length_seq; lia).
Qed.

Lemma read_arrays_spec subs ord rws n :
  let E := entries_upto rws n in
  (Z.of_nat (length E) < 2 ^ 31)%Z →
  Forall (λ ci : nat * list A,
            length ci.2 = length subs ∧ (Z.of_nat ci.1 < 2 ^ 31)%Z) E →
  Csr.read_arrays (das_of subs ord (length E) E)
    (NdArray int32 [length E] ord (idx_cells (length E) E))
    (int32_array (ptr_upto rws n) ord)
  = as_read <$> keyed_upto rws n.
Proof.
  intros E Hb Hfit. unfold Csr.read_arrays.
  replace (length (cells (int32_array (ptr_upto rws n) ord)) - 1) with n.
  2:{ unfold int32_array, ptr_upto. simpl.
      rewrite !length_fmap, length_seq. lia. }
  assert (Hgen : ∀ n', n' ≤ n →
    (r ← seq 0 n';
     (let lo := Z.to_nat (Csr.int_cell (int32_array (ptr_upto rws n) ord) r) in
      let hi := Z.to_nat (Csr.int_cell (int32_array (ptr_upto rws n) ord) (S r)) in
      k ← seq lo (hi - lo);
      [((r, Csr.int_cell (NdArray int32 [length E] ord (idx_cells (length E) E)) k),
        (λ a, Csr.cell a k) <$> das_of subs ord (length E) E)]))
    = as_read <$> keyed_upto rws n').
  { induction n' as [|n' IH]; intros Hle; [done|].
    rewrite seq_S, bind_app, IH by lia. simpl.
    rewrite keyed_upto_S, fmap_app, app_nil_r. f_equal.
    by apply (read_row subs ord rws n n'). }
  by apply Hgen.
Qed.

(** *** Stores reached through [__setitem__] *)

Lemma Forall_set {K V} `{EqDecision K} (P : K * V → Prop) (d : list (K * V)) k v :
  Forall P d → P (k, v) → Forall P (PyDict.set d k v).
Proof.
  intros Hd Hkv. apply Forall_forall. intros [k' v'] [[-> ->]|Hin]%elem_of_set.
  - done.
  - by apply (proj1 (Forall_forall _ _) Hd).
Qed.

Lemma store_ok_init subs : store_ok (MultiSparse.init (A := A) subs).
Proof. split; [apply NoDup_nil_2|apply Forall_nil_2]. Qed.

Lemma store_ok_setitem (m : MultiSparse.t A) idx it :
  store_ok m → store_ok (MultiSparse.setitem m idx it).
Proof.
  intros [Hnd Hall]. destruct idx as [row col]. unfold MultiSparse.setitem.
  destruct (PyDict.get (MultiSparse.rows m) row) as [d|] eqn:Hg; split; simpl.
  - by apply NoDup_keys_set.
  - apply Forall_set; [done|]. simpl. apply NoDup_keys_set.
    apply get_Some_elem_of in Hg.
    by apply (proj1 (Forall_forall _ _) Hall _ Hg).
  - by apply NoDup_keys_set.
  - apply Forall_set; [done|]. simpl. apply NoDup_singleton.
Qed.

Lemma subarrays_setitem (m : MultiSparse.t A) idx it :
  MultiSparse.subarrays (MultiSparse.setitem m idx it) = MultiSparse.subarrays m.
Proof.
  destruct idx as [row col]. unfold MultiSparse.setitem.
  by destruct (PyDict.get (MultiSparse.rows m) row).
Qed.

Lemma rows_setitem_nonempty (m : MultiSparse.t A) idx it :
  MultiSparse.rows (MultiSparse.setitem m idx it) ≠ [].
Proof.
  destruct idx as [row col]. unfold MultiSparse.setitem.
  destruct (PyDict.get (MultiSparse.rows m) row); simpl; apply set_nonempty.
Qed.

Lemma elem_of_items (m : MultiSparse.t A) e :
  e ∈ MultiSparse.items m ↔
  ∃ d, (e.1.1, d) ∈ MultiSparse.rows m ∧ (e.1.2, e.2) ∈ d.
Proof.
  unfold MultiSparse.items. rewrite list_elem_of_bind. split.
  - intros ([r d] & (ci & -> & Hci)%list_elem_of_fmap & Hrd). simpl in *.
    exists d. by destruct ci.
  - intros (d & Hrd & Hci). exists (e.1.1, d). split; [|done].
    apply list_elem_of_fmap. exists (e.1.2, e.2). split; [|done].
    by destruct e as [[r c] it].
Qed.

Lemma items_setitem (m : MultiSparse.t A) idx it e :
  e ∈ MultiSparse.items (MultiSparse.setitem m idx it) →
  e = (idx, it) ∨ e ∈ MultiSparse.items m.
Proof.
  destruct idx as [row col], e as [[r c] x].
  rewrite !elem_of_items. simpl. unfold MultiSparse.setitem.
  destruct (PyDict.get (MultiSparse.rows m) row) as [d|] eqn:Hg; simpl.
  - intros (d' & [[-> ->]|Hin]%elem_of_set & Hci).
    + apply elem_of_set in Hci as [[-> ->]|Hci]; [by left|].
      right. exists d. split; [|done]. by apply get_Some_elem_of.
    + right. by exists d'.
  - intros (d' & [[-> ->]|Hin]%elem_of_set & Hci).
    + apply list_elem_of_singleton in Hci. injection Hci as -> ->. by left.
    + right. by exists d'.
Qed.

Lemma getitem_items (m : MultiSparse.t A) r c it :
  store_ok m →
  MultiSparse.getitem m (r, c) = inr it ↔ ((r, c), it) ∈ MultiSparse.items m.
Proof.
  intros [Hnd Hall]. rewrite elem_of_items. unfold MultiSparse.getitem. simpl.
  split.
  - destruct (PyDict.get (MultiSparse.rows m) r) as [d|] eqn:Hr; [|done].
    destruct (PyDict.get d c) as [x|] eqn:Hc; [|done].
    intros [= ->]. exists d. split; by apply get_Some_elem_of.
  - intros (d & Hr & Hc).
    rewrite (elem_of_get _ _ _ Hnd Hr).
    rewrite (elem_of_get d c it); [done| |done].
    by apply (proj1 (Forall_forall _ _) Hall _ Hr).
Qed.

Lemma store_ok_of_ops subs (ops : list ((nat * nat) * list A)) :
  store_ok (of_ops subs ops).
Proof.
  unfold of_ops. induction ops as [|op ops IH] using rev_ind.
  - apply store_ok_init.
  - rewrite foldl_snoc. by apply store_ok_setitem.
Qed.

Lemma subarrays_of_ops subs (ops : list ((nat * nat) * list A)) :
  MultiSparse.subarrays (of_ops subs ops) = subs.
Proof.
  unfold of_ops. induction ops as [|op ops IH] using rev_ind; [done|].
  by rewrite foldl_snoc, subarrays_setitem.
Qed.

Lemma rows_of_ops_nonempty subs (ops : list ((nat * nat) * list A)) :
  ops ≠ [] → MultiSparse.rows (of_ops subs ops) ≠ [].
Proof.
  unfold of_ops. destruct ops as [|op ops _] using rev_ind; [done|].
  intros _. rewrite foldl_snoc. apply rows_setitem_nonempty.
Qed.

Lemma items_of_ops subs (ops : list ((nat * nat) * list A)) e :
  e ∈ MultiSparse.items (of_ops subs ops) → e ∈ ops.
Proof.
  unfold of_ops. induction ops as [|op ops IH] using rev_ind.
  - intros Hin. by apply elem_of_nil in Hin.
  - rewrite foldl_snoc. intros [->|Hin]%items_setitem.
    + apply elem_of_app. right. destruct op. by apply list_elem_of_singleton.
    + apply elem_of_app. left. by apply IH.
Qed.

Lemma Forall_items_of_ops (P : (nat * nat) * list A → Prop) subs ops :
  Forall P ops → Forall P (MultiSparse.items (of_ops subs ops)).
Proof.
  intros Hall. apply Forall_forall. intros e He%items_of_ops.
  by apply (proj1 (Forall_forall _ _) Hall).
Qed.

Lemma to_csr_of_ops subs (ops : list ((nat * nat) * list A)) ord :
  ops ≠ [] →
  to_csr (of_ops subs ops) ord = csr_of (of_ops subs ops) ord.
Proof.
  intros Hne. apply to_csr_spec.
  - apply store_ok_of_ops.
  - by apply rows_of_ops_nonempty.
Qed.

Lemma index_of_bundle (das : list (ndarray A)) (idx ptr : ndarray Z) :
  Csr.index_of ((MultiSparse.DataArray <$> das)
                  ++ [MultiSparse.IndexArray idx; MultiSparse.IndexArray ptr])
  = [idx; ptr].
Proof. induction das as [|a das IH]; [done|]. csimpl. exact IH. Qed.

Lemma data_of_bundle (das : list (ndarray A)) (idx ptr : ndarray Z) :
  Csr.data_of ((MultiSparse.DataArray <$> das)
                 ++ [MultiSparse.IndexArray idx; MultiSparse.IndexArray ptr])
  = das.
Proof. induction das as [|a das IH]; [done|]. csimpl. by rewrite IH. Qed.

Lemma from_csr_arrays_of (m : MultiSparse.t A) ord :
  store_ok m →
  (Z.of_nat (MultiSparse.len m) < 2 ^ 31)%Z →
  Forall (fits (MultiSparse.subarrays m)) (MultiSparse.items m) →
  Csr.from_csr
    (arrays_of m ord (entries_upto (MultiSparse.rows m) (num_rows_of (MultiSparse.rows m))))
  = as_read <$> keyed_upto (MultiSparse.rows m) (num_rows_of (MultiSparse.rows m)).
Proof.
  intros Hok Hb Hfit. unfold Csr.from_csr, arrays_of.
  rewrite index_of_bundle, data_of_bundle.
  rewrite <- (length_entries_upto m Hok) in *.
  apply read_arrays_spec; [done|].
  rewrite <- keyed_upto_entries. apply Forall_fmap.
  destruct Hok as [Hnd _].
  rewrite (keyed_upto_items m) by (done || apply keys_lt_num_rows).
  eapply Forall_impl; [exact Hfit|]. by intros [[r c] it].
Qed.

Lemma row_entries_NoDup rws r :
  Forall (λ rd : nat * list (nat * list A), NoDup (PyDict.keys rd.2)) rws →
  NoDup (PyDict.keys (row_entries rws r)).
Proof.
  intros Hall. unfold row_entries.
  destruct (PyDict.get rws r) as [d0|] eqn:Hg; simpl; [|apply NoDup_nil_2].
  apply get_Some_elem_of in Hg.
  by apply (proj1 (Forall_forall _ _) Hall _ Hg).
Qed.

Lemma keyed_upto_row_lt rws n e : e ∈ keyed_upto rws n → e.1.1 < n.
Proof.
  unfold keyed_upto. rewrite list_elem_of_bind.
  intros (r & (ci & -> & _)%list_elem_of_fmap & Hr%elem_of_seq). simpl. lia.
Qed.

Lemma keyed_upto_NoDup rws n :
  Forall (λ rd : nat * list (nat * list A), NoDup (PyDict.keys rd.2)) rws →
  NoDup (PyDict.keys (keyed_upto rws n)).
Proof.
  intros Hall. unfold PyDict.keys. induction n as [|n IH]; [apply NoDup_nil_2|].
  rewrite keyed_upto_S, fmap_app. apply NoDup_app. split_and!.
  - done.
  - intros k (e & -> & He%keyed_upto_row_lt)%list_elem_of_fmap.
    rewrite <- list_fmap_compose.
    intros (ci & Heq & _)%list_elem_of_fmap. simpl in Heq.
    rewrite Heq in He. simpl in He. lia.
  - pose proof (row_entries_NoDup rws n Hall) as Hrow. unfold PyDict.keys in Hrow.
    assert (Heq : ((λ ci : nat * list A, ((n, ci.1), ci.2)) <$> row_entries rws n).*1
                  = (λ c, (n, c)) <$> (row_entries rws n).*1).
    { rewrite <- !list_fmap_compose. by apply list_fmap_ext. }
    rewrite Heq. apply NoDup_fmap_2; [|done].
    by intros c1 c2 [= ->].
Qed.

Lemma as_read_keys (l : list ((nat * nat) * list A)) :
  PyDict.keys (as_read <$> l)
  = (λ k : nat * nat, (k.1, Z.of_nat k.2)) <$> PyDict.keys l.
Proof.
  unfold PyDict.keys. rewrite <- !list_fmap_compose.
  apply list_fmap_ext. by intros _ [[r c] it] _.
Qed.

Lemma get_as_read (l : list ((nat * nat) * list A)) r c :
  NoDup (PyDict.keys l) →
  PyDict.get (as_read <$> l) (r, Z.of_nat c)
  = (λ it : list A, Some <$> it) <$> PyDict.get l (r, c).
Proof.
  intros Hnd. destruct (PyDict.get l (r, c)) as [it|] eqn:Hg; simpl.
  - apply elem_of_get.
    + rewrite as_read_keys. apply NoDup_fmap_2; [|done].
      intros [r1 c1] [r2 c2] [= -> Hc]. f_equal. lia.
    + apply list_elem_of_fmap. exists ((r, c), it). split; [done|].
      by apply get_Some_elem_of.
  - apply get_None. rewrite as_read_keys.
    intros ([r' c'] & [= -> Hc] & Hin)%list_elem_of_fmap.
    apply Nat2Z.inj in Hc as ->. simpl in Hin.
    by apply get_None in Hg.
Qed.

Lemma getitem_setitem_eq (m : MultiSparse.t A) idx it :
  MultiSparse.getitem (MultiSparse.setitem m idx it) idx = inr it.
Proof.
  destruct idx as [row col]. unfold MultiSparse.getitem, MultiSparse.setitem.
  destruct (PyDict.get (MultiSparse.rows m) row) as [d0|]; simpl.
  - by rewrite !get_set_eq.
  - rewrite get_set_eq. simpl. by rewrite decide_True.
Qed.

Lemma getitem_setitem_ne (m : MultiSparse.t A) idx idx' it :
  idx ≠ idx' →
  MultiSparse.getitem (MultiSparse.setitem m idx it) idx' = MultiSparse.getitem m idx'.
Proof.
  destruct idx as [row col], idx' as [row' col']. intros Hne.
  unfold MultiSparse.getitem, MultiSparse.setitem. simpl.
  destruct (decide (row = row')) as [<-|Hrow].
  - assert (col ≠ col') by congruence.
    destruct (PyDict.get (MultiSparse.rows m) row) as [d0|]; simpl.
    + by rewrite get_set_eq, get_set_ne.
    + rewrite get_set_eq. simpl. by rewrite decide_False.
  - destruct (PyDict.get (MultiSparse.rows m) row) as [d0|]; simpl;
      by rewrite get_set_ne.
Qed.

Lemma of_ops_snoc subs (ops : list ((nat * nat) * list A)) op :
  of_ops subs (ops ++ [op]) = MultiSparse.setitem (of_ops subs ops) op.1 op.2.
Proof. unfold of_ops. by rewrite foldl_snoc. Qed.

Lemma getitem_of_ops_absent subs (ops : list ((nat * nat) * list A)) idx :
  idx ∉ ops.*1 → MultiSparse.getitem (of_ops subs ops) idx = inl KeyError.
Proof.
  induction ops as [|op ops IH] using rev_ind; [done|].
  rewrite fmap_app, not_elem_of_app. intros [Hops Hop].
  rewrite of_ops_snoc, getitem_setitem_ne; [by apply IH|].
  intros <-. apply Hop. by apply list_elem_of_singleton.
Qed.

Lemma getitem_of_ops_present subs (ops : list ((nat * nat) * list A)) idx it :
  NoDup ops.*1 → (idx, it) ∈ ops →
  MultiSparse.getitem (of_ops subs ops) idx = inr it.
Proof.
  induction ops as [|op ops IH] using rev_ind.
  - intros _ Hin. by apply elem_of_nil in Hin.
  - rewrite fmap_app. intros (Hnd & Hdis & _)%NoDup_app [Hin|Hin]%elem_of_app.
    + rewrite of_ops_snoc, getitem_setitem_ne; [by apply IH|].
      intros Heq. apply (Hdis idx).
      * apply list_elem_of_fmap. by exists (idx, it).
      * rewrite <- Heq. by apply list_elem_of_singleton.
    + apply list_elem_of_singleton in Hin as <-.
      by rewrite of_ops_snoc, getitem_setitem_eq.
Qed.

(** *** Order of the emitted entries and the row pointers *)

Lemma keyed_upto_sorted rws n :
  StronglySorted le ((λ e : (nat * nat) * list A, e.1.1) <$> keyed_upto rws n).
Proof.
  induction n as [|n IH]; [constructor|].
  rewrite keyed_upto_S, fmap_app. apply StronglySorted_app_2.
  - intros r1 r2 (e1 & -> & He1%keyed_upto_row_lt)%list_elem_of_fmap.
    rewrite <- list_fmap_compose.
    intros (ci & -> & _)%list_elem_of_fmap. simpl. lia.
  - done.
  - rewrite <- list_fmap_compose. simpl.
    induction (row_entries rws n) as [|ci l IHl]; csimpl; constructor; [done|].
    apply Forall_fmap, Forall_true. simpl. lia.
Qed.

Lemma filter_keyed_upto rws r n :
  r ≤ n →
  filter (λ e : (nat * nat) * list A, e.1.1 < r) (keyed_upto rws n) = keyed_upto rws r.
Proof.
  induction 1 as [|n Hle IH].
  - induction (keyed_upto rws r) as [|e l IHl] eqn:Hl using rev_ind; [done|].
    assert (Hall : ∀ e', e' ∈ keyed_upto rws r → e'.1.1 < r)
      by (intros e'; apply keyed_upto_row_lt).
    clear IHl. rewrite Hl in Hall. clear Hl.
    induction (l ++ [e]) as [|e' l' IHl']; [done|].
    rewrite filter_cons_True by (apply Hall, elem_of_cons; by left).
    f_equal. apply IHl'. intros e'' He''. apply Hall, elem_of_cons. by right.
  - rewrite keyed_upto_S, filter_app, IH.
    rewrite <- (app_nil_r (keyed_upto rws r)) at 2. f_equal.
    induction (row_entries rws n) as [|ci l IHl]; [done|]. csimpl.
    rewrite filter_cons_False by (simpl; lia). done.
Qed.

Lemma ptr_upto_counts rws n :
  ptr_upto rws n
  = (λ r, length (filter (λ e : (nat * nat) * list A, e.1.1 < r) (keyed_upto rws n)))
      <$> seq 0 (S n).
Proof.
  unfold ptr_upto. apply list_fmap_ext. intros i r [-> Hr]%lookup_seq.
  rewrite filter_keyed_upto by lia.
  by rewrite <- keyed_upto_entries, length_fmap.
Qed.

Lemma ptr_upto_sorted rws n : StronglySorted le (ptr_upto rws n).
Proof.
  induction n as [|n IH]; [repeat constructor|].
  rewrite ptr_upto_S. apply StronglySorted_app_2; [|done|repeat constructor].
  intros x1 x2 (k & -> & [_ Hk]%elem_of_seq)%list_elem_of_fmap
    ->%list_elem_of_singleton.
  apply length_entries_upto_mono. lia.
Qed.

Lemma ptr_upto_head rws n : head (ptr_upto rws n) = Some 0.
Proof. done. Qed.

Lemma ptr_upto_last rws n :
  last (ptr_upto rws n) = Some (length (entries_upto rws n)).
Proof. unfold ptr_upto. rewrite seq_S, fmap_app. csimpl. by rewrite last_snoc. Qed.

Lemma idx_cells_full (E : list (nat * list A)) :
  idx_cells (length E) E
  = (λ ci : nat * list A, Some (int32_of_int (Z.of_nat ci.1))) <$> E.
Proof. unfold idx_cells. by rewrite Nat.sub_diag, app_nil_r. Qed.

Lemma dat_cells_full (E : list (nat * list A)) j :
  dat_cells (length E) j E = (λ ci : nat * list A, ci.2 !! j) <$> E.
Proof. unfold dat_cells. by rewrite Nat.sub_diag, app_nil_r. Qed.

(** *** When the conversion returns *)

Lemma ptr_upto_storable rws n :
  Forall (λ k, int32_storable numpy (Z.of_nat k)) (ptr_upto rws n)
  ↔ int32_storable numpy (Z.of_nat (length (entries_upto rws n))).
Proof.
  unfold ptr_upto. rewrite Forall_fmap, Forall_forall. split.
  - intros Hall. apply (Hall n). apply elem_of_seq. lia.
  - intros Hn k [_ Hk]%elem_of_seq. simpl.
    eapply int32_storable_le; [|exact Hn].
    pose proof (length_entries_upto_mono rws k n). lia.
Qed.

Lemma csr_of_inr (m : MultiSparse.t A) ord out :
  csr_of m ord = inr out →
  ∃ es,
    map_res (cast_entry (MultiSparse.subarrays m))
      (entries_upto (MultiSparse.rows m) (num_rows_of (MultiSparse.rows m))) = inr es
    ∧ out = arrays_of m ord es.
Proof.
  unfold Conv.csr_of.
  destruct (map_res _ _) as [e|es]; [done|]. cbn [bind].
  destruct (np_array_int32 _ _ _) as [e|ptr]; [done|]. cbn [bind].
  intros [= <-]. by exists es.
Qed.

Lemma csr_of_is_inr (m : MultiSparse.t A) ord :
  store_ok m →
  (∃ out, csr_of m ord = inr out) ↔ convertible np_cast numpy m.
Proof.
  intros Hok. unfold Conv.csr_of, convertible.
  set (rws := MultiSparse.rows m). set (n := num_rows_of rws).
  rewrite <- (length_entries_upto m Hok). fold rws n.
  rewrite <- ptr_upto_storable, <- (np_array_int32_storable numpy _ ord).
  assert (Hent : (∃ es, map_res (cast_entry (MultiSparse.subarrays m))
                          (entries_upto rws n) = inr es)
                 ↔ Forall (λ e : (nat * nat) * list A,
                      length e.2 ≤ length (MultiSparse.subarrays m)
                      ∧ (∀ j x sub, e.2 !! j = Some x →
                                    MultiSparse.subarrays m !! j = Some sub →
                                    ∃ v, np_cast sub.1 (default [] sub.2) x = inr v)
                      ∧ int32_storable numpy (Z.of_nat e.1.2))
                    (MultiSparse.items m)).
  { rewrite map_res_is_inr.
    rewrite <- (keyed_upto_items m n) by (apply Hok || apply keys_lt_num_rows).
    fold rws. rewrite <- keyed_upto_entries, Forall_fmap.
    apply Forall_iff. intros [[r c] it]. apply cast_entry_is_inr. }
  rewrite <- Hent. split.
  - intros [out Hout].
    destruct (map_res _ (entries_upto rws n)) as [e|es]; [done|]. cbn [bind] in Hout.
    destruct (np_array_int32 numpy (ptr_upto rws n) ord) as [e|ptr]; [done|].
    split; by eexists.
  - intros [[es ->] [ptr ->]]. by eexists.
Qed.

Lemma csr_of_error (m : MultiSparse.t A) ord e :
  csr_of m ord = inl e → element_error e.
Proof.
  unfold Conv.csr_of.
  destruct (map_res _ _) as [e'|es] eqn:Hes.
  - intros [= <-]. eapply (map_res_error element_error); [|exact Hes].
    intros ci e0 _. apply cast_entry_error.
  - cbn [bind]. destruct (np_array_int32 _ _ _) as [e'|ptr] eqn:Hp; [|done].
    intros [= <-]. by eapply np_array_int32_error.
Qed.

Lemma to_csr_error subs (ops : list ((nat * nat) * list A)) ord e :
  to_csr (of_ops subs ops) ord = inl e → loop_error e.
Proof.
  destruct (decide (ops = [])) as [->|Hne].
  - by intros [= <-].
  - rewrite to_csr_of_ops by done. intros He. by eapply element_error_loop, csr_of_error.
Qed.

(** The error of [max] is raised by the empty store only. *)
Lemma to_csr_max_error subs (ops : list ((nat * nat) * list A)) ord msg :
  to_csr (of_ops subs ops) ord = inl (ValueError msg) → ops = [].
Proof.
  destruct (decide (ops = [])) as [->|Hne]; [done|].
  rewrite to_csr_of_ops by done. by intros He%csr_of_error.
Qed.

Lemma to_csr_inr subs (ops : list ((nat * nat) * list A)) ord out :
  to_csr (of_ops subs ops) ord = inr out →
  ops ≠ []
  ∧ ∃ es,
      map_res (cast_entry subs)
        (entries_upto (MultiSparse.rows (of_ops subs ops))
           (num_rows_of (MultiSparse.rows (of_ops subs ops)))) = inr es
      ∧ out = arrays_of (of_ops subs ops) ord es.
Proof.
  destruct (decide (ops = [])) as [->|Hne]; [done|].
  rewrite to_csr_of_ops by done. intros (es & Hes & ->)%csr_of_inr.
  rewrite subarrays_of_ops in Hes. split; [done|]. by exists es.
Qed.
End csr_facts.

(** ** Layout of the arrays returned by [to_csr] *)

Section layout_facts.
Context {A : Type}.
Context (np_cast : np_dtype → list nat → A → string + A).
Context (numpy : numpy_version).
Implicit Types (subs : list (np_dtype * option (list nat))).
Implicit Types (ops : list ((nat * nat) * list A)).

Local Abbreviation to_csr := (MultiSparse.to_csr np_cast numpy).

Lemma elem_of_keys_setitem (m : MultiSparse.t A) idx it r :
  r ∈ PyDict.keys (MultiSparse.rows (MultiSparse.setitem m idx it))
  ↔ r = idx.1 ∨ r ∈ PyDict.keys (MultiSparse.rows m).
Proof.
  destruct idx as [row col]. unfold MultiSparse.setitem. simpl.
  destruct (PyDict.get (MultiSparse.rows m) row) as [d0|] eqn:Hg; simpl;
    rewrite keys_set, Hg.
  - split; [by right|]. intros [->|?]; [|done].
    apply dec_stable. intros Hn. apply get_None in Hn. congruence.
  - rewrite elem_of_app, list_elem_of_singleton. tauto.
Qed.

Lemma elem_of_keys_of_ops subs ops r :
  r ∈ PyDict.keys (MultiSparse.rows (of_ops subs ops)) ↔ r ∈ ops.*1.*1.
Proof.
  induction ops as [|op ops IH] using rev_ind.
  - split; intros Hin; by apply elem_of_nil in Hin.
  - rewrite of_ops_snoc, elem_of_keys_setitem, IH, !fmap_app, elem_of_app. csimpl.
    rewrite list_elem_of_singleton. tauto.
Qed.

Lemma max_list_same_elements (l k : list nat) :
  (∀ x, x ∈ l ↔ x ∈ k) → max_list l = max_list k.
Proof.
  intros Hlk. destruct (decide (l = [])) as [->|Hl].
  - destruct k as [|y k]; [done|].
    exfalso. apply (not_elem_of_nil y), Hlk, elem_of_cons. by left.
  - assert (Hk : k ≠ []).
    { intros ->. destruct l as [|x l]; [done|].
      apply (not_elem_of_nil x), Hlk, elem_of_cons. by left. }
    apply Nat.le_antisymm.
    + by apply max_list_elem_of_le, Hlk, max_list_elem_of.
    + by apply max_list_elem_of_le, Hlk, max_list_elem_of.
Qed.

Lemma num_rows_of_ops subs ops :
  num_rows_of (MultiSparse.rows (of_ops subs ops)) = S (max_list ops.*1.*1).
Proof.
  unfold num_rows_of. f_equal. apply max_list_same_elements.
  intros r. apply elem_of_keys_of_ops.
Qed.

Lemma length_converted subs ops es :
  map_res (cast_entry np_cast numpy subs)
    (entries_upto (MultiSparse.rows (of_ops subs ops))
       (num_rows_of (MultiSparse.rows (of_ops subs ops)))) = inr es →
  length es = MultiSparse.len (of_ops subs ops).
Proof.
  intros Hes%map_res_length. rewrite Hes.
  apply length_entries_upto, store_ok_of_ops.
Qed.

Lemma to_csr_layout subs ops ord out :
  to_csr (of_ops subs ops) ord = inr out →
  ∃ das idx ptr,
    out = (MultiSparse.DataArray <$> das)
            ++ [MultiSparse.IndexArray idx; MultiSparse.IndexArray ptr]
    ∧ Forall2 (λ (a : ndarray A) sub,
                 dtype a = sub.1
                 ∧ shape a = MultiSparse.len (of_ops subs ops) :: default [] sub.2
                 ∧ order a = ord
                 ∧ length (cells a) = MultiSparse.len (of_ops subs ops))
              das subs
    ∧ (dtype idx = int32
       ∧ shape idx = [MultiSparse.len (of_ops subs ops)]
       ∧ order idx = ord
       ∧ length (cells idx) = MultiSparse.len (of_ops subs ops))
    ∧ (dtype ptr = int32
       ∧ shape ptr = [max_list ops.*1.*1 + 2]
       ∧ length (cells ptr) = max_list ops.*1.*1 + 2
       ∧ order ptr = ord).
Proof.
  intros (Hne & es & Hes & ->)%to_csr_inr.
  pose proof (length_converted _ _ _ Hes) as HN.
  unfold arrays_of. rewrite subarrays_of_ops. eexists _, _, _.
  split; [reflexivity|]. split_and!; try done.
  - unfold das_of. apply Forall2_same_length_lookup. split.
    + by rewrite length_imap.
    + intros j a sub. rewrite list_lookup_imap. intros Ha Hsub.
      rewrite Hsub in Ha. injection Ha as <-. simpl.
      rewrite length_dat_cells by lia.
      destruct sub as [dt [sh|]]; done.
  - cbn [cells]. apply length_idx_cells. lia.
  - unfold int32_array, ptr_upto. cbn [shape].
    rewrite length_fmap, length_seq, num_rows_of_ops. f_equal. lia.
  - unfold int32_array, ptr_upto. cbn [cells].
    rewrite !length_fmap, length_seq, num_rows_of_ops. lia.
Qed.
End layout_facts.

(** ** The integration loop of [singular_impedance_rwg] *)

Section singular_facts.
Context {BasisId Tol NodeArray NormalArray Tri Normal RulePoints RuleWeights Terms : Type}.
Context `{EqDecision BasisId, EqDecision Tol}.
Context (rule_points : RulePoints) (rule_weights : RuleWeights).
Context (face_integrals_yla_oijala :
           Tri → RulePoints → RuleWeights → Tri → Normal
           → Singular.face_integrals (Terms := Terms)).
Context (take_nodes : NodeArray → list nat → Tri).
Context (normal_at : NormalArray → nat → Normal).
Context (sha1_hexdigest : NormalArray → string).
Context (set_iter : gset nat → list nat).
Context (np_cast : np_dtype → list nat → Terms → string + Terms).
Context (numpy : numpy_version).

Local Abbreviation Mesh := (Singular.Mesh (NodeArray := NodeArray)).
Local Abbreviation kernel :=
  (Loop.kernel rule_points rule_weights face_integrals_yla_oijala take_nodes normal_at).
Local Abbreviation kernel_at :=
  (Singular.kernel_at rule_points rule_weights face_integrals_yla_oijala
     take_nodes normal_at).
Local Abbreviation visit :=
  (Singular.visit rule_points rule_weights face_integrals_yla_oijala
     take_nodes normal_at).
Local Abbreviation integrate :=
  (Singular.integrate rule_points rule_weights face_integrals_yla_oijala
     take_nodes normal_at set_iter).
Local Abbreviation visits := (Singular.visits set_iter).
Local Abbreviation finalize := (Singular.finalize np_cast numpy).
Local Abbreviation to_csr := (MultiSparse.to_csr np_cast numpy).
Local Abbreviation state :=
  (Singular.state (BasisId := BasisId) (Tol := Tol) (Terms := Terms)).
Local Abbreviation basis_t :=
  (Singular.LinearTriangleBasis (BasisId := BasisId) (NodeArray := NodeArray)).
Local Abbreviation basis_obj :=
  (Singular.basis_obj (BasisId := BasisId) (NodeArray := NodeArray)).
Local Abbreviation call :=
  (Singular.singular_impedance_rwg rule_points rule_weights
     face_integrals_yla_oijala take_nodes normal_at sha1_hexdigest set_iter
     np_cast numpy).
Local Abbreviation key_of b num_terms rel_tol normals :=
  ("RWG", Singular.id b, rel_tol, sha1_hexdigest normals, num_terms).
Implicit Types (st : state) (b : basis_t) (basis : basis_obj).
Implicit Types (msh : Mesh) (normals : NormalArray) (rel_tol : Tol).
Local Abbreviation efie_subs := Loop.efie_subs.
Local Abbreviation mfie_subs := Loop.mfie_subs.
Local Abbreviation off_diagonal := Loop.off_diagonal.
Local Abbreviation efie_ops :=
  (Loop.efie_ops rule_points rule_weights face_integrals_yla_oijala
     take_nodes normal_at).
Local Abbreviation t_mfie_ops :=
  (Loop.t_mfie_ops rule_points rule_weights face_integrals_yla_oijala
     take_nodes normal_at).
Local Abbreviation n_mfie_ops :=
  (Loop.n_mfie_ops rule_points rule_weights face_integrals_yla_oijala
     take_nodes normal_at).
Local Abbreviation stores_after :=
  (Loop.stores_after rule_points rule_weights face_integrals_yla_oijala
     take_nodes normal_at).
Local Abbreviation cache_inv :=
  (Loop.cache_inv (BasisId := BasisId) (Tol := Tol) (Terms := Terms)).
Local Abbreviation result_shaped := (Singular.result_shaped (Terms := Terms)).

(** *** Reading the arrays of the mesh *)

Lemma polygon_face msh q :
  q < length (Singular.polygons msh) → Singular.polygon msh q = inr (Loop.face msh q).
Proof.
  intros Hq. unfold Singular.polygon, Loop.face.
  by destruct (lookup_lt_is_Some_2 _ _ Hq) as [tri ->].
Qed.

Lemma polygon_inr msh q tri :
  Singular.polygon msh q = inr tri ↔ Singular.polygons msh !! q = Some tri.
Proof.
  unfold Singular.polygon. destruct (Singular.polygons msh !! q); [|done].
  split; by intros [= ->].
Qed.

Lemma polygon_error msh q e : Singular.polygon msh q = inl e → element_error e.
Proof.
  unfold Singular.polygon. destruct (Singular.polygons msh !! q); [done|].
  by intros [= <-].
Qed.

Lemma kernel_at_faces msh normals p q :
  Loop.faces msh (p, q) → kernel_at msh normals p q = inr (kernel msh normals p q).
Proof.
  intros [Hp Hq]. unfold Singular.kernel_at. simpl in *.
  by rewrite !polygon_face by done.
Qed.

Lemma kernel_at_inr msh normals p q k :
  kernel_at msh normals p q = inr k →
  Loop.faces msh (p, q) ∧ k = kernel msh normals p q.
Proof.
  unfold Singular.kernel_at.
  destruct (Singular.polygon msh q) as [e|tq] eqn:Hq; [done|]. cbn [bind].
  destruct (Singular.polygon msh p) as [e|tp] eqn:Hp; [done|]. cbn [bind].
  apply polygon_inr in Hq, Hp. intros [= <-]. split.
  - split; simpl; by eapply lookup_lt_Some.
  - unfold Loop.kernel, Loop.face. by rewrite Hq, Hp.
Qed.

Lemma kernel_at_error msh normals p q e :
  kernel_at msh normals p q = inl e → element_error e.
Proof.
  unfold Singular.kernel_at.
  destruct (Singular.polygon msh q) as [e'|tq] eqn:Hq.
  - intros [= <-]. by eapply polygon_error.
  - cbn [bind]. destruct (Singular.polygon msh p) as [e'|tp] eqn:Hp; [|done].
    intros [= <-]. by eapply polygon_error.
Qed.

(** *** The double loop as one loop over the visited pairs *)

Lemma integrate_visits msh normals num_terms :
  integrate msh normals num_terms
  = for_each_counting (visit msh normals) (Singular.new_stores num_terms) (visits msh).
Proof.
  unfold Singular.integrate, Singular.visits. rewrite for_each_counting_bind.
  apply for_each_counting_ext. intros s p [_ Hp]%elem_of_seq. simpl in Hp.
  unfold Singular.visit_observer, Singular.sharing_triangles, Singular.polygon.
  destruct (lookup_lt_is_Some_2 (Singular.polygons msh) p) as [tri ->]; [lia|].
  cbn [bind ret]. by rewrite for_each_counting_fmap.
Qed.

Lemma off_diagonal_snoc l pq :
  off_diagonal (l ++ [pq])
  = off_diagonal l ++ (if decide (pq.2 ≠ pq.1) then [pq] else []).
Proof.
  unfold Loop.off_diagonal. rewrite filter_app. f_equal.
Qed.

Lemma loop_faces msh normals num_terms l :
  Forall (Loop.faces msh) l →
  for_each_counting (visit msh normals) (Singular.new_stores num_terms) l
  = (inr (stores_after msh normals num_terms l), length l).
Proof.
  induction l as [|[p q] l IH] using rev_ind; [done|].
  intros [Hl Hpq%Forall_inv]%Forall_app.
  rewrite for_each_counting_snoc, IH by done.
  unfold Singular.visit, Singular.visit_source. cbn [fst snd].
  rewrite kernel_at_faces by done.
  rewrite length_app. cbn [length]. do 2 f_equal.
  unfold Loop.stores_after, Loop.efie_ops, Loop.t_mfie_ops, Loop.n_mfie_ops.
  rewrite off_diagonal_snoc, !fmap_app. simpl.
  destruct (decide (q ≠ p)); simpl.
  - by rewrite !of_ops_snoc.
  - by rewrite !app_nil_r, !of_ops_snoc.
Qed.

Lemma loop_inr msh normals s0 l s c :
  for_each_counting (visit msh normals) s0 l = (inr s, c) → Forall (Loop.faces msh) l.
Proof.
  revert s0 c. induction l as [|[p q] l IH]; intros s0 c; simpl; [constructor|].
  unfold Singular.visit at 1, Singular.visit_source. cbn [fst snd].
  destruct (kernel_at msh normals p q) as [e|k] eqn:Hk; [done|].
  unfold ret. cbv beta iota.
  destruct (for_each_counting _ _ l) as [r c'] eqn:Hl.
  intros [= -> <-]. constructor.
  - by apply kernel_at_inr in Hk as [? _].
  - by eapply IH.
Qed.

Lemma loop_error_raised msh normals s0 l e c :
  for_each_counting (visit msh normals) s0 l = (inl e, c) → element_error e.
Proof.
  apply (for_each_counting_error element_error). intros s [p q] e' c'.
  unfold Singular.visit, Singular.visit_source. cbn [fst snd].
  destruct (kernel_at msh normals p q) as [e''|k] eqn:Hk; [|done].
  intros [= <- _]. by eapply kernel_at_error.
Qed.

Lemma integrate_ok msh normals num_terms :
  Forall (Loop.faces msh) (visits msh) →
  integrate msh normals num_terms
  = (inr (stores_after msh normals num_terms (visits msh)), length (visits msh)).
Proof. intros Hf. by rewrite integrate_visits, loop_faces. Qed.

Lemma integrate_inr msh normals num_terms s c :
  integrate msh normals num_terms = (inr s, c) →
  Forall (Loop.faces msh) (visits msh)
  ∧ s = stores_after msh normals num_terms (visits msh)
  ∧ c = length (visits msh).
Proof.
  rewrite integrate_visits. intros Hloop.
  assert (Hf := Hloop). apply loop_inr in Hf.
  rewrite loop_faces in Hloop by done. by injection Hloop as <- <-.
Qed.

Lemma integrate_error msh normals num_terms e c :
  integrate msh normals num_terms = (inl e, c) → element_error e.
Proof. rewrite integrate_visits. apply loop_error_raised. Qed.

(** *** Finalisation *)

Lemma finalize_spec (s : Singular.stores) :
  finalize s
  = e ←! to_csr (Singular.T_EFIE s) F_order;
    t ←! to_csr (Singular.T_MFIE s) F_order;
    m ←! to_csr (Singular.N_MFIE s) F_order;
    ret [("T_EFIE", e); ("T_MFIE", t); ("N_MFIE", m)].
Proof.
  unfold Singular.finalize, Singular.stores_items. cbn [for_each fst snd].
  destruct (to_csr (Singular.T_EFIE s) F_order) as [e0|e]; [done|]. cbn [bind ret].
  destruct (to_csr (Singular.T_MFIE s) F_order) as [e0|t]; [done|]. cbn [bind ret].
  destruct (to_csr (Singular.N_MFIE s) F_order) as [e0|m]; [done|]. done.
Qed.

Lemma finalize_inr msh normals num_terms l obj :
  finalize (stores_after msh normals num_terms l) = inr obj →
  ∃ e t m,
    to_csr (of_ops (efie_subs num_terms) (efie_ops msh normals l)) F_order = inr e
    ∧ to_csr (of_ops (mfie_subs num_terms) (t_mfie_ops msh normals l)) F_order = inr t
    ∧ to_csr (of_ops (mfie_subs num_terms) (n_mfie_ops msh normals l)) F_order = inr m
    ∧ obj = [("T_EFIE", e); ("T_MFIE", t); ("N_MFIE", m)].
Proof.
  rewrite finalize_spec. unfold Loop.stores_after.
  cbn [Singular.T_EFIE Singular.T_MFIE Singular.N_MFIE].
  destruct (to_csr (of_ops (efie_subs num_terms) _) F_order) as [e0|e]; [done|].
  cbn [bind].
  destruct (to_csr (of_ops (mfie_subs num_terms) (t_mfie_ops _ _ _)) F_order)
    as [e0|t]; [done|]. cbn [bind].
  destruct (to_csr (of_ops (mfie_subs num_terms) (n_mfie_ops _ _ _)) F_order)
    as [e0|m]; [done|]. cbn [bind].
  intros [= <-]. by exists e, t, m.
Qed.

Lemma finalize_error msh normals num_terms l e :
  finalize (stores_after msh normals num_terms l) = inl e → loop_error e.
Proof.
  rewrite finalize_spec. unfold Loop.stores_after.
  cbn [Singular.T_EFIE Singular.T_MFIE Singular.N_MFIE].
  destruct (to_csr (of_ops (efie_subs num_terms) _) F_order) as [e0|e1] eqn:He.
  { intros [= <-]. by eapply to_csr_error. }
  cbn [bind].
  destruct (to_csr (of_ops (mfie_subs num_terms) (t_mfie_ops _ _ _)) F_order)
    as [e0|t] eqn:Ht.
  { intros [= <-]. by eapply to_csr_error. }
  cbn [bind].
  destruct (to_csr (of_ops (mfie_subs num_terms) (n_mfie_ops _ _ _)) F_order)
    as [e0|m] eqn:Hm; [|done].
  intros [= <-]. by eapply to_csr_error.
Qed.

(** *** Shape of a finalized result *)

Lemma bundle_shaped_of subs (ops : list ((nat * nat) * list Terms)) out :
  Forall (λ sub : np_dtype * option (list nat), sub.1 = float64) subs →
  to_csr (of_ops subs ops) F_order = inr out →
  Singular.bundle_shaped ((λ sub : np_dtype * option (list nat), default [] sub.2) <$> subs)
    out.
Proof.
  intros Hfl (das & idx & ptr & -> & Hdas & (? & ? & ? & _) & (? & _ & _ & ?))%to_csr_layout.
  exists (MultiSparse.len (of_ops subs ops)), das, idx, ptr.
  split_and!; try done.
  apply Forall2_fmap_r. generalize dependent (MultiSparse.len (of_ops subs ops)).
  intros n Hdas. intros. clear -Hdas Hfl. revert Hfl.
  induction Hdas as [|a sub das' subs' (Hd & Hs & Ho & _) _ IH]; [constructor|].
  intros [Hsub Hfl]%Forall_cons. constructor; [|by apply IH].
  split_and!; [congruence|done|done].
Qed.

Lemma finalize_shaped msh normals num_terms l obj :
  finalize (stores_after msh normals num_terms l) = inr obj →
  result_shaped num_terms obj.
Proof.
  intros (e & t & m & He & Ht & Hm & ->)%finalize_inr.
  exists e, t, m. split; [done|]. split_and!.
  - apply (bundle_shaped_of (efie_subs num_terms)) in He; [done|].
    by repeat constructor.
  - apply (bundle_shaped_of (mfie_subs num_terms)) in Ht; [done|].
    by repeat constructor.
  - apply (bundle_shaped_of (mfie_subs num_terms)) in Hm; [done|].
    by repeat constructor.
Qed.

(** *** Outcome of a call *)

Lemma call_hit b num_terms rel_tol normals st a :
  PyDict.get (Singular.cached_singular_terms st)
    (key_of b num_terms rel_tol normals) = Some a →
  call (Singular.IsLinearTriangleBasis b) num_terms rel_tol normals st
  = (inr a, st).
Proof. intros Hhit. unfold Singular.singular_impedance_rwg. by rewrite Hhit. Qed.

Lemma call_miss b num_terms rel_tol normals st :
  PyDict.get (Singular.cached_singular_terms st)
    (key_of b num_terms rel_tol normals) = None →
  call (Singular.IsLinearTriangleBasis b) num_terms rel_tol normals st
  = match integrate (Singular.mesh b) normals num_terms with
    | (inl e, c) =>
        (inl e, Singular.State (Singular.heap st) (Singular.cached_singular_terms st)
                  (Singular.kernel_calls st + c))
    | (inr s, c) =>
        match finalize s with
        | inl e =>
            (inl e, Singular.State (Singular.heap st) (Singular.cached_singular_terms st)
                      (Singular.kernel_calls st + c))
        | inr obj =>
            (inr (length (Singular.heap st)),
             Singular.State (Singular.heap st ++ [obj])
               (PyDict.set (Singular.cached_singular_terms st)
                  (key_of b num_terms rel_tol normals) (length (Singular.heap st)))
               (Singular.kernel_calls st + c))
        end
    end.
Proof.
  intros Hmiss. unfold Singular.singular_impedance_rwg. rewrite Hmiss.
  destruct (integrate (Singular.mesh b) normals num_terms) as [[e|s] c]; [done|].
  by destruct (finalize s).
Qed.

(** A successful call that misses the cache. *)
Lemma call_miss_inr b num_terms rel_tol normals st a st' :
  PyDict.get (Singular.cached_singular_terms st)
    (key_of b num_terms rel_tol normals) = None →
  call (Singular.IsLinearTriangleBasis b) num_terms rel_tol normals st = (inr a, st') →
  Forall (Loop.faces (Singular.mesh b)) (visits (Singular.mesh b))
  ∧ ∃ e t m,
      to_csr (of_ops (efie_subs num_terms)
                (efie_ops (Singular.mesh b) normals (visits (Singular.mesh b)))) F_order
      = inr e
      ∧ to_csr (of_ops (mfie_subs num_terms)
                  (t_mfie_ops (Singular.mesh b) normals (visits (Singular.mesh b))))
          F_order = inr t
      ∧ to_csr (of_ops (mfie_subs num_terms)
                  (n_mfie_ops (Singular.mesh b) normals (visits (Singular.mesh b))))
          F_order = inr m
      ∧ a = length (Singular.heap st)
      ∧ st' = Singular.State
                (Singular.heap st ++ [[("T_EFIE", e); ("T_MFIE", t); ("N_MFIE", m)]])
                (PyDict.set (Singular.cached_singular_terms st)
                   (key_of b num_terms rel_tol normals) (length (Singular.heap st)))
                (Singular.kernel_calls st + length (visits (Singular.mesh b))).
Proof.
  intros Hmiss. rewrite call_miss by done.
  destruct (integrate (Singular.mesh b) normals num_terms) as [[e0|s] c] eqn:Hint;
    [done|].
  apply integrate_inr in Hint as (Hf & -> & ->).
  destruct (finalize _) as [e0|obj] eqn:Hfin; [done|].
  apply finalize_inr in Hfin as (e & t & m & He & Ht & Hm & ->).
  intros [= <- <-]. split; [done|]. by exists e, t, m.
Qed.

(** The four outcomes of a call. *)
Lemma call_cases basis num_terms rel_tol normals st :
  (Singular.isinstance_LinearTriangleBasis basis = false
   ∧ call basis num_terms rel_tol normals st
     = (inl (ValueError "Basis functions are not RWG based"), st))
  ∨ (∃ b a,
       basis = Singular.IsLinearTriangleBasis b
       ∧ PyDict.get (Singular.cached_singular_terms st)
           (key_of b num_terms rel_tol normals) = Some a
       ∧ call basis num_terms rel_tol normals st = (inr a, st))
  ∨ (∃ b e c,
       basis = Singular.IsLinearTriangleBasis b
       ∧ PyDict.get (Singular.cached_singular_terms st)
           (key_of b num_terms rel_tol normals) = None
       ∧ loop_error e
       ∧ call basis num_terms rel_tol normals st
         = (inl e, Singular.State (Singular.heap st) (Singular.cached_singular_terms st)
                     (Singular.kernel_calls st + c)))
  ∨ (∃ b obj c,
       basis = Singular.IsLinearTriangleBasis b
       ∧ PyDict.get (Singular.cached_singular_terms st)
           (key_of b num_terms rel_tol normals) = None
       ∧ result_shaped num_terms obj
       ∧ call basis num_terms rel_tol normals st
         = (inr (length (Singular.heap st)),
            Singular.State (Singular.heap st ++ [obj])
              (PyDict.set (Singular.cached_singular_terms st)
                 (key_of b num_terms rel_tol normals) (length (Singular.heap st)))
              (Singular.kernel_calls st + c))).
Proof.
  destruct basis as [b|descr]; [|by left].
  destruct (PyDict.get (Singular.cached_singular_terms st)
              (key_of b num_terms rel_tol normals)) as [a|] eqn:Hg.
  { right. left. exists b, a. split_and!; [done|done|]. by apply call_hit. }
  right. right. rewrite call_miss by done.
  destruct (integrate (Singular.mesh b) normals num_terms) as [[e|s] c] eqn:Hint.
  { left. exists b, e, c. split_and!; [done|done| |done].
    by eapply element_error_loop, integrate_error. }
  apply integrate_inr in Hint as (Hf & -> & ->).
  destruct (finalize _) as [e|obj] eqn:Hfin.
  - left. exists b, e, (length (visits (Singular.mesh b))).
    split_and!; [done|done| |done]. by eapply finalize_error.
  - right. exists b, obj, (length (visits (Singular.mesh b))).
    split_and!; [done|done| |done]. by eapply finalize_shaped.
Qed.

(** *** Invariant of the process state *)

Lemma cache_inv_initial : cache_inv Singular.initial_state.
Proof. split; intros ? ?; simpl; intros; done. Qed.

Lemma cache_inv_call basis num_terms rel_tol normals st :
  cache_inv st → cache_inv (call basis num_terms rel_tol normals st).2.
Proof.
  intros [Hobj Hinj].
  destruct (call_cases basis num_terms rel_tol normals st)
    as [[_ ->]|[(b & a & _ & _ & ->)|[(b & e & c & _ & _ & _ & ->)
                                     |(b & obj & c & _ & Hg & Hsh & ->)]]];
    [done|done|done|].
  assert (Hlt : ∀ k a, PyDict.get (Singular.cached_singular_terms st) k = Some a →
                       a < length (Singular.heap st)).
  { intros k a Hk. destruct (Hobj k a Hk) as (obj' & Ha & _).
    by eapply lookup_lt_Some. }
  split; simpl.
  - intros k a.
    destruct (decide (key_of b num_terms rel_tol normals = k)) as [<-|Hne].
    + rewrite get_set_eq. intros [= <-]. exists obj. split; [|done].
      by apply list_lookup_middle.
    + rewrite get_set_ne by done. intros Hk.
      destruct (Hobj k a Hk) as (obj' & Ha & Hsh'). exists obj'. split; [|done].
      by apply lookup_app_l_Some.
  - intros k k' a.
    destruct (decide (key_of b num_terms rel_tol normals = k)) as [<-|Hne];
      destruct (decide (key_of b num_terms rel_tol normals = k')) as [<-|Hne'];
      rewrite ?get_set_eq, ?get_set_ne by done; try done.
    + intros [= <-] Hk'%Hlt. lia.
    + intros Hk%Hlt [= <-]. lia.
    + apply Hinj.
Qed.

Lemma reachable_inv st :
  Singular.reachable rule_points rule_weights face_integrals_yla_oijala
    take_nodes normal_at sha1_hexdigest set_iter np_cast numpy st →
  cache_inv st.
Proof.
  induction 1 as [|basis num_terms rel_tol normals st _ IH].
  - apply cache_inv_initial.
  - by apply cache_inv_call.
Qed.

(** *** The pairs visited by the double loop *)

Lemma elem_of_neighbours msh (tri : list nat) q :
  q ∈ Singular.neighbours msh tri ↔
  ∃ node, node ∈ tri ∧ q ∈ Singular.triangles_sharing_nodes msh node.
Proof.
  unfold Singular.neighbours.
  induction tri as [|node tri IH] using rev_ind.
  - simpl. split; [set_solver|]. intros (node & Hn & _). by apply elem_of_nil in Hn.
  - rewrite foldl_snoc, elem_of_union, IH. split.
    + intros [(n' & Hn' & Hq)|Hq].
      * exists n'. split; [|done]. apply elem_of_app. by left.
      * exists node. split; [|done]. apply elem_of_app. right.
        by apply list_elem_of_singleton.
    + intros (n' & [Hn'|Hn']%elem_of_app & Hq).
      * left. by exists n'.
      * right. by apply list_elem_of_singleton in Hn' as ->.
Qed.

Lemma visits_by_rows msh :
  visits msh = by_rows (length (Singular.polygons msh)) (Loop.sources set_iter msh).
Proof.
  unfold Singular.visits, by_rows, Loop.sources.
  apply Forall_bind_ext, Forall_forall. intros p _.
  by destruct (Singular.polygons msh !! p).
Qed.

Section visits.
Hypothesis set_iter_enum : ∀ X : gset nat, set_iter X ≡ₚ elements X.

Lemma elem_of_set_iter (X : gset nat) q : q ∈ set_iter X ↔ q ∈ X.
Proof using set_iter_enum. by rewrite set_iter_enum, elem_of_elements. Qed.

Lemma NoDup_set_iter (X : gset nat) : NoDup (set_iter X).
Proof using set_iter_enum. rewrite set_iter_enum. apply NoDup_elements. Qed.

Lemma NoDup_sources msh p : NoDup (Loop.sources set_iter msh p).
Proof using set_iter_enum.
  unfold Loop.sources. destruct (Singular.polygons msh !! p); [|constructor].
  apply NoDup_set_iter.
Qed.

Lemma elem_of_visits msh p q : (p, q) ∈ visits msh ↔ Loop.touches msh p q.
Proof using set_iter_enum.
  unfold Singular.visits, Loop.touches. rewrite list_elem_of_bind. split.
  - intros (p' & Hin & Hp%elem_of_seq).
    destruct (Singular.polygons msh !! p') as [tri|] eqn:Htri;
      [|by apply elem_of_nil in Hin].
    apply list_elem_of_fmap in Hin as (q' & [= -> ->] & Hq).
    apply elem_of_set_iter, elem_of_neighbours in Hq as (node & Hn & Hq).
    by exists tri, node.
  - intros (tri & node & Htri & Hn & Hq). exists p. split.
    + rewrite Htri. apply list_elem_of_fmap. exists q. split; [done|].
      apply elem_of_set_iter, elem_of_neighbours. by exists node.
    + apply elem_of_seq. apply lookup_lt_Some in Htri. lia.
Qed.

Lemma NoDup_visits msh : NoDup (visits msh).
Proof using set_iter_enum.
  unfold Singular.visits. apply NoDup_bind.
  - intros p1 p2 [p q] _ _ H1 H2.
    destruct (Singular.polygons msh !! p1); [|by apply elem_of_nil in H1].
    destruct (Singular.polygons msh !! p2); [|by apply elem_of_nil in H2].
    apply list_elem_of_fmap in H1 as (q1 & [= -> _] & _).
    by apply list_elem_of_fmap in H2 as (q2 & [= -> _] & _).
  - intros p _. destruct (Singular.polygons msh !! p); [|constructor].
    apply NoDup_fmap_2; [|apply NoDup_set_iter].
    by intros q1 q2 [= ->].
  - apply NoDup_seq.
Qed.
End visits.

(** The first member of a visited pair is a face. *)
Lemma visits_observer msh p q : (p, q) ∈ visits msh → p < length (Singular.polygons msh).
Proof.
  unfold Singular.visits. rewrite list_elem_of_bind.
  intros (p' & Hin & Hp%elem_of_seq).
  destruct (Singular.polygons msh !! p'); [|by apply elem_of_nil in Hin].
  apply list_elem_of_fmap in Hin as (q' & [= -> ->] & _). lia.
Qed.

(** *** Keys assigned to each store *)

Lemma efie_ops_keys msh normals l : (efie_ops msh normals l).*1 = l.
Proof.
  unfold Loop.efie_ops. rewrite <- list_fmap_compose.
  rewrite <- (list_fmap_id l) at 2. by apply list_fmap_ext.
Qed.

Lemma t_mfie_ops_keys msh normals l : (t_mfie_ops msh normals l).*1 = off_diagonal l.
Proof.
  unfold Loop.t_mfie_ops. rewrite <- list_fmap_compose.
  rewrite <- (list_fmap_id (off_diagonal l)) at 2. by apply list_fmap_ext.
Qed.

Lemma n_mfie_ops_keys msh normals l : (n_mfie_ops msh normals l).*1 = off_diagonal l.
Proof.
  unfold Loop.n_mfie_ops. rewrite <- list_fmap_compose.
  rewrite <- (list_fmap_id (off_diagonal l)) at 2. by apply list_fmap_ext.
Qed.

Lemma elem_of_off_diagonal l p q : (p, q) ∈ off_diagonal l ↔ q ≠ p ∧ (p, q) ∈ l.
Proof. unfold Loop.off_diagonal. by rewrite list_elem_of_filter. Qed.

Lemma stores_after_absent msh normals num_terms l pq :
  pq ∉ l →
  MultiSparse.getitem (Singular.T_EFIE (stores_after msh normals num_terms l)) pq
  = inl KeyError
  ∧ MultiSparse.getitem (Singular.T_MFIE (stores_after msh normals num_terms l)) pq
    = inl KeyError
  ∧ MultiSparse.getitem (Singular.N_MFIE (stores_after msh normals num_terms l)) pq
    = inl KeyError.
Proof.
  intros Hpq. unfold Loop.stores_after. simpl. destruct pq as [p q]. split_and!.
  - apply getitem_of_ops_absent. by rewrite efie_ops_keys.
  - apply getitem_of_ops_absent. rewrite t_mfie_ops_keys, elem_of_off_diagonal.
    by intros [_ ?].
  - apply getitem_of_ops_absent. rewrite n_mfie_ops_keys, elem_of_off_diagonal.
    by intros [_ ?].
Qed.

(** *** What a call does to the state *)

Lemma call_success_cached b num_terms rel_tol normals st a st' :
  call (Singular.IsLinearTriangleBasis b) num_terms rel_tol normals st = (inr a, st') →
  PyDict.get (Singular.cached_singular_terms st') (key_of b num_terms rel_tol normals)
  = Some a.
Proof.
  destruct (PyDict.get (Singular.cached_singular_terms st)
              (key_of b num_terms rel_tol normals)) as [a0|] eqn:Hg.
  - rewrite (call_hit _ _ _ _ _ a0) by done. by intros [= <- <-].
  - intros (_ & e & t & m & _ & _ & _ & -> & ->)%call_miss_inr; [|done].
    simpl. apply get_set_eq.
Qed.

Lemma call_preserves_entries basis num_terms rel_tol normals st k a :
  PyDict.get (Singular.cached_singular_terms st) k = Some a →
  PyDict.get (Singular.cached_singular_terms
                (call basis num_terms rel_tol normals st).2) k = Some a.
Proof.
  intros Hk.
  destruct (call_cases basis num_terms rel_tol normals st)
    as [[_ ->]|[(b & a0 & _ & _ & ->)|[(b & e & c & _ & _ & _ & ->)
                                      |(b & obj & c & _ & Hg & _ & ->)]]];
    [done|done|done|].
  simpl. rewrite get_set_ne; [done|]. intros Heq. congruence.
Qed.

Lemma call_preserves_heap basis num_terms rel_tol normals st a obj :
  Singular.heap st !! a = Some obj →
  Singular.heap (call basis num_terms rel_tol normals st).2 !! a = Some obj.
Proof.
  intros Ha.
  destruct (call_cases basis num_terms rel_tol normals st)
    as [[_ ->]|[(b & a0 & _ & _ & ->)|[(b & e & c & _ & _ & _ & ->)
                                      |(b & obj' & c & _ & Hg & _ & ->)]]];
    [done|done|done|].
  simpl. by apply lookup_app_l_Some.
Qed.
End singular_facts.

(** ** Stores whose items are stored unchanged *)

Section unchanged_facts.
Context {A : Type}.
Context (np_cast : np_dtype → list nat → A → string + A).
Context (numpy : numpy_version).
Implicit Types (subs : list (np_dtype * option (list nat))).
Implicit Types (ops : list ((nat * nat) * list A)).

Lemma int32_storable_small z : (0 ≤ z < 2 ^ 31)%Z → int32_storable numpy z.
Proof. intros ?. left. lia. Qed.

Lemma int32_storable_numpy2 z : int32_storable Numpy2 z → (z < 2 ^ 31)%Z.
Proof. intros [?|[? _]]; [lia|done]. Qed.

Lemma keyed_upto_of_ops subs ops :
  keyed_upto (MultiSparse.rows (of_ops subs ops))
    (num_rows_of (MultiSparse.rows (of_ops subs ops)))
  ≡ₚ MultiSparse.items (of_ops subs ops).
Proof.
  destruct (store_ok_of_ops subs ops) as [Hnd _].
  apply keyed_upto_items; [done|]. apply keys_lt_num_rows.
Qed.

Lemma to_csr_unchanged subs ops ord :
  ops ≠ [] →
  Forall (fits subs) ops →
  Forall (stored_unchanged np_cast subs) ops →
  (Z.of_nat (MultiSparse.len (of_ops subs ops)) < 2 ^ 31)%Z →
  MultiSparse.to_csr np_cast numpy (of_ops subs ops) ord
  = inr (arrays_of (of_ops subs ops) ord
           (entries_upto (MultiSparse.rows (of_ops subs ops))
              (num_rows_of (MultiSparse.rows (of_ops subs ops))))).
Proof.
  intros Hne Hfit Hun Hb. rewrite to_csr_of_ops by done.
  pose proof (keyed_upto_of_ops subs ops) as HL.
  pose proof (length_entries_upto _ (store_ok_of_ops subs ops)) as HN.
  set (m := of_ops subs ops) in *. set (rws := MultiSparse.rows m) in *.
  set (n := num_rows_of rws) in *.
  assert (HE : map_res (cast_entry np_cast numpy (MultiSparse.subarrays m))
                 (entries_upto rws n) = inr (entries_upto rws n)).
  { apply map_res_inr. apply Forall2_same_length_lookup. split; [done|].
    intros i ci ci' Hi Hi'. assert (ci' = ci) as -> by congruence.
    apply list_elem_of_lookup_2 in Hi.
    rewrite <- keyed_upto_entries in Hi.
    apply list_elem_of_fmap in Hi as (e & -> & He).
    rewrite HL in He.
    apply items_of_ops in He. unfold m. rewrite subarrays_of_ops.
    rewrite Forall_forall in Hfit, Hun.
    destruct (Hfit e He) as [Hlen Hcol].
    apply cast_entry_unchanged; simpl; [lia| |done].
    intros j x sub. apply (Hun e He). }
  assert (HP : np_array_int32 numpy (ptr_upto rws n) ord
               = inr (int32_array (ptr_upto rws n) ord)).
  { destruct (proj2 (np_array_int32_storable numpy (ptr_upto rws n) ord)) as [a Ha].
    - apply ptr_upto_storable. apply int32_storable_small. lia.
    - rewrite Ha. f_equal. by eapply np_array_int32_inr. }
  unfold csr_of. fold rws n. by rewrite HE, HP.
Qed.
End unchanged_facts.

(** * Properties of the singular-term store *)

Example demo_to_csr :
  MultiSparse.to_csr demo_cast Numpy2 (of_ops demo_subs demo_ops) F_order
  = inr [MultiSparse.DataArray (NdArray float64 [3; 2] F_order [Some 20; Some 10; Some 30]);
         MultiSparse.DataArray (NdArray float64 [3] F_order [Some 21; Some 11; Some 31]);
         MultiSparse.IndexArray (NdArray int32 [3] F_order [Some 3%Z; Some 1%Z; Some 0%Z]);
         MultiSparse.IndexArray
           (NdArray int32 [4] F_order [Some 0%Z; Some 1%Z; Some 1%Z; Some 3%Z])].
Proof. reflexivity. Qed.

Example demo_from_csr :
  (out ←! MultiSparse.to_csr demo_cast Numpy2 (of_ops demo_subs demo_ops) F_order;
   ret (Csr.from_csr out))
  = inr [((0, 3%Z), [Some 20; Some 21]);
         ((2, 1%Z), [Some 10; Some 11]);
         ((2, 0%Z), [Some 30; Some 31])].
Proof. reflexivity. Qed.

(** With numpy 1 a Python integer outside the signed 32-bit range is
    stored as its low 32 bits; numpy 2 refuses it. *)
Example int32_cast_wraps : int32_cast Numpy1 (2 ^ 31) = inr (- 2 ^ 31)%Z.
Proof. reflexivity. Qed.

Example int32_cast_refuses :
  int32_cast Numpy2 (2 ^ 31)
  = inl (OverflowError "Python integer 2147483648 out of bounds for int32").
Proof. reflexivity. Qed.

(** C3, in the form that holds: for every store built by [__setitem__]
    from at least one assignment, whose items have one element per
    declared sub-array, each element being stored by numpy as it is, and
    whose column indices and item count are below [2^31], [to_csr] returns
    arrays from which the (row, col) -> values mapping can be read back:
    the triples read from the arrays are exactly the items of the store,
    and a lookup in them agrees with [__getitem__]. *)
Theorem to_csr_roundtrip {A} (np_cast : np_dtype → list nat → A → string + A)
    (numpy : numpy_version) (subs : list (np_dtype * option (list nat)))
    (ops : list ((nat * nat) * list A)) (ord : mem_order) :
  ops ≠ [] →
  Forall (fits subs) ops →
  Forall (stored_unchanged np_cast subs) ops →
  (Z.of_nat (MultiSparse.len (of_ops subs ops)) < 2 ^ 31)%Z →
  ∃ out,
    MultiSparse.to_csr np_cast numpy (of_ops subs ops) ord = inr out
    ∧ Csr.from_csr out ≡ₚ as_read <$> MultiSparse.items (of_ops subs ops)
    ∧ ∀ row col,
        PyDict.get (Csr.from_csr out) (row, Z.of_nat col)
        = match MultiSparse.getitem (of_ops subs ops) (row, col) with
          | inr it => Some (Some <$> it)
          | inl _ => None
          end.
Proof.
  intros Hne Hfit Hun Hb. eexists. split; [by apply to_csr_unchanged|].
  set (m := of_ops subs ops) in *.
  pose proof (store_ok_of_ops subs ops) as Hok. fold m in Hok.
  assert (Hfit' : Forall (fits (MultiSparse.subarrays m)) (MultiSparse.items m)).
  { unfold m. rewrite subarrays_of_ops. by apply Forall_items_of_ops. }
  rewrite from_csr_arrays_of by done.
  set (L := keyed_upto (MultiSparse.rows m) (num_rows_of (MultiSparse.rows m))).
  assert (HL : L ≡ₚ MultiSparse.items m) by apply keyed_upto_of_ops.
  split; [by rewrite HL|].
  intros row col.
  assert (HndL : NoDup (PyDict.keys L)) by (apply keyed_upto_NoDup, Hok).
  rewrite get_as_read by done.
  destruct (MultiSparse.getitem m (row, col)) as [e|it] eqn:Hg.
  - destruct (PyDict.get L (row, col)) as [it|] eqn:HgL; [|done].
    apply get_Some_elem_of in HgL. rewrite HL in HgL.
    apply getitem_items in HgL; [|done]. congruence.
  - apply getitem_items in Hg; [|done]. rewrite <- HL in Hg.
    by rewrite (elem_of_get _ _ _ HndL Hg).
Qed.

Lemma to_csr_roundtrip_witness :
  ∃ out,
    MultiSparse.to_csr demo_cast Numpy2 (of_ops demo_subs demo_ops) F_order = inr out
    ∧ Csr.from_csr out ≡ₚ as_read <$> MultiSparse.items (of_ops demo_subs demo_ops)
    ∧ ∀ row col,
        PyDict.get (Csr.from_csr out) (row, Z.of_nat col)
        = match MultiSparse.getitem (of_ops demo_subs demo_ops) (row, col) with
          | inr it => Some (Some <$> it)
          | inl _ => None
          end.
Proof.
  apply (to_csr_roundtrip demo_cast Numpy2 demo_subs demo_ops F_order).
  - discriminate.
  - repeat constructor.
  - repeat constructor.
  - reflexivity.
Defined.

(** C3 as stated, for every store: an item with fewer elements than the
    store has declared sub-arrays is converted without error, and the
    mapping read back from the arrays is not the one the store holds: the
    cell the item does not reach is read as left by [np.empty]. *)
Lemma roundtrip_loses_short_item :
  MultiSparse.to_csr demo_cast Numpy2 (of_ops demo_short_subs demo_short_ops) F_order
  = inr demo_short_out
  ∧ MultiSparse.getitem (of_ops demo_short_subs demo_short_ops) (0, 1) = inr [7]
  ∧ PyDict.get (Csr.from_csr demo_short_out) (0, 1%Z) = Some [Some 7; None]
  ∧ ¬ (Csr.from_csr demo_short_out
       ≡ₚ as_read <$> MultiSparse.items (of_ops demo_short_subs demo_short_ops)).
Proof.
  split_and!; [reflexivity..|].
  intros Hp.
  assert (Hin : ((0, 1%Z), [Some 7; None]) ∈ Csr.from_csr demo_short_out)
    by (vm_compute; left).
  rewrite Hp in Hin. vm_compute in Hin.
  apply elem_of_cons in Hin as [Hin|Hin]; [discriminate|].
  apply elem_of_cons in Hin as [Hin|Hin]; [discriminate|].
  by apply elem_of_nil in Hin.
Qed.

(** C4, in the form that holds: whenever [to_csr] returns, it returns one
    data array per declared sub-array followed by exactly one index array
    and one row-pointer array.  Position by position the arrays hold the
    stored entries [es] ordered by ascending row index: the index array
    the column as an [int32], data array [j] the converted element [j] of
    the item, or nothing where the item has no such element; the row
    pointers count the entries of the rows below each row, so they start
    at 0, never decrease and end at the number of stored items.  With
    numpy 2, or when the column indices and the item count are below
    [2^31], the [int32] cells hold these numbers themselves. *)
Theorem to_csr_row_order {A} (np_cast : np_dtype → list nat → A → string + A)
    (numpy : numpy_version) (subs : list (np_dtype * option (list nat)))
    (ops : list ((nat * nat) * list A)) (ord : mem_order)
    (out : list (MultiSparse.csr_array A)) :
  MultiSparse.to_csr np_cast numpy (of_ops subs ops) ord = inr out →
  ∃ (das : list (ndarray A)) (idx ptr : ndarray Z)
    (es : list ((nat * nat) * list A)) (ps : list nat) (num_rows : nat),
    out = (MultiSparse.DataArray <$> das)
            ++ [MultiSparse.IndexArray idx; MultiSparse.IndexArray ptr]
    ∧ length das = length subs
    ∧ es ≡ₚ MultiSparse.items (of_ops subs ops)
    ∧ es ≠ []
    ∧ StronglySorted le ((λ e, e.1.1) <$> es)
    ∧ cells idx = (λ e, Some (int32_of_int (Z.of_nat e.1.2))) <$> es
    ∧ (∀ j a sub, das !! j = Some a → subs !! j = Some sub →
                  cells a = (λ e, e.2 !! j ≫= np_stored np_cast sub) <$> es)
    ∧ cells ptr = (λ p, Some (int32_of_int (Z.of_nat p))) <$> ps
    ∧ ps = (λ r, length (filter (λ e, e.1.1 < r) es)) <$> seq 0 (S num_rows)
    ∧ head ps = Some 0
    ∧ last ps = Some (MultiSparse.len (of_ops subs ops))
    ∧ StronglySorted le ps
    ∧ (numpy = Numpy2
       ∨ (Forall (λ op, (Z.of_nat op.1.2 < 2 ^ 31)%Z) ops
          ∧ (Z.of_nat (MultiSparse.len (of_ops subs ops)) < 2 ^ 31)%Z) →
       cells idx = (λ e, Some (Z.of_nat e.1.2)) <$> es
       ∧ cells ptr = (λ p, Some (Z.of_nat p)) <$> ps).
Proof.
  intros Hout. set (m := of_ops subs ops) in *.
  pose proof (store_ok_of_ops subs ops) as Hok. fold m in Hok.
  set (rws := MultiSparse.rows m). set (n := num_rows_of rws).
  pose proof (length_entries_upto m Hok) as HN. fold rws n in HN.
  assert (HL : keyed_upto rws n ≡ₚ MultiSparse.items m) by apply keyed_upto_of_ops.
  assert (Hconv : convertible np_cast numpy m).
  { apply (csr_of_is_inr np_cast numpy m ord Hok). exists out.
    destruct (to_csr_inr _ _ _ _ _ _ Hout) as [Hne _].
    unfold m. by rewrite <- to_csr_of_ops. }
  destruct (to_csr_inr _ _ _ _ _ _ Hout) as (Hne & es' & Hes & ->).
  fold m rws n in Hes.
  pose proof (length_converted _ _ _ _ _ Hes) as Hlen. fold m in Hlen.
  pose proof (converted_cols _ _ _ _ _ Hes) as Hcols.
  assert (Hidx : idx_cells (MultiSparse.len m) es'
                 = (λ e : (nat * nat) * list A, Some (int32_of_int (Z.of_nat e.1.2)))
                     <$> keyed_upto rws n).
  { rewrite <- Hlen, idx_cells_full.
    change (λ ci : nat * list A, Some (int32_of_int (Z.of_nat ci.1)))
      with ((λ c, Some (int32_of_int (Z.of_nat c))) ∘ (fst : nat * list A → nat)).
    rewrite list_fmap_compose, Hcols, <- keyed_upto_entries.
    by rewrite <- !list_fmap_compose. }
  exists (das_of subs ord (MultiSparse.len m) es'),
    (NdArray int32 [MultiSparse.len m] ord (idx_cells (MultiSparse.len m) es')),
    (int32_array (ptr_upto rws n) ord),
    (keyed_upto rws n), (ptr_upto rws n), n.
  split_and!.
  - unfold arrays_of, m. by rewrite subarrays_of_ops.
  - unfold das_of. by rewrite length_imap.
  - done.
  - intros Hnil. apply (f_equal length) in Hnil.
    rewrite HL, <- len_items in Hnil. simpl in Hnil.
    rewrite <- Hlen in Hnil.
    destruct ops as [|op ops' _] using rev_ind; [done|].
    pose proof (getitem_setitem_eq (of_ops subs ops') op.1 op.2) as Hg.
    destruct op as [[r c] it]. apply getitem_items in Hg;
      [|apply store_ok_setitem, store_ok_of_ops].
    rewrite <- of_ops_snoc in Hg. fold m in Hg.
    rewrite Hlen, len_items in Hnil.
    destruct (MultiSparse.items m); [by apply elem_of_nil in Hg|done].
  - apply keyed_upto_sorted.
  - done.
  - intros j a sub. unfold das_of. rewrite list_lookup_imap.
    intros Ha Hsub. rewrite Hsub in Ha. injection Ha as <-. cbn [with_cells cells].
    rewrite <- Hlen, dat_cells_full.
    rewrite (converted_cells _ _ _ _ _ j sub Hes) by done.
    rewrite <- keyed_upto_entries. by rewrite <- list_fmap_compose.
  - done.
  - apply ptr_upto_counts.
  - apply ptr_upto_head.
  - by rewrite ptr_upto_last, HN.
  - apply ptr_upto_sorted.
  - intros Hplain.
    assert (Hb : Forall (λ e : (nat * nat) * list A, (Z.of_nat e.1.2 < 2 ^ 31)%Z)
                   (keyed_upto rws n)
                 ∧ (Z.of_nat (MultiSparse.len m) < 2 ^ 31)%Z).
    { destruct Hconv as [Hitems Hlen']. destruct Hplain as [->|[Hc Hl]].
      - split; [|by apply int32_storable_numpy2].
        rewrite HL. eapply Forall_impl; [exact Hitems|].
        intros e (_ & _ & He). by apply int32_storable_numpy2.
      - split; [|done]. rewrite HL. by apply Forall_items_of_ops. }
    destruct Hb as [Hbc Hbl]. split.
    + cbn [cells]. rewrite Hidx. apply Forall_fmap_ext.
      eapply Forall_impl; [exact Hbc|]. intros e He. cbv beta in He. simpl.
      f_equal. apply int32_of_int_small. lia.
    + unfold int32_array. cbn [cells]. apply Forall_fmap_ext, Forall_forall.
      intros p (k & -> & [_ Hk]%elem_of_seq)%list_elem_of_fmap.
      f_equal. apply int32_of_int_small.
      pose proof (length_entries_upto_mono rws k n). lia.
Qed.

Lemma to_csr_row_order_witness :
  ∃ (das : list (ndarray nat)) (idx ptr : ndarray Z)
    (es : list ((nat * nat) * list nat)) (ps : list nat) (num_rows : nat),
    demo_out F_order
    = (MultiSparse.DataArray <$> das)
        ++ [MultiSparse.IndexArray idx; MultiSparse.IndexArray ptr]
    ∧ length das = length demo_subs
    ∧ es ≡ₚ MultiSparse.items (of_ops demo_subs demo_ops)
    ∧ es ≠ []
    ∧ StronglySorted le ((λ e, e.1.1) <$> es)
    ∧ cells idx = (λ e, Some (int32_of_int (Z.of_nat e.1.2))) <$> es
    ∧ (∀ j a sub, das !! j = Some a → demo_subs !! j = Some sub →
                  cells a = (λ e, e.2 !! j ≫= np_stored demo_cast sub) <$> es)
    ∧ cells ptr = (λ p, Some (int32_of_int (Z.of_nat p))) <$> ps
    ∧ ps = (λ r, length (filter (λ e, e.1.1 < r) es)) <$> seq 0 (S num_rows)
    ∧ head ps = Some 0
    ∧ last ps = Some (MultiSparse.len (of_ops demo_subs demo_ops))
    ∧ StronglySorted le ps
    ∧ (Numpy2 = Numpy2
       ∨ (Forall (λ op, (Z.of_nat op.1.2 < 2 ^ 31)%Z) demo_ops
          ∧ (Z.of_nat (MultiSparse.len (of_ops demo_subs demo_ops)) < 2 ^ 31)%Z) →
       cells idx = (λ e, Some (Z.of_nat e.1.2)) <$> es
       ∧ cells ptr = (λ p, Some (Z.of_nat p)) <$> ps).
Proof.
  apply (to_csr_row_order demo_cast Numpy2 demo_subs demo_ops F_order (demo_out F_order)).
  reflexivity.
Defined.

(** C4 as stated, for every non-empty store: a column index that does
    not fit a signed 32-bit integer makes [to_csr] raise with numpy 2, so
    nothing is emitted for this store although it holds an entry. *)
Lemma to_csr_raises_on_wide_column :
  MultiSparse.len (of_ops [(float64, None)] [((0, Z.to_nat (2 ^ 31)), [1])]) = 1
  ∧ MultiSparse.to_csr demo_cast Numpy2
      (of_ops [(float64, None)] [((0, Z.to_nat (2 ^ 31)), [1])]) F_order
    = inl (OverflowError "Python integer 2147483648 out of bounds for int32").
Proof.
  split; [reflexivity|].
  rewrite to_csr_of_ops by discriminate.
  unfold csr_of, of_ops, MultiSparse.setitem, MultiSparse.init, num_rows_of, entries_upto.
  cbn -[Z.to_nat Z.pow int32_cast].
  unfold cast_entry. rewrite decide_True by done.
  cbn -[Z.to_nat Z.pow int32_cast].
  rewrite Z2Nat.id by lia. reflexivity.
Qed.

(** C10, in the form that holds: on a store that never received an
    assignment [to_csr] raises the error of [max] on an empty sequence;
    on a store that received at least one it returns exactly when the
    store can be converted (no item longer than the declared sub-arrays,
    every element accepted by numpy for its sub-array, column indices and
    item count accepted by the [int32] arrays); and whenever it returns,
    the index array has as many cells as the store has items. *)
Theorem to_csr_succeeds_iff_convertible {A}
    (np_cast : np_dtype → list nat → A → string + A) (numpy : numpy_version)
    (subs : list (np_dtype * option (list nat)))
    (ops : list ((nat * nat) * list A)) (ord : mem_order) :
  (ops = [] →
     MultiSparse.len (of_ops subs ops) = 0
     ∧ MultiSparse.to_csr np_cast numpy (of_ops subs ops) ord
       = inl (ValueError "max() arg is an empty sequence"))
  ∧ (ops ≠ [] →
     0 < MultiSparse.len (of_ops subs ops)
     ∧ ((∃ out, MultiSparse.to_csr np_cast numpy (of_ops subs ops) ord = inr out)
        ↔ convertible np_cast numpy (of_ops subs ops)))
  ∧ (∀ out,
       MultiSparse.to_csr np_cast numpy (of_ops subs ops) ord = inr out →
       ∃ das idx ptr,
         out = (MultiSparse.DataArray <$> das)
                 ++ [MultiSparse.IndexArray idx; MultiSparse.IndexArray ptr]
         ∧ shape idx = [MultiSparse.len (of_ops subs ops)]
         ∧ length (cells idx) = MultiSparse.len (of_ops subs ops)).
Proof.
  split_and!.
  - by intros ->.
  - intros Hne. split.
    + destruct ops as [|op ops _] using rev_ind; [done|].
      rewrite of_ops_snoc, len_items.
      pose proof (getitem_setitem_eq (of_ops subs ops) op.1 op.2) as Hg.
      destruct op as [[r c] it]. apply getitem_items in Hg.
      * destruct (MultiSparse.items _); [by apply elem_of_nil in Hg|simpl; lia].
      * apply store_ok_setitem, store_ok_of_ops.
    + rewrite to_csr_of_ops by done. apply csr_of_is_inr, store_ok_of_ops.
  - intros out (das & idx & ptr & -> & _ & (_ & Hsh & _ & Hlen) & _)%to_csr_layout.
    by exists das, idx, ptr.
Qed.

(** C10 as stated, for every store with at least one entry: a store
    holding an item with more elements than it has declared sub-arrays is
    not empty, and [to_csr] raises on it. *)
Lemma to_csr_raises_on_nonempty_store :
  MultiSparse.len (of_ops [(float64, None)] [((0, 0), [1; 2])]) = 1
  ∧ MultiSparse.to_csr demo_cast Numpy2
      (of_ops [(float64, None)] [((0, 0), [1; 2])]) F_order
    = inl (IndexError "list index out of range").
Proof. split; reflexivity. Qed.

(** * Properties of the singular-quadrature cache *)

Section cache_properties.
Context {BasisId Tol NodeArray NormalArray Tri Normal RulePoints RuleWeights Terms : Type}.
Context `{EqDecision BasisId, EqDecision Tol}.
Context (rule_points : RulePoints) (rule_weights : RuleWeights).
Context (face_integrals_yla_oijala :
           Tri → RulePoints → RuleWeights → Tri → Normal
           → Singular.face_integrals (Terms := Terms)).
Context (take_nodes : NodeArray → list nat → Tri).
Context (normal_at : NormalArray → nat → Normal).
Context (sha1_hexdigest : NormalArray → string).
Context (set_iter : gset nat → list nat).
Context (np_cast : np_dtype → list nat → Terms → string + Terms).
Context (numpy : numpy_version).

Local Abbreviation state :=
  (Singular.state (BasisId := BasisId) (Tol := Tol) (Terms := Terms)).
Local Abbreviation basis_t :=
  (Singular.LinearTriangleBasis (BasisId := BasisId) (NodeArray := NodeArray)).
Local Abbreviation basis_obj :=
  (Singular.basis_obj (BasisId := BasisId) (NodeArray := NodeArray)).
Local Abbreviation call :=
  (Singular.singular_impedance_rwg rule_points rule_weights
     face_integrals_yla_oijala take_nodes normal_at sha1_hexdigest set_iter
     np_cast numpy).
Local Abbreviation reachable :=
  (Singular.reachable rule_points rule_weights
     face_integrals_yla_oijala take_nodes normal_at sha1_hexdigest set_iter
     np_cast numpy).
Local Abbreviation key_of b num_terms rel_tol normals :=
  ("RWG", Singular.id b, rel_tol, sha1_hexdigest normals, num_terms).
Implicit Types (st : state) (b : basis_t) (basis : basis_obj).
Implicit Types (normals : NormalArray) (rel_tol : Tol).
Local Abbreviation stores_after :=
  (Loop.stores_after rule_points rule_weights face_integrals_yla_oijala
     take_nodes normal_at).
Local Abbreviation cache_inv :=
  (Loop.cache_inv (BasisId := BasisId) (Tol := Tol) (Terms := Terms)).
Local Abbreviation result_shaped := (Singular.result_shaped (Terms := Terms)).

(** C1: once a call has returned the result at address [a], every later
    call with the same key material (basis identity, tolerance, normals
    fingerprint, term count) returns the very same object [a] and leaves
    the whole state - heap, cache, number of kernel evaluations - as it
    was; a successful request whose tolerance or term count differs is
    answered by a different object, and both keys keep their own entry. *)
Theorem cache_hit_same_object b num_terms rel_tol normals st a st1 :
  reachable st →
  call (Singular.IsLinearTriangleBasis b) num_terms rel_tol normals st = (inr a, st1) →
  (∀ b' normals',
     Singular.id b' = Singular.id b →
     sha1_hexdigest normals' = sha1_hexdigest normals →
     call (Singular.IsLinearTriangleBasis b') num_terms rel_tol normals' st1
     = (inr a, st1))
  ∧ (∀ b' normals' num_terms' rel_tol' a' st2,
       (rel_tol', num_terms') ≠ (rel_tol, num_terms) →
       call (Singular.IsLinearTriangleBasis b') num_terms' rel_tol' normals' st1
       = (inr a', st2) →
       a' ≠ a
       ∧ Singular.heap st2 !! a = Singular.heap st1 !! a
       ∧ PyDict.get (Singular.cached_singular_terms st2)
           (key_of b num_terms rel_tol normals) = Some a
       ∧ PyDict.get (Singular.cached_singular_terms st2)
           (key_of b' num_terms' rel_tol' normals') = Some a').
Proof.
  intros Hreach Hcall.
  assert (Hkey := Hcall). apply call_success_cached in Hkey.
  assert (Hinv1 : cache_inv st1).
  { replace st1 with
      (call (Singular.IsLinearTriangleBasis b) num_terms rel_tol normals st).2
      by by rewrite Hcall.
    eapply cache_inv_call, reachable_inv, Hreach. }
  split.
  - intros b' normals' Hid Hsha.
    apply call_hit. by rewrite Hid, Hsha.
  - intros b' normals' num_terms' rel_tol' a' st2 Hne Hcall2.
    assert (Hkey' := Hcall2). apply call_success_cached in Hkey'.
    assert (Hst2 : st2 = (call (Singular.IsLinearTriangleBasis b') num_terms'
                            rel_tol' normals' st1).2) by by rewrite Hcall2.
    assert (Hkey2 : PyDict.get (Singular.cached_singular_terms st2)
                      (key_of b num_terms rel_tol normals) = Some a).
    { rewrite Hst2. by apply call_preserves_entries. }
    assert (Hinv2 : cache_inv st2).
    { rewrite Hst2. by eapply cache_inv_call. }
    split_and!; [|  |done|done].
    + intros ->. destruct Hinv2 as [_ Hinj].
      pose proof (Hinj _ _ _ Hkey2 Hkey') as Heq. congruence.
    + destruct Hinv1 as [Hobj _]. destruct (Hobj _ _ Hkey) as (obj & Ha & _).
      rewrite Ha, Hst2. by apply call_preserves_heap.
Qed.

(** C5: the call fails with the error raised for non-RWG bases exactly
    when the basis object is not a [LinearTriangleBasis]; in that case the
    state is returned untouched whatever it holds: the cache is neither
    read nor written and no kernel is evaluated. *)
Theorem unsupported_basis_fails_fast basis num_terms rel_tol normals st :
  ((call basis num_terms rel_tol normals st).1
   = inl (ValueError "Basis functions are not RWG based")
   ↔ Singular.isinstance_LinearTriangleBasis basis = false)
  ∧ (Singular.isinstance_LinearTriangleBasis basis = false →
     call basis num_terms rel_tol normals st
     = (inl (ValueError "Basis functions are not RWG based"), st)).
Proof.
  destruct basis as [b|descr]; [|done].
  cbn [Singular.isinstance_LinearTriangleBasis].
  split; [|done]. split; [|done].
  destruct (call_cases rule_points rule_weights face_integrals_yla_oijala take_nodes
              normal_at sha1_hexdigest set_iter np_cast numpy
              (Singular.IsLinearTriangleBasis b) num_terms rel_tol normals st)
    as [[Hi _]|[(b' & a & _ & _ & ->)|[(b' & e & c & _ & _ & He & ->)
                                     |(b' & obj & c & _ & _ & _ & ->)]]];
    [done|done| |done].
  cbn [fst]. intros [= ->]. discriminate He.
Qed.


Local Abbreviation Mesh := (Singular.Mesh (NodeArray := NodeArray)).
Local Abbreviation integrate :=
  (Singular.integrate rule_points rule_weights face_integrals_yla_oijala
     take_nodes normal_at set_iter).
Local Abbreviation visit :=
  (Singular.visit rule_points rule_weights face_integrals_yla_oijala
     take_nodes normal_at).
Local Abbreviation visits := (Singular.visits set_iter).
Local Abbreviation kernel_at :=
  (Singular.kernel_at rule_points rule_weights face_integrals_yla_oijala
     take_nodes normal_at).

(** C2: in the stores built by an integration loop that runs to its end,
    neither magnetic store has an entry at a self pair [(p, p)], for any
    [p]; for every face [p] of the mesh, every node of [p] and every face
    [q] that the adjacency of the mesh lists at that node, the electric
    store holds at [(p, q)] the two electric outputs of the kernel for
    this pair, and the magnetic stores hold its magnetic outputs when
    [q <> p]; in particular the electric store has an entry at [(p, p)]
    as soon as the adjacency lists [p] at one of its own nodes. *)
Theorem mfie_excludes_self_pairs (msh : Mesh) normals num_terms s calls :
  (∀ X : gset nat, set_iter X ≡ₚ elements X) →
  Singular.integrate rule_points rule_weights face_integrals_yla_oijala
    take_nodes normal_at set_iter msh normals num_terms = (inr s, calls) →
  (∀ p, MultiSparse.getitem (Singular.T_MFIE s) (p, p) = inl KeyError
        ∧ MultiSparse.getitem (Singular.N_MFIE s) (p, p) = inl KeyError)
  ∧ (∀ p tri node q,
       Singular.polygons msh !! p = Some tri →
       node ∈ tri →
       q ∈ Singular.triangles_sharing_nodes msh node →
       ∃ k, kernel_at msh normals p q = inr k
            ∧ MultiSparse.getitem (Singular.T_EFIE s) (p, q)
              = inr [Singular.res1 k; Singular.res0 k]
            ∧ (q ≠ p →
               MultiSparse.getitem (Singular.T_MFIE s) (p, q) = inr [Singular.res3 k]
               ∧ MultiSparse.getitem (Singular.N_MFIE s) (p, q)
                 = inr [Singular.res2 k]))
  ∧ (∀ p tri node,
       Singular.polygons msh !! p = Some tri →
       node ∈ tri →
       p ∈ Singular.triangles_sharing_nodes msh node →
       ∃ k, kernel_at msh normals p p = inr k
            ∧ MultiSparse.getitem (Singular.T_EFIE s) (p, p)
              = inr [Singular.res1 k; Singular.res0 k]).
Proof.
  intros Henum (Hf & -> & ->)%integrate_inr.
  assert (Hpair : ∀ p tri node q,
            Singular.polygons msh !! p = Some tri →
            node ∈ tri →
            q ∈ Singular.triangles_sharing_nodes msh node →
            ∃ k, kernel_at msh normals p q = inr k
                 ∧ MultiSparse.getitem
                     (Singular.T_EFIE (stores_after msh normals num_terms (visits msh)))
                     (p, q)
                   = inr [Singular.res1 k; Singular.res0 k]
                 ∧ (q ≠ p →
                    MultiSparse.getitem
                      (Singular.T_MFIE (stores_after msh normals num_terms (visits msh)))
                      (p, q) = inr [Singular.res3 k]
                    ∧ MultiSparse.getitem
                        (Singular.N_MFIE (stores_after msh normals num_terms (visits msh)))
                        (p, q) = inr [Singular.res2 k])).
  { intros p tri node q Htri Hnode Hq.
    assert (Hin : (p, q) ∈ visits msh).
    { apply elem_of_visits; [done|]. by exists tri, node. }
    assert (Hfaces : Loop.faces msh (p, q)) by by eapply Forall_forall in Hf.
    eexists. split; [by apply kernel_at_faces|].
    unfold Loop.stores_after.
    cbn [Singular.T_EFIE Singular.T_MFIE Singular.N_MFIE]. split.
    - apply getitem_of_ops_present.
      + rewrite efie_ops_keys. by apply NoDup_visits.
      + unfold Loop.efie_ops. apply list_elem_of_fmap. by exists (p, q).
    - intros Hne.
      assert (Hoff : (p, q) ∈ Loop.off_diagonal (visits msh))
        by by apply elem_of_off_diagonal.
      split.
      + apply getitem_of_ops_present.
        * rewrite t_mfie_ops_keys. by apply NoDup_filter, NoDup_visits.
        * unfold Loop.t_mfie_ops. apply list_elem_of_fmap. by exists (p, q).
      + apply getitem_of_ops_present.
        * rewrite n_mfie_ops_keys. by apply NoDup_filter, NoDup_visits.
        * unfold Loop.n_mfie_ops. apply list_elem_of_fmap. by exists (p, q). }
  split_and!.
  - intros p. unfold Loop.stores_after. cbn [Singular.T_MFIE Singular.N_MFIE]. split.
    + apply getitem_of_ops_absent. rewrite t_mfie_ops_keys, elem_of_off_diagonal.
      by intros [? _].
    + apply getitem_of_ops_absent. rewrite n_mfie_ops_keys, elem_of_off_diagonal.
      by intros [? _].
  - exact Hpair.
  - intros p tri node Htri Hnode Hp.
    destruct (Hpair p tri node p Htri Hnode Hp) as (k & Hk & Hg & _). by exists k.
Qed.

(** C7, in the form that holds: the integration loop assigns each
    (observer, source) key once: it is one loop of the loop body over the
    visited pairs, no pair is visited twice, and when a pair is about to
    be visited none of the three stores holds its key yet.  The store
    itself does not refuse a second assignment: assigning to a key makes
    the new item the one read back, whatever was held there. *)
Theorem loop_assigns_each_key_once (msh : Mesh) normals num_terms :
  (∀ X : gset nat, set_iter X ≡ₚ elements X) →
  integrate msh normals num_terms
  = for_each_counting (visit msh normals) (Singular.new_stores num_terms) (visits msh)
  ∧ NoDup (visits msh)
  ∧ (∀ pre pq post s c,
       visits msh = pre ++ pq :: post →
       for_each_counting (visit msh normals) (Singular.new_stores num_terms) pre
       = (inr s, c) →
       MultiSparse.getitem (Singular.T_EFIE s) pq = inl KeyError
       ∧ MultiSparse.getitem (Singular.T_MFIE s) pq = inl KeyError
       ∧ MultiSparse.getitem (Singular.N_MFIE s) pq = inl KeyError)
  ∧ (∀ (m : MultiSparse.t Terms) idx item,
       MultiSparse.getitem (MultiSparse.setitem m idx item) idx = inr item).
Proof.
  intros Henum. split_and!.
  - apply integrate_visits.
  - by apply NoDup_visits.
  - intros pre pq post s c Hsplit Hpre.
    assert (Hf := Hpre). apply loop_inr in Hf.
    rewrite loop_faces in Hpre by done. injection Hpre as <- _.
    apply stores_after_absent.
    pose proof (NoDup_visits _ Henum msh) as Hnd. rewrite Hsplit in Hnd.
    apply NoDup_app in Hnd as (_ & Hdis & _).
    intros Hin. apply (Hdis pq Hin). apply elem_of_cons. by left.
  - intros m idx item. apply getitem_setitem_eq.
Qed.
End cache_properties.

(** C7, second half as stated: the store does replace a value already
    held; an assignment to a key that is present overwrites its item. *)
Lemma setitem_replaces_existing :
  ¬ (∀ (m : MultiSparse.t nat) idx old new,
       MultiSparse.getitem m idx = inr old →
       MultiSparse.getitem (MultiSparse.setitem m idx new) idx = inr old).
Proof.
  intros Hno.
  specialize (Hno (MultiSparse.setitem (MultiSparse.init [(float64, None)]) (0, 0) [1])
                  (0, 0) [1] [2] eq_refl).
  discriminate Hno.
Qed.

(** ** The cache on a concrete mesh *)

Lemma demo_set_iter_enum (X : gset nat) : demo_set_iter X ≡ₚ elements X.
Proof. apply merge_sort_Permutation. Qed.

(** The loop visits the two touching triangles, then the third one. *)
Example demo_visits :
  Singular.visits demo_set_iter demo_mesh = [(0, 0); (0, 1); (1, 0); (1, 1); (2, 2)].
Proof. vm_compute. reflexivity. Qed.

(** The first call computes five pairs and caches the result at address 0. *)
Example demo_first_call :
  demo_call (Singular.IsLinearTriangleBasis demo_basis) 2 1%Z tt Singular.initial_state
  = (inr 0, demo_state)
  ∧ Singular.kernel_calls demo_state = 5
  ∧ Singular.cached_singular_terms demo_state = [(("RWG", 7, 1%Z, "da39a3ee", 2), 0)].
Proof. vm_compute. done. Qed.

(** The same request again is answered from the cache: same address, same
    state. *)
Example demo_repeated_call :
  demo_call (Singular.IsLinearTriangleBasis demo_basis) 2 1%Z tt demo_state
  = (inr 0, demo_state).
Proof. vm_compute. done. Qed.

(** A request with another tolerance is computed afresh and gets its own
    object and its own entry. *)
Example demo_other_tolerance :
  let r := demo_call (Singular.IsLinearTriangleBasis demo_basis) 2 5%Z tt demo_state in
  r.1 = inr 1
  ∧ Singular.kernel_calls r.2 = 10
  ∧ Singular.cached_singular_terms r.2
    = [(("RWG", 7, 1%Z, "da39a3ee", 2), 0); (("RWG", 7, 5%Z, "da39a3ee", 2), 1)].
Proof. vm_compute. done. Qed.

(** On a mesh made of one triangle the magnetic stores stay empty and
    the conversion of the first of them fails. *)
Example demo_single_triangle :
  (demo_call (Singular.IsLinearTriangleBasis demo_single_basis) 2 1%Z tt
     Singular.initial_state).1
  = inl (ValueError "max() arg is an empty sequence").
Proof. vm_compute. done. Qed.

(** A mesh whose adjacency lists a face that the mesh does not have: the
    loop is left by the [IndexError] of [polygons[q]], after the kernel
    evaluation of the pair visited before. *)
Example demo_dangling_face :
  Singular.integrate tt tt demo_kernel demo_take_nodes demo_normal_at demo_set_iter
    {| Singular.polygons := [[0; 1; 2]];
       Singular.nodes := tt;
       Singular.triangles_sharing_nodes := λ _, {[0; 5]} |} tt 2
  = (inl (IndexError "index 5 is out of bounds for axis 0 with size 1"), 1).
Proof. vm_compute. done. Qed.

Lemma cache_hit_same_object_witness :
  (∀ b' normals',
     Singular.id b' = Singular.id demo_basis →
     demo_sha1 normals' = demo_sha1 tt →
     demo_call (Singular.IsLinearTriangleBasis b') 2 1%Z normals' demo_state
     = (inr 0, demo_state))
  ∧ (∀ b' normals' num_terms' rel_tol' a' st2,
       (rel_tol', num_terms') ≠ (1%Z, 2) →
       demo_call (Singular.IsLinearTriangleBasis b') num_terms' rel_tol' normals'
         demo_state = (inr a', st2) →
       a' ≠ 0
       ∧ Singular.heap st2 !! 0 = Singular.heap demo_state !! 0
       ∧ PyDict.get (Singular.cached_singular_terms st2)
           ("RWG", Singular.id demo_basis, 1%Z, demo_sha1 tt, 2) = Some 0
       ∧ PyDict.get (Singular.cached_singular_terms st2)
           ("RWG", Singular.id b', rel_tol', demo_sha1 normals', num_terms') = Some a').
Proof.
  apply (cache_hit_same_object tt tt demo_kernel demo_take_nodes demo_normal_at
           demo_sha1 demo_set_iter demo_cast Numpy2 demo_basis 2 1%Z tt
           Singular.initial_state 0 demo_state).
  - constructor.
  - vm_compute. reflexivity.
Defined.


Lemma mfie_excludes_self_pairs_witness :
  (∀ p, MultiSparse.getitem (Singular.T_MFIE demo_stores) (p, p) = inl KeyError
        ∧ MultiSparse.getitem (Singular.N_MFIE demo_stores) (p, p) = inl KeyError)
  ∧ (∀ p tri node q,
       Singular.polygons demo_mesh !! p = Some tri →
       node ∈ tri →
       q ∈ Singular.triangles_sharing_nodes demo_mesh node →
       ∃ k, Singular.kernel_at tt tt demo_kernel demo_take_nodes demo_normal_at
              demo_mesh tt p q = inr k
            ∧ MultiSparse.getitem (Singular.T_EFIE demo_stores) (p, q)
              = inr [Singular.res1 k; Singular.res0 k]
            ∧ (q ≠ p →
               MultiSparse.getitem (Singular.T_MFIE demo_stores) (p, q)
               = inr [Singular.res3 k]
               ∧ MultiSparse.getitem (Singular.N_MFIE demo_stores) (p, q)
                 = inr [Singular.res2 k]))
  ∧ (∀ p tri node,
       Singular.polygons demo_mesh !! p = Some tri →
       node ∈ tri →
       p ∈ Singular.triangles_sharing_nodes demo_mesh node →
       ∃ k, Singular.kernel_at tt tt demo_kernel demo_take_nodes demo_normal_at
              demo_mesh tt p p = inr k
            ∧ MultiSparse.getitem (Singular.T_EFIE demo_stores) (p, p)
              = inr [Singular.res1 k; Singular.res0 k]).
Proof.
  apply (mfie_excludes_self_pairs tt tt demo_kernel demo_take_nodes demo_normal_at
           demo_set_iter demo_mesh tt 2 demo_stores 5).
  - exact demo_set_iter_enum.
  - vm_compute. reflexivity.
Defined.

Lemma loop_assigns_each_key_once_witness :
  Singular.integrate tt tt demo_kernel demo_take_nodes demo_normal_at demo_set_iter
    demo_mesh tt 2
  = for_each_counting
      (Singular.visit tt tt demo_kernel demo_take_nodes demo_normal_at demo_mesh tt)
      (Singular.new_stores 2) (Singular.visits demo_set_iter demo_mesh)
  ∧ NoDup (Singular.visits demo_set_iter demo_mesh)
  ∧ (∀ pre pq post s c,
       Singular.visits demo_set_iter demo_mesh = pre ++ pq :: post →
       for_each_counting
         (Singular.visit tt tt demo_kernel demo_take_nodes demo_normal_at demo_mesh tt)
         (Singular.new_stores 2) pre = (inr s, c) →
       MultiSparse.getitem (Singular.T_EFIE s) pq = inl KeyError
       ∧ MultiSparse.getitem (Singular.T_MFIE s) pq = inl KeyError
       ∧ MultiSparse.getitem (Singular.N_MFIE s) pq = inl KeyError)
  ∧ (∀ (m : MultiSparse.t (nat * list nat * list nat)) idx item,
       MultiSparse.getitem (MultiSparse.setitem m idx item) idx = inr item).
Proof.
  apply (loop_assigns_each_key_once tt tt demo_kernel demo_take_nodes demo_normal_at
           demo_set_iter demo_mesh tt 2).
  exact demo_set_iter_enum.
Defined.

(** * Properties of mode sets and of the pole refiner *)

Section mode_properties.
Context {C Vec : Type}.
Context (conj : C → C) (conj_vec : Vec → Vec) (close : C → C → bool).

Local Abbreviation mode := (Modes.mode C Vec).
Local Abbreviation paired := (Modes.paired conj close).
Local Abbreviation add_conjugates := (Modes.add_conjugates conj conj_vec close).
Implicit Types (M : list mode) (m : mode).

Lemma paired_true M m :
  paired M m = true ↔ ∃ m', m' ∈ M ∧ close (Modes.s m') (conj (Modes.s m)) = true.
Proof.
  unfold Modes.paired. rewrite existsb_exists.
  split; intros (m' & Hin & Hc); exists m'; by rewrite list_elem_of_In in *.
Qed.

Lemma filter_none {X} (P : X → Prop) `{∀ x, Decision (P x)} (l : list X) :
  (∀ x, x ∈ l → ¬ P x) → filter P l = [].
Proof.
  induction l as [|x l IH]; intros Hall; [done|].
  rewrite filter_cons_False by (apply Hall, elem_of_cons; by left).
  apply IH. intros y Hy. apply Hall, elem_of_cons. by right.
Qed.

Lemma add_conjugates_all_paired M m :
  (∀ c, conj (conj c) = c) →
  (∀ c, close c c = true) →
  m ∈ add_conjugates M → paired (add_conjugates M) m = true.
Proof.
  intros Hinv Hrefl. unfold Modes.add_conjugates at 1.
  intros [Hm|Hm]%elem_of_app; apply paired_true.
  - destruct (paired M m) eqn:Hp.
    + apply paired_true in Hp as (m' & Hin & Hc). exists m'. split; [|done].
      unfold Modes.add_conjugates. apply elem_of_app. by left.
    + exists (Modes.conj_mode conj conj_vec m). split; [|apply Hrefl].
      unfold Modes.add_conjugates. apply elem_of_app. right.
      apply list_elem_of_fmap_2, list_elem_of_filter. by split.
  - apply list_elem_of_fmap in Hm as (u & -> & [_ Hu]%list_elem_of_filter).
    exists u. split.
    + unfold Modes.add_conjugates. apply elem_of_app. by left.
    + simpl. rewrite Hinv. apply Hrefl.
Qed.

(** C8: when conjugation is an involution and a frequency is within the
    tolerance of itself, [add_conjugates] is idempotent: the first call
    appends one conjugate mode for every mode that has no partner in the
    set it is given, and a second call appends nothing, so that the set
    and in particular its length stay the same. *)
Theorem add_conjugates_idempotent M :
  (∀ c, conj (conj c) = c) →
  (∀ c, close c c = true) →
  add_conjugates (add_conjugates M) = add_conjugates M
  ∧ length (add_conjugates (add_conjugates M)) = length (add_conjugates M)
  ∧ add_conjugates M
    = M ++ (Modes.conj_mode conj conj_vec <$> filter (λ m, paired M m = false) M)
  ∧ length (add_conjugates M)
    = length M + length (filter (λ m, paired M m = false) M).
Proof.
  intros Hinv Hrefl.
  assert (Hidem : add_conjugates (add_conjugates M) = add_conjugates M).
  { unfold Modes.add_conjugates at 1.
    rewrite filter_none; [by rewrite app_nil_r|].
    intros m Hm. by rewrite add_conjugates_all_paired. }
  split_and!.
  - done.
  - by rewrite Hidem.
  - done.
  - unfold Modes.add_conjugates. by rewrite length_app, length_fmap.
Qed.

Context {Tol : Type}.
Context (update : C → C) (small_change : Tol → C → C → bool) (finish : C → mode).

Local Abbreviation iterate := (Modes.iterate update small_change).
Local Abbreviation refine_poles := (Modes.refine_poles update small_change finish).
Local Abbreviation converges := (Modes.converges update small_change).

(** C9: [refine_poles] is a total function returning a list of modes, never
    an error.  The list is made of the modes of the estimates whose
    iteration converges within [max_iter] steps, in the order of the
    estimates; the others are dropped, so the result is no longer than the
    estimate sequence and falls short of it by the number of estimates
    that did not converge.  With a budget of zero, nothing survives. *)
Theorem refine_poles_drops_unconverged (estimates : list C) (rel_tol : Tol)
    (max_iter : nat) :
  length (refine_poles estimates rel_tol max_iter) ≤ length estimates
  ∧ refine_poles estimates rel_tol max_iter
    = omap (λ e, finish <$> iterate rel_tol max_iter e)
        (filter (λ e, converges rel_tol max_iter e = true) estimates)
  ∧ length (refine_poles estimates rel_tol max_iter)
    + length (filter (λ e, converges rel_tol max_iter e = false) estimates)
    = length estimates
  ∧ refine_poles estimates rel_tol 0 = [].
Proof.
  unfold Modes.refine_poles, Modes.converges. split_and!.
  - induction estimates as [|e l IH]; csimpl; [done|].
    destruct (iterate rel_tol max_iter e); simpl; lia.
  - induction estimates as [|e l IH]; [done|]. csimpl.
    destruct (iterate rel_tol max_iter e) as [c|] eqn:He; simpl.
    + rewrite filter_cons_True by (apply bool_decide_eq_true; rewrite He; by eexists).
      csimpl. rewrite He. simpl. by rewrite IH.
    + rewrite filter_cons_False; [done|].
      rewrite bool_decide_eq_true, He. by intros [? [=]].
  - induction estimates as [|e l IH]; [done|]. csimpl.
    destruct (iterate rel_tol max_iter e) as [c|] eqn:He; simpl.
    + rewrite filter_cons_False.
      * simpl. lia.
      * rewrite bool_decide_eq_false, He. intros Hn. apply Hn. by eexists.
    + rewrite filter_cons_True.
      * simpl. lia.
      * apply bool_decide_eq_false. rewrite He. by intros [? [=]].
  - induction estimates as [|e l IH]; [done|]. csimpl. exact IH.
Qed.
End mode_properties.

(** ** A concrete mode set *)

(** Only the last mode lacks a partner; its conjugate is appended. *)
Example demo_add_conjugates :
  Modes.add_conjugates zconj zconj_vec zclose demo_modes
  = demo_modes ++ [Modes.Mode (-3, -9)%Z [(2, -2)%Z] [(2, 2)%Z]].
Proof. reflexivity. Qed.

Lemma add_conjugates_idempotent_witness :
  Modes.add_conjugates zconj zconj_vec zclose
    (Modes.add_conjugates zconj zconj_vec zclose demo_modes)
  = Modes.add_conjugates zconj zconj_vec zclose demo_modes
  ∧ length (Modes.add_conjugates zconj zconj_vec zclose
              (Modes.add_conjugates zconj zconj_vec zclose demo_modes))
    = length (Modes.add_conjugates zconj zconj_vec zclose demo_modes)
  ∧ Modes.add_conjugates zconj zconj_vec zclose demo_modes
    = demo_modes
        ++ (Modes.conj_mode zconj zconj_vec
              <$> filter (λ m, Modes.paired zconj zclose demo_modes m = false) demo_modes)
  ∧ length (Modes.add_conjugates zconj zconj_vec zclose demo_modes)
    = length demo_modes
      + length (filter (λ m, Modes.paired zconj zclose demo_modes m = false) demo_modes).
Proof.
  apply (add_conjugates_idempotent zconj zconj_vec zclose demo_modes).
  - intros [re im]. unfold zconj. simpl. f_equal. lia.
  - intros [re im]. unfold zclose. simpl. apply bool_decide_eq_true. lia.
Defined.

(** A refiner on integers: halve the estimate, stop when the value no
    longer moves by more than the tolerance. *)
Example demo_refine_poles :
  Modes.refine_poles (λ c : Z, c / 2)%Z
    (λ tol a b, bool_decide (Z.abs (a - b) ≤ tol)%Z)
    (λ c, Modes.Mode c [c] [c]) [3; 1000; 0; 40]%Z 1%Z 3
  = [Modes.Mode 0%Z [0%Z] [0%Z]; Modes.Mode 0%Z [0%Z] [0%Z]].
Proof. reflexivity. Qed.


(** * Further properties of the singular-term store *)

Section store_properties.
Context {A : Type}.
Implicit Types (subs : list (np_dtype * option (list nat))).
Implicit Types (ops : list ((nat * nat) * list A)).

Lemma last_assigned_snoc ops op idx :
  last_assigned (ops ++ [op]) idx
  = if decide (op.1 = idx) then Some op.2 else last_assigned ops idx.
Proof.
  unfold last_assigned. rewrite filter_app, filter_cons, filter_nil.
  destruct (decide (op.1 = idx)).
  - by rewrite last_snoc.
  - by rewrite app_nil_r.
Qed.

Lemma getitem_of_ops subs ops idx :
  MultiSparse.getitem (of_ops subs ops) idx
  = match last_assigned ops idx with
    | Some it => inr it
    | None => inl KeyError
    end.
Proof.
  induction ops as [|op ops IH] using rev_ind; [done|].
  rewrite of_ops_snoc, last_assigned_snoc.
  destruct (decide (op.1 = idx)) as [<-|Hne].
  - apply getitem_setitem_eq.
  - by rewrite getitem_setitem_ne.
Qed.

(** X1: reading a key returns the item most recently assigned to it, and
    raises [KeyError] exactly when the key was never assigned. *)
Theorem getitem_last_assigned subs ops idx :
  MultiSparse.getitem (of_ops subs ops) idx
  = match last_assigned ops idx with
    | Some it => inr it
    | None => inl KeyError
    end.
Proof. apply getitem_of_ops. Qed.

Lemma last_assigned_is_Some ops idx :
  is_Some (last_assigned ops idx) ↔ idx ∈ ops.*1.
Proof.
  induction ops as [|op ops IH] using rev_ind.
  - split; [by intros [? [=]]|]. intros Hin. by apply elem_of_nil in Hin.
  - rewrite last_assigned_snoc, fmap_app, elem_of_app. csimpl.
    rewrite list_elem_of_singleton.
    destruct (decide (op.1 = idx)) as [<-|Hne].
    + split; [by right|by eexists].
    + rewrite IH. split; [by left|]. by intros [?|?].
Qed.

Lemma items_keys_NoDup (m : MultiSparse.t A) :
  store_ok m → NoDup (MultiSparse.items m).*1.
Proof.
  intros Hok.
  assert (HL : keyed_upto (MultiSparse.rows m) (num_rows_of (MultiSparse.rows m))
               ≡ₚ MultiSparse.items m).
  { destruct Hok as [Hnd _]. apply keyed_upto_items; [done|]. apply keys_lt_num_rows. }
  rewrite <- HL. apply (keyed_upto_NoDup (MultiSparse.rows m)), Hok.
Qed.

Lemma elem_of_items_keys subs ops idx :
  idx ∈ (MultiSparse.items (of_ops subs ops)).*1 ↔ idx ∈ ops.*1.
Proof.
  split.
  - intros ([idx' it] & -> & Hin)%list_elem_of_fmap. simpl.
    apply last_assigned_is_Some. destruct idx' as [r c].
    apply getitem_items in Hin; [|apply store_ok_of_ops].
    rewrite getitem_of_ops in Hin.
    destruct (last_assigned ops (r, c)); [by eexists|done].
  - intros [it Hit]%last_assigned_is_Some. pose proof (getitem_of_ops subs ops idx) as Hg.
    rewrite Hit in Hg. destruct idx as [r c].
    apply getitem_items in Hg; [|apply store_ok_of_ops].
    apply list_elem_of_fmap. by exists ((r, c), it).
Qed.

Lemma items_keys_of_ops subs ops :
  (MultiSparse.items (of_ops subs ops)).*1 ≡ₚ remove_dups ops.*1.
Proof.
  apply NoDup_Permutation.
  - apply items_keys_NoDup, store_ok_of_ops.
  - apply NoDup_remove_dups.
  - intros idx. by rewrite elem_of_items_keys, elem_of_remove_dups.
Qed.

Lemma len_of_ops_NoDup subs ops :
  NoDup ops.*1 → MultiSparse.len (of_ops subs ops) = length ops.
Proof.
  intros Hnd. rewrite len_items, <- (length_fmap fst), items_keys_of_ops.
  rewrite <- (length_fmap fst ops). apply Permutation_length, NoDup_Permutation.
  - apply NoDup_remove_dups.
  - done.
  - intros idx. apply elem_of_remove_dups.
Qed.

(** X2: [len] is the number of distinct keys that were assigned, however
    often each of them was assigned. *)
Theorem len_counts_distinct_keys subs ops :
  MultiSparse.len (of_ops subs ops) = length (remove_dups ops.*1).
Proof. by rewrite len_items, <- (length_fmap fst), items_keys_of_ops. Qed.

(** X3: [items] yields every stored key exactly once, as many pairs as
    [len] counts, and a pair is yielded exactly when [__getitem__] returns
    its item for its key. *)
Theorem items_agree_with_getitem subs ops :
  NoDup (MultiSparse.items (of_ops subs ops)).*1
  ∧ length (MultiSparse.items (of_ops subs ops)) = MultiSparse.len (of_ops subs ops)
  ∧ ∀ row col it,
      ((row, col), it) ∈ MultiSparse.items (of_ops subs ops)
      ↔ MultiSparse.getitem (of_ops subs ops) (row, col) = inr it.
Proof.
  split_and!.
  - apply items_keys_NoDup, store_ok_of_ops.
  - by rewrite len_items.
  - intros row col it. symmetry. apply getitem_items, store_ok_of_ops.
Qed.
End store_properties.


(** ** Items that do not match the declared sub-arrays *)

Section conversion_errors.
Context {A : Type}.
Context (np_cast : np_dtype → list nat → A → string + A).
Context (numpy : numpy_version).
Implicit Types (subs : list (np_dtype * option (list nat))).

Lemma cast_entry_too_long subs (ci : nat * list A) :
  length subs < length ci.2 →
  (∀ j x sub, ci.2 !! j = Some x → subs !! j = Some sub →
              ∃ v, np_cast sub.1 (default [] sub.2) x = inr v) →
  cast_entry np_cast numpy subs ci = inl (IndexError "list index out of range").
Proof.
  intros Hlen Hall. unfold cast_entry.
  destruct (cast_elems_too_long np_cast subs 0 ci.2) as [_ ->]; [lia|simpl; lia|done|done].
Qed.

(** X4: when a stored item has more elements than the store has declared
    sub-arrays, [to_csr] raises; the error is the [IndexError] of
    [data_arrays[sub_count]] when numpy accepts every element that has a
    sub-array and every column index. *)
Theorem to_csr_item_too_long subs (ops : list ((nat * nat) * list A)) ord :
  Exists (λ e, length subs < length e.2) (MultiSparse.items (of_ops subs ops)) →
  (∃ e, MultiSparse.to_csr np_cast numpy (of_ops subs ops) ord = inl e)
  ∧ (Forall (λ e, (∀ j x sub, e.2 !! j = Some x → subs !! j = Some sub →
                              ∃ v, np_cast sub.1 (default [] sub.2) x = inr v)
                  ∧ int32_storable numpy (Z.of_nat e.1.2))
            (MultiSparse.items (of_ops subs ops)) →
     MultiSparse.to_csr np_cast numpy (of_ops subs ops) ord
     = inl (IndexError "list index out of range")).
Proof.
  intros Hex.
  assert (Hne : ops ≠ []).
  { intros ->. by apply Exists_nil in Hex. }
  pose proof (keyed_upto_of_ops subs ops) as HL.
  pose proof (store_ok_of_ops subs ops) as Hok.
  rewrite to_csr_of_ops by done.
  set (m := of_ops subs ops) in *. split.
  - destruct (csr_of np_cast numpy m ord) as [e|out] eqn:Hout; [by exists e|].
    exfalso. assert (Hconv : convertible np_cast numpy m).
    { apply (csr_of_is_inr np_cast numpy m ord Hok). by exists out. }
    destruct Hconv as [Hitems _].
    apply Exists_exists in Hex as (e & He & Hlong).
    rewrite Forall_forall in Hitems. destruct (Hitems e He) as [Hshort _].
    unfold m in Hshort. rewrite subarrays_of_ops in Hshort. lia.
  - intros Hall. unfold csr_of.
    rewrite (map_res_first (IndexError "list index out of range")); [done| |].
    + rewrite <- keyed_upto_entries. apply Forall_fmap.
      rewrite HL. eapply Forall_impl; [exact Hall|].
      intros e [Hel Hcol]. simpl. unfold m. rewrite subarrays_of_ops.
      destruct (decide (length e.2 ≤ length subs)) as [Hshort|Hlong].
      * left. by apply cast_entry_is_inr.
      * right. apply cast_entry_too_long; [simpl; lia|done].
    + rewrite <- keyed_upto_entries. apply Exists_fmap.
      rewrite HL. apply Exists_exists in Hex as (e & He & Hlong).
      apply Exists_exists. exists e. split; [done|]. simpl.
      unfold m. rewrite subarrays_of_ops.
      apply cast_entry_too_long; [done|].
      rewrite Forall_forall in Hall. by destruct (Hall e He).
Qed.

(** X5: the arrays [to_csr(order)] returns are one data array per
    declared sub-array, with the declared dtype, the shape [(len,)] for a
    scalar sub-array and [(len,) + shape] otherwise, then the [int32]
    index array of shape [(len,)] and the [int32] row-pointer array of
    shape [(max_row + 2,)]; every array has the requested order. *)
Theorem to_csr_array_layout subs (ops : list ((nat * nat) * list A)) ord out :
  MultiSparse.to_csr np_cast numpy (of_ops subs ops) ord = inr out →
  ∃ das idx ptr,
    out = (MultiSparse.DataArray <$> das)
            ++ [MultiSparse.IndexArray idx; MultiSparse.IndexArray ptr]
    ∧ Forall2 (λ (a : ndarray A) sub,
                 dtype a = sub.1
                 ∧ shape a = MultiSparse.len (of_ops subs ops) :: default [] sub.2
                 ∧ order a = ord
                 ∧ length (cells a) = MultiSparse.len (of_ops subs ops))
              das subs
    ∧ (dtype idx = int32
       ∧ shape idx = [MultiSparse.len (of_ops subs ops)]
       ∧ order idx = ord)
    ∧ (dtype ptr = int32
       ∧ shape ptr = [max_list ops.*1.*1 + 2]
       ∧ length (cells ptr) = max_list ops.*1.*1 + 2
       ∧ order ptr = ord).
Proof.
  intros (das & idx & ptr & -> & Hdas & (? & ? & ? & _) & Hptr)%to_csr_layout.
  by exists das, idx, ptr.
Qed.
End conversion_errors.

Lemma to_csr_item_too_long_witness :
  (∃ e, MultiSparse.to_csr demo_cast Numpy2
          (of_ops [(float64, None)] [((0, 0), [1; 2]); ((1, 0), [3])]) C_order = inl e)
  ∧ (Forall (λ e, (∀ j x sub, e.2 !! j = Some x → [(float64, None)] !! j = Some sub →
                              ∃ v, demo_cast sub.1 (default [] sub.2) x = inr v)
                  ∧ int32_storable Numpy2 (Z.of_nat e.1.2))
            (MultiSparse.items
               (of_ops [(float64, None)] [((0, 0), [1; 2]); ((1, 0), [3])])) →
     MultiSparse.to_csr demo_cast Numpy2
       (of_ops [(float64, None)] [((0, 0), [1; 2]); ((1, 0), [3])]) C_order
     = inl (IndexError "list index out of range")).
Proof.
  apply (to_csr_item_too_long demo_cast Numpy2 [(float64, None)]
           [((0, 0), [1; 2]); ((1, 0), [3])] C_order).
  apply Exists_cons_hd. simpl. lia.
Defined.

Lemma to_csr_array_layout_witness :
  ∃ das idx ptr,
    demo_out C_order
    = (MultiSparse.DataArray <$> das)
        ++ [MultiSparse.IndexArray idx; MultiSparse.IndexArray ptr]
    ∧ Forall2 (λ (a : ndarray nat) sub,
                 dtype a = sub.1
                 ∧ shape a = MultiSparse.len (of_ops demo_subs demo_ops) :: default [] sub.2
                 ∧ order a = C_order
                 ∧ length (cells a) = MultiSparse.len (of_ops demo_subs demo_ops))
              das demo_subs
    ∧ (dtype idx = int32
       ∧ shape idx = [MultiSparse.len (of_ops demo_subs demo_ops)]
       ∧ order idx = C_order)
    ∧ (dtype ptr = int32
       ∧ shape ptr = [max_list demo_ops.*1.*1 + 2]
       ∧ length (cells ptr) = max_list demo_ops.*1.*1 + 2
       ∧ order ptr = C_order).
Proof.
  apply (to_csr_array_layout demo_cast Numpy2 demo_subs demo_ops C_order (demo_out C_order)).
  reflexivity.
Defined.

(** * Further properties of the singular-quadrature cache *)

Lemma get_app_Some {K V} `{EqDecision K} (d d' : list (K * V)) k v :
  PyDict.get d k = Some v → PyDict.get (d ++ d') k = Some v.
Proof.
  induction d as [|[k0 v0] d IH]; simpl; [done|].
  by destruct (decide (k = k0)).
Qed.

Lemma set_absent {K V} `{EqDecision K} (d : list (K * V)) k v :
  PyDict.get d k = None → PyDict.set d k v = d ++ [(k, v)].
Proof.
  induction d as [|[k0 v0] d IH]; simpl; [done|].
  destruct (decide (k = k0)); [done|]. intros Hg. by rewrite IH.
Qed.

Section cache_behaviour.
Context {BasisId Tol NodeArray NormalArray Tri Normal RulePoints RuleWeights Terms : Type}.
Context `{EqDecision BasisId, EqDecision Tol}.
Context (rule_points : RulePoints) (rule_weights : RuleWeights).
Context (face_integrals_yla_oijala :
           Tri → RulePoints → RuleWeights → Tri → Normal
           → Singular.face_integrals (Terms := Terms)).
Context (take_nodes : NodeArray → list nat → Tri).
Context (normal_at : NormalArray → nat → Normal).
Context (sha1_hexdigest : NormalArray → string).
Context (set_iter : gset nat → list nat).
Context (np_cast : np_dtype → list nat → Terms → string + Terms).
Context (numpy : numpy_version).

Local Abbreviation state :=
  (Singular.state (BasisId := BasisId) (Tol := Tol) (Terms := Terms)).
Local Abbreviation basis_t :=
  (Singular.LinearTriangleBasis (BasisId := BasisId) (NodeArray := NodeArray)).
Local Abbreviation basis_obj :=
  (Singular.basis_obj (BasisId := BasisId) (NodeArray := NodeArray)).
Local Abbreviation Mesh := (Singular.Mesh (NodeArray := NodeArray)).
Local Abbreviation call :=
  (Singular.singular_impedance_rwg rule_points rule_weights
     face_integrals_yla_oijala take_nodes normal_at sha1_hexdigest set_iter
     np_cast numpy).
Local Abbreviation run :=
  (Session.run rule_points rule_weights
     face_integrals_yla_oijala take_nodes normal_at sha1_hexdigest set_iter
     np_cast numpy).
Local Abbreviation integrate :=
  (Singular.integrate rule_points rule_weights face_integrals_yla_oijala
     take_nodes normal_at set_iter).
Local Abbreviation finalize := (Singular.finalize np_cast numpy).
Local Abbreviation visits := (Singular.visits set_iter).
Local Abbreviation stores_after :=
  (Loop.stores_after rule_points rule_weights face_integrals_yla_oijala
     take_nodes normal_at).
Local Abbreviation key_of b num_terms rel_tol normals :=
  ("RWG", Singular.id b, rel_tol, sha1_hexdigest normals, num_terms).
Implicit Types (st : state) (b : basis_t) (basis : basis_obj).
Implicit Types (msh : Mesh) (normals : NormalArray) (rel_tol : Tol).

(** Every call extends the heap and the cache at their ends, if at all. *)
Lemma call_extends basis num_terms rel_tol normals st :
  Singular.heap st `prefix_of`
    Singular.heap (call basis num_terms rel_tol normals st).2
  ∧ Singular.cached_singular_terms st `prefix_of`
      Singular.cached_singular_terms (call basis num_terms rel_tol normals st).2
  ∧ Singular.kernel_calls st
    ≤ Singular.kernel_calls (call basis num_terms rel_tol normals st).2.
Proof.
  destruct (call_cases rule_points rule_weights face_integrals_yla_oijala take_nodes
              normal_at sha1_hexdigest set_iter np_cast numpy
              basis num_terms rel_tol normals st)
    as [[_ ->]|[(b & a & _ & _ & ->)|[(b & e & c & _ & _ & _ & ->)
                                     |(b & obj & c & _ & Hg & _ & ->)]]]; simpl.
  - done.
  - done.
  - split_and!; [done|done|lia].
  - rewrite set_absent by done.
    split_and!; [by apply prefix_app_r|by apply prefix_app_r|lia].
Qed.

(** X6: the cache is append-only.  Whatever calls are made, with whatever
    outcome, the objects allocated before and the cache entries made before
    are still there, in the same places: no entry is evicted or replaced,
    and the count of kernel evaluations never goes down. *)
Theorem cache_is_append_only (reqs : list Session.request) st :
  Singular.heap st `prefix_of` Singular.heap (run reqs st)
  ∧ Singular.cached_singular_terms st `prefix_of`
      Singular.cached_singular_terms (run reqs st)
  ∧ Singular.kernel_calls st ≤ Singular.kernel_calls (run reqs st)
  ∧ (∀ k a obj,
       PyDict.get (Singular.cached_singular_terms st) k = Some a →
       Singular.heap st !! a = Some obj →
       PyDict.get (Singular.cached_singular_terms (run reqs st)) k = Some a
       ∧ Singular.heap (run reqs st) !! a = Some obj).
Proof.
  assert (Hpre : Singular.heap st `prefix_of` Singular.heap (run reqs st)
                 ∧ Singular.cached_singular_terms st `prefix_of`
                     Singular.cached_singular_terms (run reqs st)
                 ∧ Singular.kernel_calls st ≤ Singular.kernel_calls (run reqs st)).
  { unfold Session.run. induction reqs as [|r reqs IH] using rev_ind; [done|].
    rewrite foldl_snoc. destruct IH as (Hh & Hc & Hk).
    destruct (call_extends (Session.basis r) (Session.num_terms r)
                (Session.rel_tol r) (Session.normals r)
                (foldl (λ st r, (call (Session.basis r) (Session.num_terms r)
                                   (Session.rel_tol r) (Session.normals r) st).2)
                       st reqs)) as (Hh' & Hc' & Hk').
    split_and!; [by etrans|by etrans|lia]. }
  destruct Hpre as (Hh & Hc & Hk). split_and!; try done.
  intros k a obj Hget Ha. split.
  - destruct Hc as [ext ->]. by apply get_app_Some.
  - by eapply prefix_lookup_Some.
Qed.

(** X7: a call that raises leaves the heap and the cache as they were, so
    nothing partial is ever cached; the same call made again raises the
    same error after evaluating the kernels once more. *)
Theorem failed_call_caches_nothing basis num_terms rel_tol normals st e st' :
  Singular.singular_impedance_rwg rule_points rule_weights face_integrals_yla_oijala
    take_nodes normal_at sha1_hexdigest set_iter np_cast numpy
    basis num_terms rel_tol normals st
  = (inl e, st') →
  Singular.heap st' = Singular.heap st
  ∧ Singular.cached_singular_terms st' = Singular.cached_singular_terms st
  ∧ ∃ st'',
      Singular.singular_impedance_rwg rule_points rule_weights face_integrals_yla_oijala
        take_nodes normal_at sha1_hexdigest set_iter np_cast numpy
        basis num_terms rel_tol normals st'
      = (inl e, st'')
      ∧ Singular.kernel_calls st'' - Singular.kernel_calls st'
        = Singular.kernel_calls st' - Singular.kernel_calls st.
Proof.
  destruct basis as [b|descr].
  - destruct (PyDict.get (Singular.cached_singular_terms st)
                (key_of b num_terms rel_tol normals)) as [a0|] eqn:Hg.
    { by erewrite call_hit by exact Hg. }
    rewrite call_miss by done.
    destruct (integrate (Singular.mesh b) normals num_terms) as [[e0|s] c] eqn:Hint.
    + intros [= <- <-]. split_and!; [done|done|].
      rewrite call_miss by exact Hg. rewrite Hint.
      eexists. split; [done|]. simpl. lia.
    + destruct (finalize s) as [e0|obj] eqn:Hfin; [|done].
      intros [= <- <-]. split_and!; [done|done|].
      rewrite call_miss by exact Hg. rewrite Hint, Hfin.
      eexists. split; [done|]. simpl. lia.
  - intros [= <- <-]. split_and!; [done|done|]. eexists. split; [done|]. lia.
Qed.

Lemma off_diagonal_nil_touches msh :
  (∀ X : gset nat, set_iter X ≡ₚ elements X) →
  Loop.off_diagonal (visits msh) = [] ↔ ∀ p q, Loop.touches msh p q → q = p.
Proof.
  intros Henum. split.
  - intros Hnil p q Hpq. apply dec_stable. intros Hne.
    assert (Hin : (p, q) ∈ Loop.off_diagonal (visits msh)).
    { apply elem_of_off_diagonal. split; [done|]. by apply elem_of_visits. }
    rewrite Hnil in Hin. by apply elem_of_nil in Hin.
  - intros Hall.
    destruct (Loop.off_diagonal (visits msh)) as [|[p q] l] eqn:Hl; [done|].
    assert (Hin : (p, q) ∈ Loop.off_diagonal (visits msh)).
    { rewrite Hl. apply elem_of_cons. by left. }
    apply elem_of_off_diagonal in Hin as [Hne Hin].
    apply elem_of_visits in Hin; [|done]. by specialize (Hall p q Hin).
Qed.

Lemma off_diagonal_nil_faces msh :
  Loop.off_diagonal (visits msh) = [] → Forall (Loop.faces msh) (visits msh).
Proof.
  intros Hnil. apply Forall_forall. intros [p q] Hin.
  assert (q = p) as ->.
  { apply dec_stable. intros Hne.
    assert (Hoff : (p, q) ∈ Loop.off_diagonal (visits msh))
      by by apply elem_of_off_diagonal.
    rewrite Hnil in Hoff. by apply elem_of_nil in Hoff. }
  apply visits_observer in Hin. by split.
Qed.

(** X8: on a cache miss, the call returns a result only if some face of
    the mesh touches a face other than itself, and the error of [max] on
    an empty store is raised only on a mesh where none does; on such a
    mesh (an empty mesh included) the integration loop runs to its end
    and the call raises, with that error unless the conversion of the
    electric store raises first. *)
Theorem call_fails_without_touching_pair b num_terms rel_tol normals st :
  (∀ X : gset nat, set_iter X ≡ₚ elements X) →
  PyDict.get (Singular.cached_singular_terms st)
    (key_of b num_terms rel_tol normals) = None →
  (∀ a st',
     call (Singular.IsLinearTriangleBasis b) num_terms rel_tol normals st = (inr a, st') →
     ∃ p q, Loop.touches (Singular.mesh b) p q ∧ q ≠ p)
  ∧ ((call (Singular.IsLinearTriangleBasis b) num_terms rel_tol normals st).1
     = inl (ValueError "max() arg is an empty sequence") →
     ∀ p q, Loop.touches (Singular.mesh b) p q → q = p)
  ∧ ((∀ p q, Loop.touches (Singular.mesh b) p q → q = p) →
     ∃ e s c,
       (call (Singular.IsLinearTriangleBasis b) num_terms rel_tol normals st).1 = inl e
       ∧ Singular.integrate rule_points rule_weights face_integrals_yla_oijala
           take_nodes normal_at set_iter (Singular.mesh b) normals num_terms
         = (inr s, c)
       ∧ (e = ValueError "max() arg is an empty sequence"
          ∨ MultiSparse.to_csr np_cast numpy (Singular.T_EFIE s) F_order = inl e)).
Proof.
  intros Henum Hmiss. split.
  { intros a st' (_ & e & t & m & _ & Ht & _)%call_miss_inr; [|done].
    apply to_csr_inr in Ht as [Hne _].
    destruct (Loop.off_diagonal (visits (Singular.mesh b))) as [|[p q] l] eqn:Hl.
    { unfold Loop.t_mfie_ops in Hne. by rewrite Hl in Hne. }
    assert (Hin : (p, q) ∈ Loop.off_diagonal (visits (Singular.mesh b))).
    { rewrite Hl. apply elem_of_cons. by left. }
    apply elem_of_off_diagonal in Hin as [Hneq Hin].
    apply elem_of_visits in Hin; [|done]. by exists p, q. }
  rewrite call_miss by done. split.
  - intros Herr. apply off_diagonal_nil_touches; [done|].
    destruct (integrate (Singular.mesh b) normals num_terms) as [[e0|s] c] eqn:Hint.
    { simpl in Herr. injection Herr as ->. by apply integrate_error in Hint. }
    apply integrate_inr in Hint as (_ & -> & _).
    destruct (finalize _) as [e0|obj] eqn:Hfin; [|done].
    simpl in Herr. injection Herr as ->.
    rewrite finalize_spec in Hfin. unfold Loop.stores_after in Hfin.
    cbn [Singular.T_EFIE Singular.T_MFIE Singular.N_MFIE] in Hfin.
    destruct (MultiSparse.to_csr _ _ (of_ops (Loop.efie_subs num_terms) _) F_order)
      as [e0|e] eqn:He.
    { injection Hfin as ->. apply to_csr_max_error in He.
      apply fmap_nil_inv in He. by rewrite He. }
    cbn [bind] in Hfin.
    destruct (MultiSparse.to_csr _ _
                (of_ops (Loop.mfie_subs num_terms) (Loop.t_mfie_ops _ _ _ _ _ _ _ _)) F_order)
      as [e0|t] eqn:Ht.
    { injection Hfin as ->. apply to_csr_max_error in Ht.
      by apply fmap_nil_inv in Ht. }
    cbn [bind] in Hfin.
    destruct (MultiSparse.to_csr _ _
                (of_ops (Loop.mfie_subs num_terms) (Loop.n_mfie_ops _ _ _ _ _ _ _ _)) F_order)
      as [e0|m] eqn:Hm; [|done].
    injection Hfin as ->. apply to_csr_max_error in Hm.
    by apply fmap_nil_inv in Hm.
  - intros Hall. apply off_diagonal_nil_touches in Hall; [|done].
    rewrite integrate_ok by by apply off_diagonal_nil_faces.
    rewrite finalize_spec. unfold Loop.stores_after.
    cbn [Singular.T_EFIE Singular.T_MFIE Singular.N_MFIE].
    unfold Loop.t_mfie_ops. rewrite Hall. cbn [fmap list_fmap].
    destruct (MultiSparse.to_csr _ _ (of_ops (Loop.efie_subs num_terms) _) F_order)
      as [e0|e] eqn:He.
    + exists e0. eexists _, _. split_and!; [done|done|]. by right.
    + eexists _, _, _. split_and!; [done|done|]. by left.
Qed.

(** X9: the tolerance only enters the cache key.  Two calls that miss the
    cache and differ in nothing but [rel_tol] (and possibly in the state
    they start from) return objects with exactly the same arrays. *)
Theorem rel_tol_only_keys_the_cache b num_terms rel_tol1 rel_tol2 normals
    st1 st2 a1 a2 st1' st2' :
  PyDict.get (Singular.cached_singular_terms st1)
    (key_of b num_terms rel_tol1 normals) = None →
  PyDict.get (Singular.cached_singular_terms st2)
    (key_of b num_terms rel_tol2 normals) = None →
  call (Singular.IsLinearTriangleBasis b) num_terms rel_tol1 normals st1 = (inr a1, st1') →
  call (Singular.IsLinearTriangleBasis b) num_terms rel_tol2 normals st2 = (inr a2, st2') →
  ∃ obj, Singular.heap st1' !! a1 = Some obj ∧ Singular.heap st2' !! a2 = Some obj.
Proof.
  intros Hm1 Hm2.
  intros (_ & e1 & t1 & m1 & He1 & Ht1 & Hn1 & -> & ->)%call_miss_inr; [|done].
  intros (_ & e2 & t2 & m2 & He2 & Ht2 & Hn2 & -> & ->)%call_miss_inr; [|done].
  assert (e2 = e1) as -> by congruence.
  assert (t2 = t1) as -> by congruence.
  assert (m2 = m1) as -> by congruence.
  simpl. eexists. split; by apply list_lookup_middle.
Qed.
End cache_behaviour.

Lemma failed_call_caches_nothing_witness :
  Singular.heap demo_failed_state = []
  ∧ Singular.cached_singular_terms demo_failed_state = []
  ∧ ∃ st'',
      demo_call (Singular.IsLinearTriangleBasis demo_single_basis) 2 1%Z tt
        demo_failed_state
      = (inl (ValueError "max() arg is an empty sequence"), st'')
      ∧ Singular.kernel_calls st'' - Singular.kernel_calls demo_failed_state
        = Singular.kernel_calls demo_failed_state - 0.
Proof.
  apply (failed_call_caches_nothing tt tt demo_kernel demo_take_nodes demo_normal_at
           demo_sha1 demo_set_iter demo_cast Numpy2
           (Singular.IsLinearTriangleBasis demo_single_basis)
           2 1%Z tt Singular.initial_state
           (ValueError "max() arg is an empty sequence") demo_failed_state).
  vm_compute. reflexivity.
Defined.

(** On the mesh made of one triangle no face touches another. *)
Lemma demo_single_touches p q : Loop.touches (Singular.mesh demo_single_basis) p q → q = p.
Proof.
  intros (tri & node & Htri & _ & Hq). simpl in *.
  apply elem_of_singleton in Hq as ->.
  destruct p as [|p]; [done|]. by destruct p.
Qed.

Lemma call_fails_without_touching_pair_witness :
  (∀ a st',
     demo_call (Singular.IsLinearTriangleBasis demo_single_basis) 2 1%Z tt
       Singular.initial_state = (inr a, st') →
     ∃ p q, Loop.touches (Singular.mesh demo_single_basis) p q ∧ q ≠ p)
  ∧ ((demo_call (Singular.IsLinearTriangleBasis demo_single_basis) 2 1%Z tt
        Singular.initial_state).1
     = inl (ValueError "max() arg is an empty sequence") →
     ∀ p q, Loop.touches (Singular.mesh demo_single_basis) p q → q = p)
  ∧ ((∀ p q, Loop.touches (Singular.mesh demo_single_basis) p q → q = p) →
     ∃ e s c,
       (demo_call (Singular.IsLinearTriangleBasis demo_single_basis) 2 1%Z tt
          Singular.initial_state).1 = inl e
       ∧ Singular.integrate tt tt demo_kernel demo_take_nodes demo_normal_at
           demo_set_iter (Singular.mesh demo_single_basis) tt 2
         = (inr s, c)
       ∧ (e = ValueError "max() arg is an empty sequence"
          ∨ MultiSparse.to_csr demo_cast Numpy2 (Singular.T_EFIE s) F_order = inl e)).
Proof.
  apply (call_fails_without_touching_pair tt tt demo_kernel demo_take_nodes
           demo_normal_at demo_sha1 demo_set_iter demo_cast Numpy2
           demo_single_basis 2 1%Z tt Singular.initial_state).
  - exact demo_set_iter_enum.
  - reflexivity.
Defined.

Lemma rel_tol_only_keys_the_cache_witness :
  ∃ obj, Singular.heap demo_state !! 0 = Some obj
         ∧ Singular.heap demo_state_other_tol !! 0 = Some obj.
Proof.
  apply (rel_tol_only_keys_the_cache tt tt demo_kernel demo_take_nodes demo_normal_at
           demo_sha1 demo_set_iter demo_cast Numpy2 demo_basis 2 1%Z 5%Z tt
           Singular.initial_state Singular.initial_state 0 0
           demo_state demo_state_other_tol).
  - reflexivity.
  - reflexivity.
  - vm_compute. reflexivity.
  - vm_compute. reflexivity.
Defined.

Section loop_coverage.
Context {NodeArray NormalArray Tri Normal RulePoints RuleWeights Terms : Type}.
Context (rule_points : RulePoints) (rule_weights : RuleWeights).
Context (face_integrals_yla_oijala :
           Tri → RulePoints → RuleWeights → Tri → Normal
           → Singular.face_integrals (Terms := Terms)).
Context (take_nodes : NodeArray → list nat → Tri).
Context (normal_at : NormalArray → nat → Normal).
Context (set_iter : gset nat → list nat).

Local Abbreviation Mesh := (Singular.Mesh (NodeArray := NodeArray)).
Local Abbreviation visits := (Singular.visits set_iter).
Implicit Types (msh : Mesh) (normals : NormalArray).

Lemma has_key_of_ops (subs : list (np_dtype * option (list nat)))
    (ops : list ((nat * nat) * list Terms)) idx :
  NoDup ops.*1 →
  (∃ it, MultiSparse.getitem (of_ops subs ops) idx = inr it) ↔ idx ∈ ops.*1.
Proof.
  intros Hnd. split.
  - intros [it Hit]. apply dec_stable. intros Hn.
    by rewrite getitem_of_ops_absent in Hit.
  - intros ([idx' it] & -> & Hin)%list_elem_of_fmap.
    exists it. by apply getitem_of_ops_present.
Qed.

(** X10: the stores built by an integration loop that runs to its end
    hold the touching pairs and nothing else.  [T_EFIE] has a key [(p, q)]
    exactly when [p] is a face of the mesh and the adjacency of the mesh
    lists [q] at one of the nodes of [p]; [T_MFIE] and [N_MFIE] have the
    same keys as each other, those of [T_EFIE] with [q <> p].  The kernel
    is evaluated once per key of [T_EFIE], and every face the adjacency
    lists is a face of the mesh. *)
Theorem stores_hold_exactly_touching_pairs msh normals num_terms s calls :
  (∀ X : gset nat, set_iter X ≡ₚ elements X) →
  Singular.integrate rule_points rule_weights face_integrals_yla_oijala
    take_nodes normal_at set_iter msh normals num_terms = (inr s, calls) →
  (∀ p q,
     (∃ it, MultiSparse.getitem (Singular.T_EFIE s) (p, q) = inr it)
     ↔ Loop.touches msh p q)
  ∧ (∀ p q,
       (∃ it, MultiSparse.getitem (Singular.T_MFIE s) (p, q) = inr it)
       ↔ Loop.touches msh p q ∧ q ≠ p)
  ∧ (∀ p q,
       (∃ it, MultiSparse.getitem (Singular.N_MFIE s) (p, q) = inr it)
       ↔ Loop.touches msh p q ∧ q ≠ p)
  ∧ calls = MultiSparse.len (Singular.T_EFIE s)
  ∧ MultiSparse.len (Singular.T_MFIE s) = MultiSparse.len (Singular.N_MFIE s)
  ∧ MultiSparse.len (Singular.T_MFIE s) ≤ MultiSparse.len (Singular.T_EFIE s)
  ∧ (∀ p q, Loop.touches msh p q → q < length (Singular.polygons msh)).
Proof.
  intros Henum (Hf & -> & ->)%integrate_inr.
  unfold Loop.stores_after. cbn [Singular.T_EFIE Singular.T_MFIE Singular.N_MFIE].
  pose proof (NoDup_visits _ Henum msh) as Hnd.
  assert (Hndo : NoDup (Loop.off_diagonal (visits msh))) by by apply NoDup_filter.
  split_and!.
  - intros p q. rewrite has_key_of_ops by by rewrite efie_ops_keys.
    rewrite efie_ops_keys. by apply elem_of_visits.
  - intros p q. rewrite has_key_of_ops by by rewrite t_mfie_ops_keys.
    rewrite t_mfie_ops_keys, elem_of_off_diagonal, elem_of_visits by done. tauto.
  - intros p q. rewrite has_key_of_ops by by rewrite n_mfie_ops_keys.
    rewrite n_mfie_ops_keys, elem_of_off_diagonal, elem_of_visits by done. tauto.
  - rewrite len_of_ops_NoDup by by rewrite efie_ops_keys.
    unfold Loop.efie_ops. by rewrite length_fmap.
  - rewrite !len_of_ops_NoDup by by rewrite ?t_mfie_ops_keys, ?n_mfie_ops_keys.
    unfold Loop.t_mfie_ops, Loop.n_mfie_ops. by rewrite !length_fmap.
  - rewrite !len_of_ops_NoDup by by rewrite ?t_mfie_ops_keys, ?efie_ops_keys.
    unfold Loop.t_mfie_ops, Loop.efie_ops. rewrite !length_fmap.
    apply length_filter.
  - intros p q Hpq. apply (elem_of_visits _ Henum) in Hpq.
    rewrite Forall_forall in Hf. by destruct (Hf _ Hpq).
Qed.
End loop_coverage.

Lemma stores_hold_exactly_touching_pairs_witness :
  (∀ p q,
     (∃ it, MultiSparse.getitem (Singular.T_EFIE demo_stores) (p, q) = inr it)
     ↔ Loop.touches demo_mesh p q)
  ∧ (∀ p q,
       (∃ it, MultiSparse.getitem (Singular.T_MFIE demo_stores) (p, q) = inr it)
       ↔ Loop.touches demo_mesh p q ∧ q ≠ p)
  ∧ (∀ p q,
       (∃ it, MultiSparse.getitem (Singular.N_MFIE demo_stores) (p, q) = inr it)
       ↔ Loop.touches demo_mesh p q ∧ q ≠ p)
  ∧ 5 = MultiSparse.len (Singular.T_EFIE demo_stores)
  ∧ MultiSparse.len (Singular.T_MFIE demo_stores)
    = MultiSparse.len (Singular.N_MFIE demo_stores)
  ∧ MultiSparse.len (Singular.T_MFIE demo_stores)
    ≤ MultiSparse.len (Singular.T_EFIE demo_stores)
  ∧ (∀ p q, Loop.touches demo_mesh p q → q < length (Singular.polygons demo_mesh)).
Proof.
  apply (stores_hold_exactly_touching_pairs tt tt demo_kernel demo_take_nodes
           demo_normal_at demo_set_iter demo_mesh tt 2 demo_stores 5).
  - exact demo_set_iter_enum.
  - vm_compute. reflexivity.
Defined.

(** ** Order of iteration and of the column indices *)

Section first_seen_facts.
Context {X : Type} `{EqDecision X}.
Implicit Types (l : list X) (x : X).

Lemma elem_of_first_seen l x : x ∈ first_seen l ↔ x ∈ l.
Proof.
  unfold first_seen. induction l as [|y l IH] using rev_ind; [done|].
  rewrite foldl_snoc, elem_of_app, list_elem_of_singleton, <- IH.
  case_decide as Hy; [|by rewrite elem_of_app, list_elem_of_singleton].
  split; [by left|]. by intros [?| ->].
Qed.

Lemma first_seen_snoc l x :
  first_seen (l ++ [x])
  = if decide (x ∈ l) then first_seen l else first_seen l ++ [x].
Proof.
  unfold first_seen at 1. rewrite foldl_snoc. fold (first_seen l).
  destruct (decide (x ∈ l)) as [Hin|Hin].
  - by rewrite decide_True by by apply elem_of_first_seen.
  - by rewrite decide_False by by rewrite elem_of_first_seen.
Qed.

Lemma first_seen_nil : first_seen (@nil X) = [].
Proof. done. Qed.
End first_seen_facts.

Section iteration_order.
Context {A : Type}.
Implicit Types (subs : list (np_dtype * option (list nat))).
Implicit Types (ops : list ((nat * nat) * list A)).
Implicit Types (rws : list (nat * list (nat * list A))).

Lemma get_is_Some_keys {K V} `{EqDecision K} (d : list (K * V)) k :
  is_Some (PyDict.get d k) ↔ k ∈ PyDict.keys d.
Proof.
  destruct (PyDict.get d k) as [v|] eqn:Hg.
  - split; [|by eexists]. intros _. apply dec_stable. intros Hn.
    apply get_None in Hn. congruence.
  - split; [by intros [? [=]]|]. intros Hin. by apply get_None in Hg.
Qed.

Lemma rows_keys_of_ops subs ops :
  PyDict.keys (MultiSparse.rows (of_ops subs ops)) = first_seen ops.*1.*1.
Proof.
  induction ops as [|[[r c] it] ops IH] using rev_ind; [done|].
  rewrite of_ops_snoc, !fmap_app. csimpl. rewrite first_seen_snoc, <- IH.
  unfold MultiSparse.setitem. simpl.
  assert (Hr : r ∈ ops.*1.*1 ↔ is_Some (PyDict.get (MultiSparse.rows (of_ops subs ops)) r)).
  { by rewrite get_is_Some_keys, IH, elem_of_first_seen. }
  destruct (PyDict.get (MultiSparse.rows (of_ops subs ops)) r) as [d0|] eqn:Hg;
    simpl; rewrite keys_set, Hg.
  - rewrite decide_True; [done|]. apply Hr. by eexists.
  - rewrite decide_False; [done|]. rewrite Hr. by intros [? [=]].
Qed.

Lemma row_entries_setitem (m : MultiSparse.t A) r c it r' :
  row_entries (MultiSparse.rows (MultiSparse.setitem m (r, c) it)) r'
  = if decide (r' = r)
    then PyDict.set (row_entries (MultiSparse.rows m) r) c it
    else row_entries (MultiSparse.rows m) r'.
Proof.
  unfold row_entries, MultiSparse.setitem.
  destruct (decide (r' = r)) as [->|Hne].
  - destruct (PyDict.get (MultiSparse.rows m) r) as [d0|] eqn:Hg; simpl;
      by rewrite get_set_eq.
  - destruct (PyDict.get (MultiSparse.rows m) r) as [d0|] eqn:Hg; simpl;
      by rewrite get_set_ne.
Qed.

Lemma row_keys_of_ops subs ops r :
  PyDict.keys (row_entries (MultiSparse.rows (of_ops subs ops)) r) = cols_of_row ops r.
Proof.
  unfold cols_of_row. induction ops as [|[[r0 c0] it] ops IH] using rev_ind; [done|].
  rewrite of_ops_snoc. cbn [fst snd]. rewrite row_entries_setitem, filter_app.
  rewrite filter_cons, filter_nil. cbn [fst snd].
  destruct (decide (r = r0)) as [->|Hne].
  - rewrite decide_True by done. rewrite !fmap_app. csimpl.
    rewrite first_seen_snoc, <- IH, keys_set.
    destruct (PyDict.get (row_entries (MultiSparse.rows (of_ops subs ops)) r0) c0)
      as [v|] eqn:Hg.
    + rewrite decide_True; [done|].
      rewrite <- elem_of_first_seen, <- IH. apply get_is_Some_keys. by eexists.
    + rewrite decide_False; [done|].
      rewrite <- elem_of_first_seen, <- IH. by apply get_None.
  - rewrite decide_False by done. by rewrite app_nil_r.
Qed.

Lemma bind_rows_by_key {Y} (f : nat → list (nat * list A) → list Y) rws :
  NoDup (PyDict.keys rws) →
  (rd ← rws; f rd.1 rd.2) = (r ← PyDict.keys rws; f r (row_entries rws r)).
Proof.
  unfold PyDict.keys.
  induction rws as [|[k d0] rws IH]; csimpl; [done|].
  intros [Hnin Hnd]%NoDup_cons. f_equal.
  - unfold row_entries. simpl. by rewrite decide_True.
  - rewrite IH by done. apply Forall_bind_ext, Forall_forall. intros r Hr.
    unfold row_entries. simpl. rewrite decide_False; [done|]. by intros ->.
Qed.

(** X11: [items] yields the entries grouped by row, the rows in the order
    in which they were first assigned and, within a row, the columns in
    the order in which they were first assigned; re-assigning a key does
    not move it. *)
Theorem items_in_first_assignment_order subs ops :
  (MultiSparse.items (of_ops subs ops)).*1
  = r ← first_seen ops.*1.*1; (λ c, (r, c)) <$> cols_of_row ops r.
Proof.
  unfold MultiSparse.items. rewrite <- (rows_keys_of_ops subs).
  transitivity (rd ← MultiSparse.rows (of_ops subs ops);
                (λ c, (rd.1, c)) <$> PyDict.keys rd.2).
  - induction (MultiSparse.rows (of_ops subs ops)) as [|rd rws IH]; [done|].
    csimpl. rewrite fmap_app, IH. f_equal.
    unfold PyDict.keys. rewrite <- !list_fmap_compose. by apply list_fmap_ext.
  - pose proof (store_ok_of_ops subs ops) as [Hnd _].
    rewrite (bind_rows_by_key (λ r d, (λ c, (r, c)) <$> PyDict.keys d)) by done.
    apply Forall_bind_ext, Forall_forall. intros r _.
    by rewrite (row_keys_of_ops subs).
Qed.
End iteration_order.

(** ** Contents of the arrays returned by [to_csr] *)

Section returned_arrays.
Context {A : Type}.
Context (np_cast : np_dtype → list nat → A → string + A).
Context (numpy : numpy_version).
Implicit Types (subs : list (np_dtype * option (list nat))).
Implicit Types (ops : list ((nat * nat) * list A)).
Implicit Types (rws : list (nat * list (nat * list A))).

(** The cells of the arrays [to_csr] returns, in terms of the entries of
    the store taken by ascending row. *)
Lemma to_csr_cells subs ops ord out :
  MultiSparse.to_csr np_cast numpy (of_ops subs ops) ord = inr out →
  ∃ das idx ptr,
    out = (MultiSparse.DataArray <$> das)
            ++ [MultiSparse.IndexArray idx; MultiSparse.IndexArray ptr]
    ∧ length das = length subs
    ∧ (∀ j a sub, das !! j = Some a → subs !! j = Some sub →
         cells a
         = (λ ci : nat * list A, ci.2 !! j ≫= np_stored np_cast sub)
             <$> entries_upto (MultiSparse.rows (of_ops subs ops))
                   (num_rows_of (MultiSparse.rows (of_ops subs ops))))
    ∧ cells idx
      = (λ ci : nat * list A, Some (int32_of_int (Z.of_nat ci.1)))
          <$> entries_upto (MultiSparse.rows (of_ops subs ops))
                (num_rows_of (MultiSparse.rows (of_ops subs ops)))
    ∧ cells ptr
      = (λ k, Some (int32_of_int (Z.of_nat k)))
          <$> ptr_upto (MultiSparse.rows (of_ops subs ops))
                (num_rows_of (MultiSparse.rows (of_ops subs ops))).
Proof.
  intros (Hne & es & Hes & ->)%to_csr_inr.
  pose proof (length_converted _ _ _ _ _ Hes) as Hlen.
  pose proof (converted_cols _ _ _ _ _ Hes) as Hcols.
  eexists _, _, _. split_and!.
  - unfold arrays_of. by rewrite subarrays_of_ops.
  - unfold das_of. by rewrite length_imap.
  - intros j a sub. unfold das_of. rewrite list_lookup_imap.
    intros Ha Hsub. rewrite Hsub in Ha. injection Ha as <-. cbn [with_cells cells].
    rewrite <- Hlen, dat_cells_full.
    by rewrite (converted_cells _ _ _ _ _ j sub Hes).
  - cbn [cells]. rewrite <- Hlen, idx_cells_full.
    change (λ ci : nat * list A, Some (int32_of_int (Z.of_nat ci.1)))
      with ((λ c, Some (int32_of_int (Z.of_nat c))) ∘ (fst : nat * list A → nat)).
    by rewrite !list_fmap_compose, Hcols.
  - done.
Qed.

(** With numpy 2, or when the column indices and the item count are
    below [2^31], the integers stored in the [int32] arrays are in range. *)
Lemma to_csr_bounds subs ops ord out :
  MultiSparse.to_csr np_cast numpy (of_ops subs ops) ord = inr out →
  numpy = Numpy2
  ∨ (Forall (λ op, (Z.of_nat op.1.2 < 2 ^ 31)%Z) ops
     ∧ (Z.of_nat (MultiSparse.len (of_ops subs ops)) < 2 ^ 31)%Z) →
  Forall (λ ci : nat * list A, (Z.of_nat ci.1 < 2 ^ 31)%Z)
    (entries_upto (MultiSparse.rows (of_ops subs ops))
       (num_rows_of (MultiSparse.rows (of_ops subs ops))))
  ∧ (Z.of_nat (length (entries_upto (MultiSparse.rows (of_ops subs ops))
                         (num_rows_of (MultiSparse.rows (of_ops subs ops)))))
     < 2 ^ 31)%Z.
Proof.
  intros Hout Hplain.
  pose proof (store_ok_of_ops subs ops) as Hok.
  pose proof (keyed_upto_of_ops subs ops) as HL.
  rewrite length_entries_upto by done.
  assert (Hconv : convertible np_cast numpy (of_ops subs ops)).
  { apply (csr_of_is_inr np_cast numpy _ ord Hok). exists out.
    destruct (to_csr_inr _ _ _ _ _ _ Hout) as [Hne _].
    by rewrite <- to_csr_of_ops. }
  destruct Hconv as [Hitems Hlen].
  assert (Hb : Forall (λ e : (nat * nat) * list A, (Z.of_nat e.1.2 < 2 ^ 31)%Z)
                 (MultiSparse.items (of_ops subs ops))
               ∧ (Z.of_nat (MultiSparse.len (of_ops subs ops)) < 2 ^ 31)%Z).
  { destruct Hplain as [->|[Hc Hl]].
    - split; [|by apply int32_storable_numpy2].
      eapply Forall_impl; [exact Hitems|].
      intros e (_ & _ & He). by apply int32_storable_numpy2.
    - split; [|done]. by apply Forall_items_of_ops. }
  destruct Hb as [Hbc Hbl]. split; [|done].
  rewrite <- keyed_upto_entries. apply Forall_fmap. rewrite HL.
  eapply Forall_impl; [exact Hbc|]. by intros e He.
Qed.

Lemma idx_cells_plain (E : list (nat * list A)) :
  Forall (λ ci : nat * list A, (Z.of_nat ci.1 < 2 ^ 31)%Z) E →
  (λ ci : nat * list A, Some (int32_of_int (Z.of_nat ci.1))) <$> E
  = (λ ci : nat * list A, Some (Z.of_nat ci.1)) <$> E.
Proof.
  intros Hb. apply Forall_fmap_ext. eapply Forall_impl; [exact Hb|].
  intros ci Hci. cbv beta in Hci. simpl. f_equal. apply int32_of_int_small. lia.
Qed.

Lemma ptr_cells_plain rws n :
  (Z.of_nat (length (entries_upto rws n)) < 2 ^ 31)%Z →
  (λ k, Some (int32_of_int (Z.of_nat k))) <$> ptr_upto rws n
  = (λ k, Some (Z.of_nat k)) <$> ptr_upto rws n.
Proof.
  intros Hb. apply Forall_fmap_ext, Forall_forall.
  intros p (k & -> & [_ Hk]%elem_of_seq)%list_elem_of_fmap.
  f_equal. apply int32_of_int_small.
  pose proof (length_entries_upto_mono rws k n). lia.
Qed.

Lemma cols_upto_S ops k : cols_upto ops (S k) = cols_upto ops k ++ cols_of_row ops k.
Proof. unfold cols_upto. rewrite seq_S, bind_app. simpl. by rewrite app_nil_r. Qed.

Lemma entries_upto_cols subs ops k :
  (entries_upto (MultiSparse.rows (of_ops subs ops)) k).*1 = cols_upto ops k.
Proof.
  induction k as [|k IH]; [done|].
  rewrite entries_upto_S, cols_upto_S, fmap_app, IH. f_equal.
  apply (row_keys_of_ops subs).
Qed.

Lemma idx_entries_of_ops subs ops :
  (λ ci : nat * list A, Some (int32_of_int (Z.of_nat ci.1)))
    <$> entries_upto (MultiSparse.rows (of_ops subs ops))
          (num_rows_of (MultiSparse.rows (of_ops subs ops)))
  = (λ c, Some (int32_of_int (Z.of_nat c))) <$> cols_upto ops (S (max_list ops.*1.*1)).
Proof.
  rewrite num_rows_of_ops, <- (entries_upto_cols subs).
  by rewrite <- (list_fmap_compose fst (λ c : nat, Some (int32_of_int (Z.of_nat c)))).
Qed.

Lemma ptr_upto_of_ops subs ops :
  ptr_upto (MultiSparse.rows (of_ops subs ops))
    (num_rows_of (MultiSparse.rows (of_ops subs ops)))
  = (λ k, length (cols_upto ops k)) <$> seq 0 (S (S (max_list ops.*1.*1))).
Proof.
  unfold ptr_upto. rewrite num_rows_of_ops. apply list_fmap_ext. intros _ k _.
  by rewrite <- (entries_upto_cols subs), length_fmap.
Qed.

Lemma cols_of_row_keys ops (ops' : list ((nat * nat) * list A)) r :
  ops.*1 = ops'.*1 → cols_of_row ops r = cols_of_row ops' r.
Proof.
  intros Hkeys. unfold cols_of_row.
  assert (Hf : ∀ l : list ((nat * nat) * list A),
             (filter (λ op, op.1.1 = r) l).*1 = filter (λ k, k.1 = r) l.*1).
  { induction l as [|op l IHl]; [done|]. csimpl. rewrite !filter_cons. simpl.
    destruct (decide (op.1.1 = r)); csimpl; by rewrite IHl. }
  by rewrite !Hf, Hkeys.
Qed.

(** X12: in the arrays returned by [to_csr] the column indices are listed
    row by row, by ascending row, and within a row in the order in which
    the columns were first assigned (they are not sorted), each as an
    [int32]; entry [k] of the row-pointer array is the number of columns
    held by the rows below [k].  With numpy 2, or when the column indices
    and the item count are below [2^31], the cells hold these numbers
    themselves. *)
Theorem to_csr_indices_by_assignment subs ops ord out :
  MultiSparse.to_csr np_cast numpy (of_ops subs ops) ord = inr out →
  ∃ das idx ptr,
    out = (MultiSparse.DataArray <$> das)
            ++ [MultiSparse.IndexArray idx; MultiSparse.IndexArray ptr]
    ∧ cells idx
      = (λ c, Some (int32_of_int (Z.of_nat c)))
          <$> cols_upto ops (S (max_list ops.*1.*1))
    ∧ cells ptr
      = (λ k, Some (int32_of_int (Z.of_nat (length (cols_upto ops k)))))
          <$> seq 0 (S (S (max_list ops.*1.*1)))
    ∧ (numpy = Numpy2
       ∨ (Forall (λ op, (Z.of_nat op.1.2 < 2 ^ 31)%Z) ops
          ∧ (Z.of_nat (MultiSparse.len (of_ops subs ops)) < 2 ^ 31)%Z) →
       cells idx = (λ c, Some (Z.of_nat c)) <$> cols_upto ops (S (max_list ops.*1.*1))
       ∧ cells ptr
         = (λ k, Some (Z.of_nat (length (cols_upto ops k))))
             <$> seq 0 (S (S (max_list ops.*1.*1)))).
Proof.
  intros Hout.
  destruct (to_csr_cells _ _ _ _ Hout) as (das & idx & ptr & -> & _ & _ & Hidx & Hptr).
  exists das, idx, ptr. split; [done|].
  assert (Hcomp : ∀ g : nat → option Z,
            g <$> ptr_upto (MultiSparse.rows (of_ops subs ops))
                    (num_rows_of (MultiSparse.rows (of_ops subs ops)))
            = (λ k, g (length (cols_upto ops k))) <$> seq 0 (S (S (max_list ops.*1.*1)))).
  { intros g. rewrite ptr_upto_of_ops. by rewrite <- list_fmap_compose. }
  split_and!.
  - by rewrite Hidx, idx_entries_of_ops.
  - by rewrite Hptr, Hcomp.
  - intros Hplain. destruct (to_csr_bounds _ _ _ _ Hout Hplain) as [Hbc Hbl]. split.
    + rewrite Hidx, idx_cells_plain by done.
      rewrite num_rows_of_ops, <- (entries_upto_cols subs).
      by rewrite <- (list_fmap_compose fst (λ c : nat, Some (Z.of_nat c))).
    + by rewrite Hptr, ptr_cells_plain, Hcomp.
Qed.

Lemma ndarray_eq {T} (a b : ndarray T) :
  dtype a = dtype b → shape a = shape b → order a = order b → cells a = cells b →
  a = b.
Proof. destruct a, b. simpl. congruence. Qed.

(** Two stores that were assigned the same keys in the same order have
    the same index and row-pointer arrays. *)
Lemma index_arrays_by_keys subs subs' ops (ops' : list ((nat * nat) * list A))
    ord out out' :
  ops.*1 = ops'.*1 →
  MultiSparse.to_csr np_cast numpy (of_ops subs ops) ord = inr out →
  MultiSparse.to_csr np_cast numpy (of_ops subs' ops') ord = inr out' →
  Csr.index_of out = Csr.index_of out'.
Proof.
  intros Hkeys Hout Hout'.
  destruct (to_csr_layout _ _ _ _ _ _ Hout)
    as (das & idx & ptr & Heq & _ & (Hdi & Hsi & Hoi & _) & (Hdp & Hsp & _ & Hop)).
  destruct (to_csr_layout _ _ _ _ _ _ Hout')
    as (das' & idx' & ptr' & Heq' & _ & (Hdi' & Hsi' & Hoi' & _) & (Hdp' & Hsp' & _ & Hop')).
  destruct (to_csr_cells _ _ _ _ Hout) as (das0 & idx0 & ptr0 & Heq0 & _ & _ & Hidx & Hptr).
  destruct (to_csr_cells _ _ _ _ Hout') as (das0' & idx0' & ptr0' & Heq0' & _ & _ & Hidx' & Hptr').
  assert (Hi : Csr.index_of out = [idx; ptr]) by (rewrite Heq; apply index_of_bundle).
  assert (Hi0 : Csr.index_of out = [idx0; ptr0]) by (rewrite Heq0; apply index_of_bundle).
  assert (Hi' : Csr.index_of out' = [idx'; ptr']) by (rewrite Heq'; apply index_of_bundle).
  assert (Hi0' : Csr.index_of out' = [idx0'; ptr0']) by (rewrite Heq0'; apply index_of_bundle).
  assert (idx0 = idx ∧ ptr0 = ptr) as [-> ->] by (split; congruence).
  assert (idx0' = idx' ∧ ptr0' = ptr') as [-> ->] by (split; congruence).
  rewrite Hi, Hi'.
  assert (Hcols : ∀ k, cols_upto ops k = cols_upto ops' k).
  { intros k. unfold cols_upto. apply Forall_bind_ext, Forall_forall.
    intros r _. by apply cols_of_row_keys. }
  assert (Hlen : MultiSparse.len (of_ops subs ops) = MultiSparse.len (of_ops subs' ops')).
  { rewrite !len_items, <- !(length_fmap fst), !items_keys_of_ops. by rewrite Hkeys. }
  assert (Hmax : max_list ops.*1.*1 = max_list ops'.*1.*1) by by rewrite Hkeys.
  rewrite idx_entries_of_ops in Hidx, Hidx'. rewrite ptr_upto_of_ops in Hptr, Hptr'.
  assert (idx = idx') as ->.
  { apply ndarray_eq; [congruence|congruence|congruence|].
    by rewrite Hidx, Hidx', Hmax, Hcols. }
  assert (ptr = ptr') as ->; [|done].
  apply ndarray_eq; [congruence|congruence|congruence|].
  rewrite Hptr, Hptr', Hmax. f_equal. apply list_fmap_ext. intros _ k _.
  by rewrite Hcols.
Qed.

Lemma keys_upto_S ops k :
  keys_upto ops (S k) = keys_upto ops k ++ ((λ c, (k, c)) <$> cols_of_row ops k).
Proof. unfold keys_upto. rewrite seq_S, bind_app. simpl. by rewrite app_nil_r. Qed.

Lemma row_entries_last_assigned subs ops r c it :
  (c, it) ∈ row_entries (MultiSparse.rows (of_ops subs ops)) r →
  last_assigned ops (r, c) = Some it.
Proof.
  intros Hin. pose proof (store_ok_of_ops subs ops) as [_ Hall].
  apply elem_of_get in Hin; [|by apply row_entries_NoDup].
  pose proof (getitem_of_ops subs ops (r, c)) as Hg.
  unfold MultiSparse.getitem in Hg. cbn [fst snd] in Hg.
  unfold row_entries in Hin.
  destruct (PyDict.get (MultiSparse.rows (of_ops subs ops)) r) as [d0|]; [|done].
  simpl in Hin. rewrite Hin in Hg.
  destruct (last_assigned ops (r, c)) as [it'|]; [|done].
  by injection Hg as ->.
Qed.

Lemma dat_row_of_ops subs ops r j :
  (λ ci : nat * list A, ci.2 !! j) <$> row_entries (MultiSparse.rows (of_ops subs ops)) r
  = (λ key, last_assigned ops key ≫= (.!! j)) <$> ((λ c, (r, c)) <$> cols_of_row ops r).
Proof.
  rewrite <- (row_keys_of_ops subs). unfold PyDict.keys.
  rewrite <- !list_fmap_compose. apply list_fmap_ext. intros i [c it] Hi.
  apply list_elem_of_lookup_2 in Hi. simpl.
  by rewrite (row_entries_last_assigned subs ops r c it).
Qed.

Lemma dat_upto_of_ops subs ops k j :
  (λ ci : nat * list A, ci.2 !! j) <$> entries_upto (MultiSparse.rows (of_ops subs ops)) k
  = (λ key, last_assigned ops key ≫= (.!! j)) <$> keys_upto ops k.
Proof.
  induction k as [|k IH]; [done|].
  by rewrite entries_upto_S, keys_upto_S, !fmap_app, IH, dat_row_of_ops.
Qed.

(** X14: cell [k] of the [j]-th data array returned by [to_csr] holds
    element [j] of the item most recently assigned to the [k]-th key, as
    numpy converts it to the dtype and shape of the sub-array, the keys
    taken by ascending row and, within a row, in the order in which the
    columns were first assigned.  An item with fewer elements than there
    are declared sub-arrays is accepted: the cells it does not reach stay
    as [np.empty] allocated them. *)
Theorem to_csr_data_by_assignment subs ops ord out :
  MultiSparse.to_csr np_cast numpy (of_ops subs ops) ord = inr out →
  ∃ das idx ptr,
    out = (MultiSparse.DataArray <$> das)
            ++ [MultiSparse.IndexArray idx; MultiSparse.IndexArray ptr]
    ∧ length das = length subs
    ∧ ∀ j a sub,
        das !! j = Some a →
        subs !! j = Some sub →
        cells a
        = (λ key, (last_assigned ops key ≫= (.!! j)) ≫= np_stored np_cast sub)
            <$> keys_upto ops (S (max_list ops.*1.*1)).
Proof.
  intros Hout.
  destruct (to_csr_cells _ _ _ _ Hout) as (das & idx & ptr & -> & Hlen & Hdat & _ & _).
  exists das, idx, ptr. split_and!; [done|done|].
  intros j a sub Ha Hsub. rewrite (Hdat j a sub Ha Hsub).
  change (λ ci : nat * list A, ci.2 !! j ≫= np_stored np_cast sub)
    with ((λ o : option A, o ≫= np_stored np_cast sub) ∘ (λ ci : nat * list A, ci.2 !! j)).
  rewrite list_fmap_compose, num_rows_of_ops, dat_upto_of_ops.
  by rewrite <- list_fmap_compose.
Qed.
End returned_arrays.

Lemma to_csr_indices_by_assignment_witness :
  ∃ das idx ptr,
    demo_out C_order
    = (MultiSparse.DataArray <$> das)
        ++ [MultiSparse.IndexArray idx; MultiSparse.IndexArray ptr]
    ∧ cells idx
      = (λ c, Some (int32_of_int (Z.of_nat c)))
          <$> cols_upto demo_ops (S (max_list demo_ops.*1.*1))
    ∧ cells ptr
      = (λ k, Some (int32_of_int (Z.of_nat (length (cols_upto demo_ops k)))))
          <$> seq 0 (S (S (max_list demo_ops.*1.*1)))
    ∧ (Numpy2 = Numpy2
       ∨ (Forall (λ op, (Z.of_nat op.1.2 < 2 ^ 31)%Z) demo_ops
          ∧ (Z.of_nat (MultiSparse.len (of_ops demo_subs demo_ops)) < 2 ^ 31)%Z) →
       cells idx
       = (λ c, Some (Z.of_nat c)) <$> cols_upto demo_ops (S (max_list demo_ops.*1.*1))
       ∧ cells ptr
         = (λ k, Some (Z.of_nat (length (cols_upto demo_ops k))))
             <$> seq 0 (S (S (max_list demo_ops.*1.*1)))).
Proof.
  apply (to_csr_indices_by_assignment demo_cast Numpy2 demo_subs demo_ops C_order
           (demo_out C_order)).
  reflexivity.
Defined.

Lemma to_csr_data_by_assignment_witness :
  ∃ das idx ptr,
    demo_short_out
    = (MultiSparse.DataArray <$> das)
        ++ [MultiSparse.IndexArray idx; MultiSparse.IndexArray ptr]
    ∧ length das = length demo_short_subs
    ∧ ∀ j a sub,
        das !! j = Some a →
        demo_short_subs !! j = Some sub →
        cells a
        = (λ key, (last_assigned demo_short_ops key ≫= (.!! j)) ≫= np_stored demo_cast sub)
            <$> keys_upto demo_short_ops (S (max_list demo_short_ops.*1.*1)).
Proof.
  apply (to_csr_data_by_assignment demo_cast Numpy2 demo_short_subs demo_short_ops
           F_order demo_short_out).
  reflexivity.
Defined.

(** ** Contents of a computed result *)

Section rows_in_order.
Context {A : Type}.
Context (np_cast : np_dtype → list nat → A → string + A).
Context (numpy : numpy_version).
Implicit Types (subs : list (np_dtype * option (list nat))).
Implicit Types (ops : list ((nat * nat) * list A)).
Implicit Types (f : nat → list nat) (l : list (nat * nat)).

Lemma first_seen_NoDup {X} `{EqDecision X} (xs : list X) :
  NoDup xs → first_seen xs = xs.
Proof.
  induction xs as [|x xs IH] using rev_ind; [done|].
  intros (Hnd & Hdis & _)%NoDup_app. rewrite first_seen_snoc, IH by done.
  rewrite decide_False; [done|]. intros Hin. apply (Hdis x Hin). by left.
Qed.

Lemma by_rows_S n f : by_rows (S n) f = by_rows n f ++ ((λ q, (n, q)) <$> f n).
Proof. unfold by_rows. rewrite seq_S, bind_app. simpl. by rewrite app_nil_r. Qed.

Lemma filter_row_fmap (r p : nat) (qs : list nat) :
  filter (λ k : nat * nat, k.1 = r) ((λ q, (p, q)) <$> qs)
  = if decide (p = r) then (λ q, (p, q)) <$> qs else [].
Proof.
  induction qs as [|q qs IH]; csimpl; [by destruct (decide (p = r))|].
  rewrite filter_cons. cbn [fst]. rewrite IH. by destruct (decide (p = r)).
Qed.

Lemma filter_row_by_rows n f r :
  filter (λ k : nat * nat, k.1 = r) (by_rows n f)
  = if decide (r < n) then (λ q, (r, q)) <$> f r else [].
Proof.
  induction n as [|n IH]; [by rewrite decide_False by lia|].
  rewrite by_rows_S, filter_app, IH, filter_row_fmap.
  destruct (decide (n = r)) as [->|Hne].
  - rewrite decide_False by lia. by rewrite decide_True by lia.
  - rewrite app_nil_r.
    destruct (decide (r < n)); [by rewrite decide_True by lia|by rewrite decide_False by lia].
Qed.

Lemma filter_row_keys ops r :
  (filter (λ op, op.1.1 = r) ops).*1 = filter (λ k : nat * nat, k.1 = r) ops.*1.
Proof.
  induction ops as [|op ops IH]; [done|]. csimpl. rewrite !filter_cons. simpl.
  destruct (decide (op.1.1 = r)); csimpl; by rewrite IH.
Qed.

Lemma cols_of_row_by_rows ops n f r :
  ops.*1 = by_rows n f → (∀ p, NoDup (f p)) →
  cols_of_row ops r = if decide (r < n) then f r else [].
Proof.
  intros Hk Hnd. unfold cols_of_row. rewrite filter_row_keys, Hk, filter_row_by_rows.
  destruct (decide (r < n)); [|done].
  rewrite <- list_fmap_compose.
  rewrite (list_fmap_ext (snd ∘ (λ q : nat, (r, q))) id (f r)) by done.
  rewrite list_fmap_id. by apply first_seen_NoDup.
Qed.

Lemma keys_upto_by_rows ops n f k :
  ops.*1 = by_rows n f → (∀ p, NoDup (f p)) →
  keys_upto ops k = by_rows (k `min` n) f.
Proof.
  intros Hk Hnd. induction k as [|k IH]; [done|].
  rewrite keys_upto_S, IH, (cols_of_row_by_rows ops n f) by done.
  destruct (decide (k < n)).
  - replace (S k `min` n) with (S (k `min` n)) by lia. rewrite by_rows_S.
    by replace (k `min` n) with k by lia.
  - rewrite fmap_nil, app_nil_r. f_equal. lia.
Qed.

Lemma by_rows_trim n m f :
  m ≤ n → (∀ p, m ≤ p < n → f p = []) → by_rows n f = by_rows m f.
Proof.
  intros Hle. induction Hle as [|n Hle IH]; intros Hemp; [done|].
  rewrite by_rows_S, (Hemp n) by lia. rewrite fmap_nil, app_nil_r.
  apply IH. intros p Hp. apply Hemp. lia.
Qed.

Lemma keys_upto_all ops n f :
  ops.*1 = by_rows n f → (∀ p, NoDup (f p)) →
  keys_upto ops (S (max_list ops.*1.*1)) = ops.*1.
Proof.
  intros Hk Hnd. rewrite (keys_upto_by_rows ops n f) by done.
  transitivity (by_rows n f); [|done]. symmetry. apply by_rows_trim; [lia|].
  intros p [Hp1 Hp2]. destruct (f p) as [|q qs] eqn:Hf; [done|]. exfalso.
  assert (Hin : p ∈ ops.*1.*1).
  { rewrite Hk. apply list_elem_of_fmap. exists (p, q). split; [done|].
    unfold by_rows. apply list_elem_of_bind. exists p. split.
    - rewrite Hf. by left.
    - apply elem_of_seq. lia. }
  apply max_list_elem_of_le in Hin. lia.
Qed.

Lemma cols_upto_keys ops k : cols_upto ops k = (keys_upto ops k).*2.
Proof.
  induction k as [|k IH]; [done|].
  rewrite cols_upto_S, keys_upto_S, fmap_app, IH. f_equal.
  rewrite <- list_fmap_compose.
  rewrite (list_fmap_ext (snd ∘ (λ q : nat, (k, q))) id (cols_of_row ops k)) by done.
  by rewrite list_fmap_id.
Qed.

Lemma last_assigned_fmap (g : nat * nat → list A) l pq :
  pq ∈ l → last_assigned ((λ pq, (pq, g pq)) <$> l) pq = Some (g pq).
Proof.
  induction l as [|x l IH] using rev_ind.
  - intros Hin. by apply elem_of_nil in Hin.
  - rewrite fmap_app. csimpl. rewrite last_assigned_snoc. cbn [fst snd].
    destruct (decide (x = pq)) as [->|Hne]; [done|].
    intros [Hin|Hin%list_elem_of_singleton]%elem_of_app; [by apply IH|congruence].
Qed.

Lemma keys_of_fmap (g : nat * nat → list A) l : ((λ pq, (pq, g pq)) <$> l).*1 = l.
Proof.
  rewrite <- list_fmap_compose. rewrite <- (list_fmap_id l) at 2.
  by apply list_fmap_ext.
Qed.

Lemma dat_entries_by_rows subs (g : nat * nat → list A) l n f j :
  l = by_rows n f → (∀ p, NoDup (f p)) →
  (λ ci : nat * list A, ci.2 !! j)
    <$> entries_upto (MultiSparse.rows (of_ops subs ((λ pq, (pq, g pq)) <$> l)))
          (num_rows_of (MultiSparse.rows (of_ops subs ((λ pq, (pq, g pq)) <$> l))))
  = (λ pq, g pq !! j) <$> l.
Proof.
  intros Hl Hnd. set (ops := (λ pq, (pq, g pq)) <$> l).
  assert (Hk : ops.*1 = by_rows n f) by by (unfold ops; rewrite keys_of_fmap).
  rewrite num_rows_of_ops, dat_upto_of_ops.
  rewrite (keys_upto_all ops n f) by done.
  unfold ops at 2. rewrite keys_of_fmap. apply list_fmap_ext. intros i pq Hi.
  apply list_elem_of_lookup_2 in Hi. unfold ops. by rewrite last_assigned_fmap.
Qed.

Lemma idx_entries_by_rows subs (g : nat * nat → list A) l n f :
  l = by_rows n f → (∀ p, NoDup (f p)) →
  (λ ci : nat * list A, Some (int32_of_int (Z.of_nat ci.1)))
    <$> entries_upto (MultiSparse.rows (of_ops subs ((λ pq, (pq, g pq)) <$> l)))
          (num_rows_of (MultiSparse.rows (of_ops subs ((λ pq, (pq, g pq)) <$> l))))
  = (λ pq, Some (int32_of_int (Z.of_nat pq.2))) <$> l.
Proof.
  intros Hl Hnd. set (ops := (λ pq, (pq, g pq)) <$> l).
  assert (Hk : ops.*1 = by_rows n f) by by (unfold ops; rewrite keys_of_fmap).
  rewrite idx_entries_of_ops, cols_upto_keys, (keys_upto_all ops n f) by done.
  unfold ops. rewrite keys_of_fmap.
  by rewrite <- (list_fmap_compose snd (λ c : nat, Some (int32_of_int (Z.of_nat c)))).
Qed.

(** The arrays returned for a store that was assigned the keys [l], row
    by row and each key once, the item of key [pq] being [g pq]. *)
Lemma to_csr_by_rows subs (g : nat * nat → list A) l n f ord out :
  l = by_rows n f → (∀ p, NoDup (f p)) →
  MultiSparse.to_csr np_cast numpy (of_ops subs ((λ pq, (pq, g pq)) <$> l)) ord = inr out →
  cells <$> Csr.data_of out
  = imap (λ j sub, (λ pq, g pq !! j ≫= np_stored np_cast sub) <$> l) subs
  ∧ (cells <$> Csr.index_of out) !! 0
    = Some ((λ pq, Some (int32_of_int (Z.of_nat pq.2))) <$> l).
Proof.
  intros Hl Hnd Hout.
  destruct (to_csr_cells _ _ _ _ _ _ Hout)
    as (das & idx & ptr & -> & Hlen & Hdat & Hidx & _).
  rewrite data_of_bundle, index_of_bundle. split.
  - apply list_eq. intros j. rewrite list_lookup_fmap, list_lookup_imap.
    destruct (das !! j) as [a|] eqn:Ha, (subs !! j) as [sub|] eqn:Hsub; simpl.
    + rewrite (Hdat j a sub Ha Hsub).
      change (λ ci : nat * list A, ci.2 !! j ≫= np_stored np_cast sub)
        with ((λ o : option A, o ≫= np_stored np_cast sub)
                ∘ (λ ci : nat * list A, ci.2 !! j)).
      rewrite list_fmap_compose, (dat_entries_by_rows _ _ _ n f) by done.
      by rewrite <- list_fmap_compose.
    + apply lookup_lt_Some in Ha. apply lookup_ge_None in Hsub. lia.
    + apply lookup_ge_None in Ha. apply lookup_lt_Some in Hsub. lia.
    + done.
  - simpl. by rewrite Hidx, (idx_entries_by_rows _ _ _ n f).
Qed.

Lemma off_diagonal_by_rows n f :
  Loop.off_diagonal (by_rows n f) = by_rows n (λ p, filter (λ q, q ≠ p) (f p)).
Proof.
  unfold Loop.off_diagonal. induction n as [|n IH]; [done|].
  rewrite !by_rows_S, filter_app, IH. f_equal.
  induction (f n) as [|q qs IHq]; [done|]. csimpl. rewrite !filter_cons. cbn [fst snd].
  destruct (decide (q ≠ n)); csimpl; by rewrite IHq.
Qed.
End rows_in_order.

Section result_contents.
Context {BasisId Tol NodeArray NormalArray Tri Normal RulePoints RuleWeights Terms : Type}.
Context `{EqDecision BasisId, EqDecision Tol}.
Context (rule_points : RulePoints) (rule_weights : RuleWeights).
Context (face_integrals_yla_oijala :
           Tri → RulePoints → RuleWeights → Tri → Normal
           → Singular.face_integrals (Terms := Terms)).
Context (take_nodes : NodeArray → list nat → Tri).
Context (normal_at : NormalArray → nat → Normal).
Context (sha1_hexdigest : NormalArray → string).
Context (set_iter : gset nat → list nat).
Context (np_cast : np_dtype → list nat → Terms → string + Terms).
Context (numpy : numpy_version).

Local Abbreviation state :=
  (Singular.state (BasisId := BasisId) (Tol := Tol) (Terms := Terms)).
Local Abbreviation basis_t :=
  (Singular.LinearTriangleBasis (BasisId := BasisId) (NodeArray := NodeArray)).
Local Abbreviation Mesh := (Singular.Mesh (NodeArray := NodeArray)).
Local Abbreviation call :=
  (Singular.singular_impedance_rwg rule_points rule_weights
     face_integrals_yla_oijala take_nodes normal_at sha1_hexdigest set_iter
     np_cast numpy).
Local Abbreviation visits := (Singular.visits set_iter).
Local Abbreviation key_of b num_terms rel_tol normals :=
  ("RWG", Singular.id b, rel_tol, sha1_hexdigest normals, num_terms).
Local Abbreviation kernel :=
  (Loop.kernel rule_points rule_weights face_integrals_yla_oijala take_nodes normal_at).
Local Abbreviation kernel_at :=
  (Singular.kernel_at rule_points rule_weights face_integrals_yla_oijala
     take_nodes normal_at).
Implicit Types (st : state) (b : basis_t) (msh : Mesh).
Implicit Types (normals : NormalArray) (rel_tol : Tol).

(** X13: in a result computed by the function, the bundles of [T_MFIE] and
    [N_MFIE] have the same index array and the same row-pointer array,
    cell for cell: the two magnetic terms share one sparsity pattern. *)
Theorem magnetic_bundles_share_index_arrays b num_terms rel_tol normals st a st' :
  PyDict.get (Singular.cached_singular_terms st)
    (key_of b num_terms rel_tol normals) = None →
  call (Singular.IsLinearTriangleBasis b) num_terms rel_tol normals st = (inr a, st') →
  ∃ e t m idx ptr,
    Singular.heap st' !! a = Some [("T_EFIE", e); ("T_MFIE", t); ("N_MFIE", m)]
    ∧ Csr.index_of t = [idx; ptr]
    ∧ Csr.index_of m = [idx; ptr].
Proof.
  intros Hmiss (_ & e & t & m & He & Ht & Hm & -> & ->)%call_miss_inr; [|done].
  destruct (to_csr_layout _ _ _ _ _ _ Ht) as (das & idx & ptr & Heq & _).
  exists e, t, m, idx, ptr. cbn [Singular.heap]. split_and!.
  - by apply list_lookup_middle.
  - rewrite Heq. apply index_of_bundle.
  - rewrite <- (index_arrays_by_keys _ _ _ _ _ _ _ _ _ (eq_trans (t_mfie_ops_keys _ _ _ _ _ _ _ _)
                  (eq_sym (n_mfie_ops_keys _ _ _ _ _ _ _ _))) Ht Hm).
    rewrite Heq. apply index_of_bundle.
Qed.

(** X15: in a result computed by the function, entry [k] of every array
    belongs to the [k]-th pair [(p, q)] the loop visited, observers in
    ascending order and the sources of an observer in the order the set
    was iterated; for the magnetic terms the pairs with [q <> p] only.
    The two data arrays of [T_EFIE] hold [res[1]] and [res[0]] of the
    kernel for that pair, the data array of [T_MFIE] holds [res[3]], that
    of [N_MFIE] holds [res[2]], each as numpy converts it to the declared
    sub-array, and the index arrays hold [q]. *)
Theorem result_holds_kernel_values b num_terms rel_tol normals st a st' :
  (∀ X : gset nat, set_iter X ≡ₚ elements X) →
  PyDict.get (Singular.cached_singular_terms st)
    (key_of b num_terms rel_tol normals) = None →
  call (Singular.IsLinearTriangleBasis b) num_terms rel_tol normals st = (inr a, st') →
  let msh := Singular.mesh b in
  let pairs := visits msh in
  let offd := Loop.off_diagonal pairs in
  let scalar := (float64, Some [num_terms]) in
  let dyadic := (float64, Some [num_terms; 3; 3]) in
  ∃ e t m,
    Singular.heap st' !! a = Some [("T_EFIE", e); ("T_MFIE", t); ("N_MFIE", m)]
    ∧ Forall (λ pq, kernel_at msh normals pq.1 pq.2 = inr (kernel msh normals pq.1 pq.2))
             pairs
    ∧ cells <$> Csr.data_of e
      = [(λ pq, np_stored np_cast scalar (Singular.res1 (kernel msh normals pq.1 pq.2)))
           <$> pairs;
         (λ pq, np_stored np_cast dyadic (Singular.res0 (kernel msh normals pq.1 pq.2)))
           <$> pairs]
    ∧ cells <$> Csr.data_of t
      = [(λ pq, np_stored np_cast dyadic (Singular.res3 (kernel msh normals pq.1 pq.2)))
           <$> offd]
    ∧ cells <$> Csr.data_of m
      = [(λ pq, np_stored np_cast dyadic (Singular.res2 (kernel msh normals pq.1 pq.2)))
           <$> offd]
    ∧ (cells <$> Csr.index_of e) !! 0
      = Some ((λ pq, Some (int32_of_int (Z.of_nat pq.2))) <$> pairs)
    ∧ (cells <$> Csr.index_of t) !! 0
      = Some ((λ pq, Some (int32_of_int (Z.of_nat pq.2))) <$> offd)
    ∧ (cells <$> Csr.index_of m) !! 0
      = Some ((λ pq, Some (int32_of_int (Z.of_nat pq.2))) <$> offd).
Proof.
  intros Henum Hmiss (Hf & e & t & m & He & Ht & Hm & -> & ->)%call_miss_inr; [|done].
  intros msh pairs offd scalar dyadic.
  set (f := Loop.sources set_iter msh).
  set (n := length (Singular.polygons msh)).
  assert (Hv : pairs = by_rows n f) by apply visits_by_rows.
  assert (Hfn : ∀ p, NoDup (f p)) by (intros p; by apply NoDup_sources).
  assert (Ho : offd = by_rows n (λ p, filter (λ q, q ≠ p) (f p))).
  { unfold offd. by rewrite Hv, off_diagonal_by_rows. }
  assert (Hfo : ∀ p, NoDup (filter (λ q, q ≠ p) (f p)))
    by (intros p; by apply NoDup_filter).
  destruct (to_csr_by_rows _ _ _ _ _ n f _ _ Hv Hfn He) as [Hde Hie].
  destruct (to_csr_by_rows _ _ _ _ _ n _ _ _ Ho Hfo Ht) as [Hdt Hit].
  destruct (to_csr_by_rows _ _ _ _ _ n _ _ _ Ho Hfo Hm) as [Hdm Him].
  exists e, t, m. cbn [Singular.heap]. split_and!; try done.
  - by apply list_lookup_middle.
  - eapply Forall_impl; [exact Hf|]. intros [p q] Hpq. by apply kernel_at_faces.
Qed.
End result_contents.

Lemma magnetic_bundles_share_index_arrays_witness :
  ∃ e t m idx ptr,
    Singular.heap demo_state !! 0 = Some [("T_EFIE", e); ("T_MFIE", t); ("N_MFIE", m)]
    ∧ Csr.index_of t = [idx; ptr]
    ∧ Csr.index_of m = [idx; ptr].
Proof.
  apply (magnetic_bundles_share_index_arrays tt tt demo_kernel demo_take_nodes
           demo_normal_at demo_sha1 demo_set_iter demo_cast Numpy2 demo_basis 2 1%Z tt
           Singular.initial_state 0 demo_state).
  - reflexivity.
  - vm_compute. reflexivity.
Defined.

Lemma result_holds_kernel_values_witness :
  let kernel := Loop.kernel tt tt demo_kernel demo_take_nodes demo_normal_at demo_mesh tt in
  let pairs := Singular.visits demo_set_iter demo_mesh in
  let offd := Loop.off_diagonal pairs in
  ∃ e t m,
    Singular.heap demo_state !! 0 = Some [("T_EFIE", e); ("T_MFIE", t); ("N_MFIE", m)]
    ∧ Forall (λ pq, Singular.kernel_at tt tt demo_kernel demo_take_nodes demo_normal_at
                      demo_mesh tt pq.1 pq.2 = inr (kernel pq.1 pq.2))
             pairs
    ∧ cells <$> Csr.data_of e
      = [(λ pq, np_stored demo_cast (float64, Some [2]) (Singular.res1 (kernel pq.1 pq.2)))
           <$> pairs;
         (λ pq, np_stored demo_cast (float64, Some [2; 3; 3])
                  (Singular.res0 (kernel pq.1 pq.2)))
           <$> pairs]
    ∧ cells <$> Csr.data_of t
      = [(λ pq, np_stored demo_cast (float64, Some [2; 3; 3])
                  (Singular.res3 (kernel pq.1 pq.2)))
           <$> offd]
    ∧ cells <$> Csr.data_of m
      = [(λ pq, np_stored demo_cast (float64, Some [2; 3; 3])
                  (Singular.res2 (kernel pq.1 pq.2)))
           <$> offd]
    ∧ (cells <$> Csr.index_of e) !! 0
      = Some ((λ pq, Some (int32_of_int (Z.of_nat pq.2))) <$> pairs)
    ∧ (cells <$> Csr.index_of t) !! 0
      = Some ((λ pq, Some (int32_of_int (Z.of_nat pq.2))) <$> offd)
    ∧ (cells <$> Csr.index_of m) !! 0
      = Some ((λ pq, Some (int32_of_int (Z.of_nat pq.2))) <$> offd).
Proof.
  apply (result_holds_kernel_values tt tt demo_kernel demo_take_nodes
           demo_normal_at demo_sha1 demo_set_iter demo_cast Numpy2 demo_basis 2 1%Z tt
           Singular.initial_state 0 demo_state).
  - exact demo_set_iter_enum.
  - reflexivity.
  - vm_compute. reflexivity.
Defined.
